(** * Autoconvolution of long audio files: verification of [autoconvolution2x.py]

    A shallow embedding of the pure and staged parts of
    [src/autoconvolution2x/autoconvolution2x.py]:

    - [FftSize]   : [optimize_fft_size], the block-size search loop;
    - [Planner]   : [get_block_mixes], the pairing combinatorics;
    - [Segmenter] : block count, sequential block reads and the streaming
                    20 Hz high-pass filter of [process_audiofile];
    - [Float32]   : rounding of a rational to single precision;
    - [Envelope]  : envelope accumulation and smoothing, in single
                    precision;
    - [Mixer]     : per-group spectral multiply-accumulate with the adjacency
                    limit, and the running global peak;
    - [Assembler] : overlap-add, normalisation, clipping and quantisation;
    - [PlannerForm], [Window], [OverlapAdd], [TempFiles] : the groups of
                    the plan item by item, [ramp_window] and its two call
                    sites, the output loop hop by hop, and the names of
                    the temporary files.

    Python integers are unbounded, so they are [Z] (or [nat] for loop
    counters produced by [range]).  Python dictionaries keep insertion
    order, and [get_block_mixes] returns the values of one in that order, so
    they are association lists.  Sample arithmetic is single-precision
    floating point in the program.  Numbers are rationals ([Q]): the sums
    of the envelope stage are rounded to single precision ([Float32]),
    since what is proved of them depends on the rounding; the output
    stage is in exact arithmetic, for statements that the rounding does
    not touch; and an uninterpreted carrier with uninterpreted operations
    stands wherever a statement only depends on the order in which the
    operations are applied. *)

From Stdlib Require Import ZArith List Permutation Sorted Lia Bool Arith.
From Stdlib Require Import QArith Qround Qminmax Qabs Qpower Lqa.
From Stdlib Require String Ascii DecimalString DecimalNat.
Import ListNotations.

(** ** [optimize_fft_size] *)

Module FftSize.
Open Scope Z_scope.

(** One inner loop of the source,
    [while (n % d) == 0: n //= d], for [d] = 2 and [d] = 3.
    Python's [%] and [//] with a positive divisor are the floor
    operations, as are [Z.modulo] and [Z.div].  The loop need not
    terminate (it spins at [n = 0]), hence the fuel. *)
Fixpoint strip (fuel : nat) (d n : Z) : option Z :=
  match fuel with
  | O => None
  | S f => if n mod d =? 0 then strip f d (n / d) else Some n
  end.

(** The body of the outer loop up to the test [n < 2]: the value left in
    [n] after dividing by 2 while divisible and then by 3 while
    divisible. *)
Definition residue (fuel : nat) (n : Z) : option Z :=
  match strip fuel 2 n with
  | Some n2 => strip fuel 3 n2
  | None => None
  end.

(** The outer [while True] loop on [orig_n]. *)
Fixpoint search (fuel : nat) (orig_n : Z) : option Z :=
  match fuel with
  | O => None
  | S f =>
      match residue (S f) orig_n with
      | Some n => if n <? 2 then Some orig_n else search f (orig_n + 1)
      | None => None
      end
  end.

Definition optimize_fft_size (fuel : nat) (n : Z) : option Z := search fuel n.

(** The property of the claim, in its two forms. *)
Definition reduces_below_2 (m : Z) : Prop :=
  exists fuel r, residue fuel m = Some r /\ r < 2.

Definition smooth23 (m : Z) : Prop :=
  exists a b : nat, m = 2 ^ Z.of_nat a * 3 ^ Z.of_nat b.

End FftSize.

(** ** Python dictionaries as insertion-ordered association lists *)

Module Dict.
Section Dict.
Context {K V : Type}.
Variable eqb : K -> K -> bool.

(** [d.get(k)] / [k in d]. *)
Fixpoint lookup (k : K) (d : list (K * V)) : option V :=
  match d with
  | [] => None
  | (k', v) :: t => if eqb k k' then Some v else lookup k t
  end.

(** [d[k] = v]: overwrites in place when [k] is present, and otherwise
    appends the new item after all existing ones. *)
Fixpoint assign (k : K) (v : V) (d : list (K * V)) : list (K * V) :=
  match d with
  | [] => [(k, v)]
  | (k', v') :: t =>
      if eqb k k' then (k', v) :: t else (k', v') :: assign k v t
  end.

Definition keys (d : list (K * V)) : list K := map fst d.
Definition values (d : list (K * V)) : list V := map snd d.

(** Sum over the values, each weighted by [w]. *)
Definition total (w : V -> nat) (d : list (K * V)) : nat :=
  list_sum (map (fun kv => w (snd kv)) d).

End Dict.
End Dict.

(** ** [get_block_mixes] *)

Module Planner.
Open Scope nat_scope.

(** A key of the inner dictionaries, [(min(i,j), max(i,j))]. *)
Definition pair : Type := nat * nat.

Definition pair_eqb (p q : pair) : bool :=
  (fst p =? fst q)%nat && (snd p =? snd q)%nat.

(** One mix group: unordered pair to multiplicity. *)
Definition group : Type := list (pair * nat).

(** The dictionary [pos]: index sum to group. *)
Definition table : Type := list (nat * group).

(** [pos[k]] on a [defaultdict(lambda:{})]: a missing key is inserted with
    an empty dictionary. *)
Definition touch (k : nat) (pos : table) : table :=
  match Dict.lookup Nat.eqb k pos with
  | Some _ => pos
  | None => Dict.assign Nat.eqb k [] pos
  end.

Definition getitem (k : nat) (pos : table) : group :=
  match Dict.lookup Nat.eqb k pos with
  | Some g => g
  | None => []
  end.

(** The two statements on the inner dictionary:
    [if val not in g: g[val]=0] and [g[val]+=1]. *)
Definition bump (val : pair) (g : group) : group :=
  let g0 := match Dict.lookup pair_eqb val g with
            | Some _ => g
            | None => Dict.assign pair_eqb val 0 g
            end in
  match Dict.lookup pair_eqb val g0 with
  | Some c => Dict.assign pair_eqb val (c + 1) g0
  | None => g0
  end.

(** The body of the inner loop for one ordered pair [(i, j)].  The inner
    dictionary is mutated through the reference held by [pos], which is
    an update of the entry of [pos] at [i + j]. *)
Definition step (pos : table) (i j : nat) : table :=
  let val := (Nat.min i j, Nat.max i j) in
  let pos1 := touch (i + j) pos in
  Dict.assign Nat.eqb (i + j) (bump val (getitem (i + j) pos1)) pos1.

Definition fill (n_blocks : nat) : table :=
  fold_left
    (fun pos j => fold_left (fun pos i => step pos i j) (seq 0 n_blocks) pos)
    (seq 0 n_blocks) [].

Definition get_block_mixes (n_blocks : nat) : list group :=
  Dict.values (fill n_blocks).

(** Sum of the multiplicities of a group. *)
Definition weight (g : group) : nat := Dict.total (fun c => c) g.

(** The loop nest flattened: the pairs [(j, i)] in iteration order, and
    the loop body folded over any such list. *)
Definition iterations (n_blocks : nat) : list (nat * nat) :=
  list_prod (seq 0 n_blocks) (seq 0 n_blocks).

Definition run (ps : list (nat * nat)) (pos : table) : table :=
  fold_left (fun pos p => step pos (snd p) (fst p)) ps pos.

(** The ordered pairs of [0..N-1] whose indices sum to [k]. *)
Definition ordered_pairs (N k : nat) : list (nat * nat) :=
  filter (fun p => fst p + snd p =? k) (iterations N).

(** Those among [ps] that the loop body files under the key [val] of
    group [k]. *)
Definition hits (k : nat) (val : pair) (ps : list (nat * nat)) :
  list (nat * nat) :=
  filter (fun p => (k =? snd p + fst p) &&
                   pair_eqb val (Nat.min (snd p) (fst p), Nat.max (snd p) (fst p)))
         ps.

(** [pos[k][val]] when both keys are present. *)
Definition mult (pos : table) (k : nat) (val : pair) : option nat :=
  match Dict.lookup Nat.eqb k pos with
  | Some g => Dict.lookup pair_eqb val g
  | None => None
  end.

(** The multiplicity of the pair [(a, b)] in group [k] of a plan for [N]
    blocks: present when [a <= b < N] and [a + b = k], once on the
    diagonal and twice off it. *)
Definition expected (N k : nat) (p : pair) : option nat :=
  let (a, b) := p in
  if ((a <=? b) && (b <? N) && (a + b =? k))%nat
  then Some (if (a =? b)%nat then 1 else 2)%nat
  else None.

End Planner.

(** ** Block segmentation and the streaming high-pass filter *)

Module Segmenter.
Open Scope nat_scope.

(** One frame of the decoded file: one 16-bit sample per channel. *)
Definition frame : Type := list Z.

(** [n_blocks=nsamples//input_block_size_samples+1] followed by
    [n_blocks+=1]. *)
Definition n_blocks (nsamples input_block_size_samples : nat) : nat :=
  nsamples / input_block_size_samples + 1 + 1.

(** [f.readframes(n)]: the next [n] frames, fewer at the end of the file,
    and the file advanced past them. *)
Definition readframes (n : nat) (f : list frame) : list frame * list frame :=
  (firstn n f, skipn n f).

(** The [inbuf] of each iteration of [for block_k in range(n_blocks)]. *)
Fixpoint read_blocks (n input_block_size_samples : nat) (f : list frame) :
  list (list frame) :=
  match n with
  | 0 => []
  | S n' =>
      let (inbuf, f') := readframes input_block_size_samples f in
      inbuf :: read_blocks n' input_block_size_samples f'
  end.

(** [np.fromstring(inbuf,dtype=np.int16)[nchannel::nchannels]]: the
    samples of one channel of the interleaved buffer. *)
Definition channel (nchannel : nat) (inbuf : list frame) : list Z :=
  map (fun fr => nth nchannel fr 0%Z) inbuf.

Section Filter.

(** Floating-point samples and their arithmetic, uninterpreted. *)
Variable T : Type.
Variables (add sub mul : T -> T -> T).
(** [smp*(1.0/32768)] on one 16-bit sample. *)
Variable to_float : Z -> T.

(** The coefficients returned by [signal.butter(3, ...)]: numerator
    [b0..b3] and denominator [1, a1..a3]. *)
Record coeffs : Type := Coeffs {
  b0 : T; b1 : T; b2 : T; b3 : T;
  a1 : T; a2 : T; a3 : T
}.

(** The delay line [zi] of a third-order filter. *)
Definition state : Type := (T * T * T)%type.

(** One sample through [signal.lfilter] (transposed direct form II). *)
Definition lfilter_step (co : coeffs) (z : state) (x : T) : T * state :=
  let '(z0, z1, z2) := z in
  let y := add (mul (b0 co) x) z0 in
  (y, (sub (add (mul (b1 co) x) z1) (mul (a1 co) y),
       sub (add (mul (b2 co) x) z2) (mul (a2 co) y),
       sub (mul (b3 co) x) (mul (a3 co) y))).

(** [signal.lfilter(b, a, x, zi=zi)], returning the output and the final
    delay line. *)
Fixpoint lfilter (co : coeffs) (x : list T) (zi : state) : list T * state :=
  match x with
  | [] => ([], zi)
  | x0 :: x' =>
      let (y0, z1) := lfilter_step co zi x0 in
      let (y', zf) := lfilter co x' z1 in
      (y0 :: y', zf)
  end.

(** The channel loop of one block: channel [nchannel] is filtered from
    [zi20[nchannel]], which is replaced by the final delay line; no
    iteration reads or writes the entry of another channel.  The result
    is the filtered block of each channel and the new [zi20]. *)
Definition filter_block (co : coeffs) (nchannels : nat) (zdef : state)
  (zi20 : list state) (inbuf : list frame) : list (list T) * list state :=
  let r := map (fun nchannel =>
                  lfilter co (map to_float (channel nchannel inbuf))
                          (nth nchannel zi20 zdef))
               (seq 0 nchannels) in
  (map fst r, map snd r).

(** The block loop: [zi20] is threaded from each block to the next. *)
Fixpoint filter_blocks (co : coeffs) (nchannels : nat) (zdef : state)
  (zi20 : list state) (blocks : list (list frame)) : list (list (list T)) :=
  match blocks with
  | [] => []
  | inbuf :: rest =>
      let (smps, zi20') := filter_block co nchannels zdef zi20 inbuf in
      smps :: filter_blocks co nchannels zdef zi20' rest
  end.

End Filter.

End Segmenter.

(** ** Elementwise array arithmetic *)

Module Arrays.

(** [x op y] on two arrays of the same shape.  (On different shapes
    numpy broadcasts or raises; the program only combines equal shapes.) *)
Fixpoint zip_with {A B C : Type} (f : A -> B -> C) (x : list A) (y : list B) :
  list C :=
  match x, y with
  | a :: x', b :: y' => f a b :: zip_with f x' y'
  | _, _ => []
  end.

End Arrays.

(** ** Spectral multiply-accumulate *)

Module Mixer.
Import Planner.
Open Scope nat_scope.

Section Mixer.

(** Single-precision complex numbers and their arithmetic,
    uninterpreted. *)
Variable C : Type.
Variable czero : C.
Variables (cadd cmul : C -> C -> C).
(** A complex number times the integer multiplicity. *)
Variable cmul_int : C -> nat -> C.

(** [np.load(get_tmpfft_filename(tmpdir,block_k,nchannel))]: the spectra
    written by the segmenter. *)
Variable load : nat -> nat -> list C.

(** [if options.limit_blocks>0: if abs(b1_k-b2_k)>options.limit_blocks:
    continue]. *)
Definition skipped (limit_blocks : Z) (b1_k b2_k : nat) : bool :=
  ((0 <? limit_blocks) &&
   (limit_blocks <? Z.abs (Z.of_nat b1_k - Z.of_nat b2_k)))%Z.

(** The items of a group that the loop does not skip. *)
Definition kept (limit_blocks : Z) (block_mix : group) : group :=
  filter (fun item => negb (skipped limit_blocks (fst (fst item)) (snd (fst item))))
         block_mix.

(** The body of [for ((b1_k,b2_k),mul) in block_mix.items()]. *)
Definition mix_step (limit_blocks : Z) (nchannel : nat)
  (sum_freqs : list C) (item : pair * nat) : list C :=
  let '((b1_k, b2_k), mul) := item in
  if skipped limit_blocks b1_k b2_k then sum_freqs
  else
    let freq1 := load b1_k nchannel in
    let freq2 := load b2_k nchannel in
    Arrays.zip_with cadd sum_freqs
      (map (fun z => cmul_int z mul) (Arrays.zip_with cmul freq1 freq2)).

(** [sum_freqs] after the loop over one mix group, from
    [np.zeros(output_block_size_samples//2+1)]. *)
Definition sum_freqs (limit_blocks : Z) (output_block_size_samples : nat)
  (nchannel : nat) (block_mix : group) : list C :=
  fold_left (mix_step limit_blocks nchannel) block_mix
            (repeat czero (output_block_size_samples / 2 + 1)).

End Mixer.

End Mixer.

(** ** Conversions from floating point to integers *)

Module Numeric.
Open Scope Q_scope.

(** [int(x)] and [np.int16(x)] on a float in range: truncation towards
    zero. *)
Definition Qtrunc (x : Q) : Z := Z.quot (Qnum x) (Z.pos (Qden x)).

End Numeric.

(** ** Single-precision rounding *)

Module Float32.
Open Scope Q_scope.

(** The exponent [e] with [2^e <= x < 2^(e+1)], for [x > 0]. *)
Definition ilog2 (x : Q) : Z :=
  let e := (Z.log2 (Qnum x) - Z.log2 (Zpos (Qden x)))%Z in
  if Qle_bool (2 ^ e) x then e else (e - 1)%Z.

(** The spacing of single-precision numbers around [x > 0]: 24
    significant bits, and [2^-149] below the smallest normal number
    [2^-126]. *)
Definition ulp (x : Q) : Q := 2 ^ (Z.max (ilog2 x) (-126) - 23).

(** The integer nearest to [y], the even one of two at equal distance. *)
Definition rne (y : Q) : Z :=
  let f := Qfloor y in
  match Qcompare (y - inject_Z f) (1 # 2) with
  | Lt => f
  | Gt => (f + 1)%Z
  | Eq => if Z.even f then f else (f + 1)%Z
  end.

Definition round_pos (x : Q) : Q := inject_Z (rne (x / ulp x)) * ulp x.

(** The single-precision number nearest to [x] (round to nearest, ties
    to even).  A result beyond the largest finite number stands for the
    infinity that the hardware returns. *)
Definition round_f32 (x : Q) : Q :=
  match Qcompare 0 x with
  | Eq => 0
  | Lt => round_pos x
  | Gt => - round_pos (- x)
  end.

(** Single-precision addition. *)
Definition fadd32 (a b : Q) : Q := round_f32 (a + b).

End Float32.

(** ** Spectrum envelopes *)

Module Envelope.
Import Numeric.
Open Scope Q_scope.

Section Accumulate.

(** Single-precision complex numbers, uninterpreted, with their modulus
    [np.abs], a single-precision number. *)
Variable C : Type.
Variable cabs : C -> Q.


End Accumulate.

(** Index into an array of length [n] extended by reflection about its
    edges, [(d c b a | a b c d | d c b a)], the default boundary mode of
    [scipy.ndimage]. *)
Definition reflect (n : nat) (i : Z) : nat :=
  let m := (i mod (2 * Z.of_nat n))%Z in
  Z.to_nat (if (m <? Z.of_nat n)%Z then m else (2 * Z.of_nat n - 1 - m)%Z).

(** The [j]-th element of the window of width [size] placed at output
    index [i]. *)
Definition window (x : list Q) (size i j : nat) : Q :=
  nth (reflect (length x)
               (Z.of_nat i + Z.of_nat j - Z.of_nat (size / 2))%Z) x 0.

(** [ndimage.filters.maximum_filter1d(x, size=size)]. *)
Definition maximum_filter1d (x : list Q) (size : nat) : list Q :=
  map (fun i =>
         fold_left (fun m j => Qmax m (window x size i j))
                   (seq 1 (size - 1)) (window x size i 0))
      (seq 0 (length x)).

(** [one_hz_size_output=2.0*float(fft_size)/float(sample_rate)]. *)
Definition one_hz_size_output (fft_size sample_rate : nat) : Q :=
  2 * inject_Z (Z.of_nat fft_size) / inject_Z (Z.of_nat sample_rate).

(** [max(int(one_hz_size_output+0.5),2)]. *)
Definition filter_size (fft_size sample_rate : nat) : nat :=
  Z.to_nat (Z.max (Qtrunc (one_hz_size_output fft_size sample_rate + (1 # 2))) 2).

(** The literal [1e-9]: the double-precision number nearest to one
    billionth, [4835703278458517 / 2^82]. *)
Definition epsilon : Q := 4835703278458517 # 4835703278458516698824704.

(** The literal as the single-precision scalar that is added to a
    single-precision array. *)
Definition epsilon32 : Q := Float32.round_f32 epsilon.

(** [maximum_filter1d(envelopes[nchannel], size=...)+1e-9]: the filtered
    array is single precision, and so is the sum. *)
Definition smooth (fft_size sample_rate : nat) (envelope : list Q) : list Q :=
  map (fun m => Float32.fadd32 m epsilon32)
      (maximum_filter1d envelope (filter_size fft_size sample_rate)).

(** The floor that the specification states for the smoothed envelope,
    one billionth. *)
Definition stated_floor : Q := 1 # 1000000000.

End Envelope.

(** ** Peak tracking, overlap-add and quantisation *)

Module Assembler.
Import Numeric.
Open Scope Q_scope.

(** One frame of a mixed block, a sample per channel, and a mixed block
    as saved by the mixer: an array of shape (rows, channels). *)
Definition row : Type := list Q.
Definition block : Type := list row.

(** [np.amax(smp)] and [np.amin(smp)].  (They raise on an empty array;
    the arrays of the mixer are never empty.) *)
Definition amax (smp : list Q) : Q :=
  match smp with
  | [] => 0
  | x :: t => fold_left Qmax t x
  end.

Definition amin (smp : list Q) : Q :=
  match smp with
  | [] => 0
  | x :: t => fold_left Qmin t x
  end.

(** [max_current_smp=max(np.amax(smp),-np.amin(smp))]. *)
Definition max_current_smp (smp : list Q) : Q := Qmax (amax smp) (- amin smp).

(** The initial [max_smp], [1e-6]. *)
Definition peak_floor : Q := 1 # 1000000.

(** [max_smp] after the mixing loop.  The argument holds, for every mix
    group in order, the array [smp] of every channel in order; each one
    goes through [max_smp=max(max_current_smp,max_smp)]. *)
Definition max_smp (mixed : list (list (list Q))) : Q :=
  fold_left
    (fun m multichannel_smps =>
       fold_left (fun m smp => Qmax (max_current_smp smp) m)
                 multichannel_smps m)
    mixed peak_floor.

(** [np.dstack(multichannel_smps)[0]]: the channel arrays side by side,
    one row per sample index. *)
Definition dstack (multichannel_smps : list (list Q)) : block :=
  match multichannel_smps with
  | [] => []
  | smp0 :: _ =>
      map (fun r => map (fun smp => nth r smp 0) multichannel_smps)
          (seq 0 (length smp0))
  end.

(** [np.load(...)*(0.7/max_smp)]. *)
Definition scale (gain : Q) (b : block) : block :=
  map (map (fun x => x * gain)) b.

(** [result_buf+=old[:input_block_size_samples]] on equal shapes. *)
Definition add_rows (x y : block) : block :=
  Arrays.zip_with (Arrays.zip_with Qplus) x y.

(** [np.clip(x,-1.0,1.0)]. *)
Definition clip (x : Q) : Q := Qmin (Qmax x (- (1))) 1.

(** [np.int16(np.clip(x,-1.0,1.0)*32767.0)] on one sample. *)
Definition quantize (x : Q) : Z := Qtrunc (clip x * 32767).

(** The frames handed to [f.writeframes] for one [result_buf]. *)
Definition output_buf (result_buf : block) : list (list Z) :=
  map (map quantize) result_buf.

(** One iteration of the output loop on the normalised block
    [current_smps]: the emitted [result_buf] and the new [old_buf]. *)
Definition hop (input_block_size_samples : nat) (old_buf : list block)
  (current_smps : block) : block * list block :=
  let current_buf := firstn input_block_size_samples current_smps in
  let old_buf :=
    filter (fun o => (input_block_size_samples <=? length o)%nat) old_buf in
  let result_buf :=
    fold_left
      (fun result_buf old =>
         add_rows result_buf (firstn input_block_size_samples old))
      old_buf current_buf in
  let old_buf :=
    map (skipn input_block_size_samples) old_buf ++
    [skipn input_block_size_samples current_smps] in
  (result_buf, old_buf).

(** The output loop from a given [old_buf]: the [result_buf] of each
    iteration. *)
Fixpoint assemble_from (input_block_size_samples : nat) (gain : Q)
  (old_buf : list block) (blocks : list block) : list block :=
  match blocks with
  | [] => []
  | b :: rest =>
      let (result_buf, old_buf') :=
        hop input_block_size_samples old_buf (scale gain b) in
      result_buf :: assemble_from input_block_size_samples gain old_buf' rest
  end.

(** Mixing loop and output loop together, from the per-channel arrays of
    every group: the blocks are saved stacked, the peak is known after
    the last one, and the output loop starts with [old_buf=[]]. *)
Definition assemble (input_block_size_samples : nat)
  (mixed : list (list (list Q))) : list block :=
  assemble_from input_block_size_samples ((7 # 10) / max_smp mixed) []
                (map dstack mixed).

(** All frames written to the output file. *)
Definition written (input_block_size_samples : nat)
  (mixed : list (list (list Q))) : list (list Z) :=
  concat (map output_buf (assemble input_block_size_samples mixed)).


(** [round(0.7 * 32767)]. *)
Definition target_peak : Z := Qfloor ((7 # 10) * 32767 + (1 # 2)).

(** Every channel array of a group has [rows] samples, and there are
    [nchannels] of them. *)
Definition shaped (rows nchannels : nat) (multichannel_smps : list (list Q)) :
  Prop :=
  length multichannel_smps = nchannels /\
  Forall (fun smp => length smp = rows) multichannel_smps.

(** Every channel array of a group is zero from index [n] on. *)
Definition zero_beyond (n : nat) (multichannel_smps : list (list Q)) : Prop :=
  Forall (fun smp => forall r, (n <= r)%nat -> nth r smp 0 == 0)
         multichannel_smps.

(** Pointwise numerical equality of blocks. *)
Definition block_eq (x y : block) : Prop := Forall2 (Forall2 Qeq) x y.

(** Every sample of a block is zero. *)
Definition zero_block (z : block) : Prop :=
  Forall (Forall (fun x => x == 0)) z.

(** Every row of a block has [nchannels] samples. *)
Definition wide (nchannels : nat) (b : block) : Prop :=
  Forall (fun r : row => length r = nchannels) b.


(** [keep_envelope_mode]: 0, 1 and 2 in the source. *)
Inductive keep_envelope_mode : Type :=
| NoEnvelope
| AlignOnly
| KeepEnvelope.

Definition output_block_size_samples (mode : keep_envelope_mode)
  (input_block_size_samples : nat) : nat :=
  match mode with
  | NoEnvelope => input_block_size_samples * 2
  | AlignOnly => input_block_size_samples * 3
  | KeepEnvelope => input_block_size_samples * 3
  end.

(** [fft_size=output_block_size_samples//2+1], the length of every
    spectrum. *)
Definition fft_size (mode : keep_envelope_mode)
  (input_block_size_samples : nat) : nat :=
  output_block_size_samples mode input_block_size_samples / 2 + 1.

(** The length of [np.fft.irfft(sum_freqs)]: for a spectrum of [m] bins,
    [2 * (m - 1)] samples; [np.roll] and [ramp_window] keep it. *)
Definition mixed_rows (mode : keep_envelope_mode)
  (input_block_size_samples : nat) : nat :=
  2 * (fft_size mode input_block_size_samples - 1).



(** Mixed blocks for four input blocks of two samples holding
    0 0 | 2 2 | 3 0 | 0 0, as the exact products of the planner's groups:
    group 2 is the square of block 1, group 3 twice the product of blocks
    1 and 2, group 4 the square of block 2.  The largest sample, 12, is in
    group 3 only. *)
Definition mixed_223 : list (list (list Q)) :=
  [ [[0; 0; 0; 0]]; [[0; 0; 0; 0]]; [[4; 8; 4; 0]]; [[12; 12; 0; 0]];
    [[9; 0; 0; 0]]; [[0; 0; 0; 0]]; [[0; 0; 0; 0]] ].

(** Blocks of two samples of a signal equal to 1, 1, 1 in blocks 1 and 2
    of four, multiplied pairwise as polynomials by the planner's
    groups. *)
Definition mixed_111 : list (list (list Q)) :=
  [ [[0; 0; 0; 0]]; [[0; 0; 0; 0]]; [[1; 2; 1; 0]]; [[2; 2; 0; 0]];
    [[1; 0; 0; 0]]; [[0; 0; 0; 0]]; [[0; 0; 0; 0]] ].

End Assembler.

(** ** The groups of [get_block_mixes] in closed form *)

Module PlannerForm.
Import Planner.
Open Scope nat_scope.

(** Group [k] of a plan for [N] blocks, item by item in the order of
    [block_mix.items()]: the pairs [(a, k - a)] for [a] from the first
    index whose partner is below [N] up to [k // 2]. *)
Definition group_form (N k : nat) : group :=
  map (fun a => ((a, k - a), if a =? k - a then 1 else 2))
      (seq (k - (N - 1)) (k / 2 + 1 - (k - (N - 1)))).

(** The order in which the loop nest visits the pairs [(j, i)]. *)
Definition visited_before (p q : nat * nat) : Prop :=
  fst p < fst q \/ (fst p = fst q /\ snd p < snd q).

(** Keys ordered by their first component. *)
Definition fst_lt (p q : pair) : Prop := fst p < fst q.

End PlannerForm.

(** ** [ramp_window] and the shaping of a mixed block *)

Module Window.
Open Scope Q_scope.

(** [np.linspace(start,stop,num)]. *)
Definition linspace (start stop : Q) (num : nat) : list Q :=
  match num with
  | O => []
  | S O => [start]
  | S (S _) =>
      map (fun i => start + inject_Z (Z.of_nat i) *
                            ((stop - start) / inject_Z (Z.of_nat (num - 1))))
          (seq 0 num)
  end.

(** [target *= w] on one-dimensional arrays, [target] being a slice of
    the array to change: elementwise on equal lengths, a one-element [w]
    is broadcast, and any other pair of lengths raises [ValueError]. *)
Definition imul (target w : list Q) : option (list Q) :=
  if (length w =? length target)%nat
  then Some (Arrays.zip_with Qmult target w)
  else match w with
       | [w0] => Some (map (fun x => x * w0) target)
       | _ => None
       end.

(** [ramp_window(smp,ramp_size)]; [None] when one of the two in-place
    products raises.  The slice [smp[-ramp_size:]] starts at
    [len(smp) - ramp_size], at 0 when that is negative, and is the whole
    array for [ramp_size = 0]. *)
Definition ramp_window (smp : list Q) (ramp_size : nat) : option (list Q) :=
  match imul (firstn ramp_size smp) (linspace 0 1 ramp_size) with
  | None => None
  | Some head =>
      let smp1 := head ++ skipn ramp_size smp in
      let start := if (ramp_size =? 0)%nat then O
                   else (length smp1 - ramp_size)%nat in
      match imul (skipn start smp1) (linspace 1 0 ramp_size) with
      | None => None
      | Some tail => Some (firstn start smp1 ++ tail)
      end
  end.

(** [np.roll(smp,shift)] for a shift that is not negative. *)
Definition roll (smp : list Q) (shift : nat) : list Q :=
  match length smp with
  | O => smp
  | n => skipn (n - shift mod n) smp ++ firstn (n - shift mod n) smp
  end.

(** The end of the mixing of one channel, after the inverse transform:
    [if extra_output_samples>0: extra=extra_output_samples//2;
    smp=np.roll(smp,extra); ramp_window(smp,extra)]. *)
Definition finish_block (extra_output_samples : nat) (smp : list Q) :
  option (list Q) :=
  if (0 <? extra_output_samples)%nat
  then let extra := (extra_output_samples / 2)%nat in
       ramp_window (roll smp extra) extra
  else Some smp.

(** [extra_output_samples=output_block_size_samples-input_block_size_samples*2]. *)
Definition extra_output_samples (mode : Assembler.keep_envelope_mode)
  (input_block_size_samples : nat) : nat :=
  (Assembler.output_block_size_samples mode input_block_size_samples -
   input_block_size_samples * 2)%nat.

(** The guarded call in the segmenter:
    [if 0<input_ramp_size*2<len(smp): ramp_window(smp,input_ramp_size)]. *)
Definition ramp_input (input_ramp_size : nat) (smp : list Q) :
  option (list Q) :=
  if ((0 <? input_ramp_size * 2) && (input_ramp_size * 2 <? length smp))%nat
  then ramp_window smp input_ramp_size
  else Some smp.

End Window.

(** ** Overlap-add, hop by hop *)

Module OverlapAdd.
Import Assembler.
Open Scope nat_scope.

(** The part of the normalised block [j] that lies under hop [k]. *)
Definition segment (input_block_size_samples : nat) (blocks : list block)
  (k j : nat) : block :=
  firstn input_block_size_samples
         (skipn ((k - j) * input_block_size_samples) (nth j blocks [])).

(** The earlier blocks that reach over the whole of hop [k]. *)
Definition covering (input_block_size_samples : nat) (blocks : list block)
  (k : nat) : list nat :=
  filter (fun j => (k - j + 1) * input_block_size_samples <=?
                   length (nth j blocks []))
         (seq 0 k).

(** Hop [k] as a sum: the head of block [k], then the segments of the
    covering blocks added one after the other, oldest first. *)
Definition hop_sum (input_block_size_samples : nat) (blocks : list block)
  (k : nat) : block :=
  fold_left add_rows
            (map (segment input_block_size_samples blocks k)
                 (covering input_block_size_samples blocks k))
            (firstn input_block_size_samples (nth k blocks [])).

(** Hop [k] when every block has [rows] rows: the head of block [k] and
    the segments of the [rows // input_block_size - 1] blocks before
    it. *)
Definition hop_window (input_block_size_samples rows : nat)
  (blocks : list block) (k : nat) : block :=
  fold_left add_rows
            (map (segment input_block_size_samples blocks k)
                 (seq (k - (rows / input_block_size_samples - 1))
                      (k - (k - (rows / input_block_size_samples - 1)))))
            (firstn input_block_size_samples (nth k blocks [])).

(** The rows of a block of [rows] rows that lie under some hop. *)
Definition used_rows (input_block_size_samples rows : nat) : nat :=
  rows / input_block_size_samples * input_block_size_samples.

(** [old_buf] when the iteration for block [k] starts. *)
Definition tails (input_block_size_samples : nat) (blocks : list block)
  (k : nat) : list block :=
  map (fun j => skipn ((k - j) * input_block_size_samples) (nth j blocks []))
      (filter (fun j => (k - j) * input_block_size_samples <=?
                        length (nth j blocks []))
              (seq 0 k)).

End OverlapAdd.

(** ** Names of the temporary files *)

Module TempFiles.
Import Ascii String.
Local Open Scope string_scope.

(** [tmpextension=".npy"]. *)
Definition tmpextension : string := ".npy".

(** ["%d" % n] for an integer [n >= 0], as produced by [range] and by the
    planner: the decimal digits of [n]. *)
Definition format_d (n : nat) : string :=
  DecimalString.NilEmpty.string_of_uint (Nat.to_uint n).

(** [b.startswith("/")] and [a.endswith("/")]. *)
Definition startswith_sep (b : string) : bool :=
  match b with
  | String c _ => Ascii.eqb c "/"
  | EmptyString => false
  end.

Fixpoint endswith_sep (a : string) : bool :=
  match a with
  | EmptyString => false
  | String c EmptyString => Ascii.eqb c "/"
  | String _ t => endswith_sep t
  end.

(** [os.path.join(a, b)] of [posixpath]: [b] alone when it is absolute,
    else [a] and [b] with a separator between them unless [a] is empty or
    ends with one. *)
Definition join (a b : string) : string :=
  if startswith_sep b then b
  else if match a with EmptyString => true | _ => endswith_sep a end
       then a ++ b
       else a ++ "/" ++ b.

Definition get_tmpfft_filename (tmpdir : string) (block_k nchannel : nat) :
  string :=
  join tmpdir
       (("tmpfft_" ++ format_d block_k ++ "_" ++ format_d nchannel)
        ++ tmpextension).

Definition get_tmpsmp_filename (tmpdir : string) (block_k : nat) : string :=
  join tmpdir (("tmpsmp_" ++ format_d block_k) ++ tmpextension).

(** Whether the character [c] occurs in [s]. *)
Fixpoint occurs (c : ascii) (s : string) : bool :=
  match s with
  | EmptyString => false
  | String c' t => Ascii.eqb c c' || occurs c t
  end.

End TempFiles.

(** * Part II: properties *)

(** ** [optimize_fft_size]: least 3-smooth size, termination *)

Module FftSizeProofs.
Import FftSize.
Open Scope Z_scope.

Example optimize_fft_size_7 : optimize_fft_size 10 7 = Some 8.
Proof. reflexivity. Qed.

Example optimize_fft_size_1000 : optimize_fft_size 100 1000 = Some 1024.
Proof. vm_compute. reflexivity. Qed.

Example optimize_fft_size_neg : optimize_fft_size 5 (-6) = Some (-6).
Proof. reflexivity. Qed.

(** *** The inner loop *)

Lemma strip_mono fuel : forall d n r fuel',
  strip fuel d n = Some r -> (fuel <= fuel')%nat -> strip fuel' d n = Some r.
Proof.
  induction fuel as [|f IH]; intros d n r fuel' H Hle; simpl in H.
  - discriminate.
  - destruct fuel' as [|f']; [lia|]. simpl.
    destruct (n mod d =? 0).
    + apply IH; [assumption | lia].
    + assumption.
Qed.

Lemma strip_total fuel : forall d n,
  2 <= d -> 1 <= n -> (Z.to_nat n < fuel)%nat ->
  exists r (k : nat),
    strip fuel d n = Some r /\ 1 <= r <= n /\ r mod d <> 0 /\
    n = d ^ Z.of_nat k * r.
Proof.
  induction fuel as [|f IH]; intros d n Hd Hn Hf; [lia|].
  simpl. destruct (n mod d =? 0) eqn:E.
  - apply Z.eqb_eq in E.
    assert (Hdiv : n = d * (n / d)).
    { rewrite (Z.div_mod n d) at 1 by lia. lia. }
    assert (Hq : 1 <= n / d < n).
    { split.
      - apply Z.div_le_lower_bound; try lia.
        destruct (Z.le_gt_cases d n) as [Hle|Hgt]; [lia|].
        rewrite Z.mod_small in E by lia. lia.
      - apply Z.div_lt; lia. }
    destruct (IH d (n / d)) as (r & k & Hs & Hr & Hm & Hk); try lia.
    exists r, (S k). repeat split; try assumption; try lia.
    rewrite Nat2Z.inj_succ, Z.pow_succ_r by lia.
    rewrite Hdiv at 1. rewrite Hk at 1. ring.
  - apply Z.eqb_neq in E. exists n, O. repeat split; try lia.
Qed.

(** Stripping [d] from [d^k * q] when [d] does not divide [q]. *)
Lemma strip_pow (k : nat) : forall fuel d q,
  2 <= d -> q mod d <> 0 -> (k < fuel)%nat ->
  strip fuel d (d ^ Z.of_nat k * q) = Some q.
Proof.
  induction k as [|k IH]; intros fuel d q Hd Hq Hf;
    (destruct fuel as [|f]; [lia|]).
  - change (Z.of_nat 0) with 0. rewrite Z.pow_0_r, Z.mul_1_l.
    cbn [strip]. apply Z.eqb_neq in Hq. rewrite Hq. reflexivity.
  - rewrite Nat2Z.inj_succ, Z.pow_succ_r by lia.
    replace (d * d ^ Z.of_nat k * q) with (d ^ Z.of_nat k * q * d) by ring.
    cbn [strip]. rewrite Z.mod_mul, Z.div_mul by lia. rewrite Z.eqb_refl.
    apply IH; [assumption | assumption | lia].
Qed.

(** *** The test of the outer loop *)

Lemma residue_mono fuel fuel' n r :
  residue fuel n = Some r -> (fuel <= fuel')%nat -> residue fuel' n = Some r.
Proof.
  unfold residue. intros H Hle.
  destruct (strip fuel 2 n) as [n2|] eqn:E; [|discriminate].
  rewrite (strip_mono _ _ _ _ _ E Hle). eapply strip_mono; eassumption.
Qed.

Lemma residue_det f1 f2 n r1 r2 :
  residue f1 n = Some r1 -> residue f2 n = Some r2 -> r1 = r2.
Proof.
  intros H1 H2.
  apply (residue_mono _ (Nat.max f1 f2)) in H1; [|lia].
  apply (residue_mono _ (Nat.max f1 f2)) in H2; [|lia].
  congruence.
Qed.

Lemma residue_total fuel n :
  1 <= n -> (Z.to_nat n < fuel)%nat ->
  exists r (a b : nat),
    residue fuel n = Some r /\ 1 <= r /\
    n = 2 ^ Z.of_nat a * 3 ^ Z.of_nat b * r.
Proof.
  intros Hn Hf. unfold residue.
  destruct (strip_total fuel 2 n) as (n2 & a & H2 & Hr2 & _ & Ha); try lia.
  rewrite H2.
  destruct (strip_total fuel 3 n2) as (r & b & H3 & Hr & _ & Hb); try lia.
  exists r, a, b. repeat split; try assumption; try lia.
Qed.

Lemma pow3_odd (b : nat) : (3 ^ Z.of_nat b) mod 2 <> 0.
Proof.
  induction b as [|b IH].
  - simpl. discriminate.
  - rewrite Nat2Z.inj_succ, Z.pow_succ_r by lia.
    rewrite Z.mul_mod by lia.
    assert (H : 0 <= (3 ^ Z.of_nat b) mod 2 < 2) by (apply Z.mod_pos_bound; lia).
    replace ((3 ^ Z.of_nat b) mod 2) with 1 in * by lia.
    discriminate.
Qed.

Lemma residue_smooth fuel (a b : nat) :
  (a < fuel)%nat -> (b < fuel)%nat ->
  residue fuel (2 ^ Z.of_nat a * 3 ^ Z.of_nat b) = Some 1.
Proof.
  intros Ha Hb. unfold residue.
  rewrite strip_pow by (try lia; apply pow3_odd).
  replace (3 ^ Z.of_nat b) with (3 ^ Z.of_nat b * 1) by ring.
  apply strip_pow; try lia. discriminate.
Qed.

Lemma smooth23_pos m : smooth23 m -> 1 <= m.
Proof.
  intros (a & b & ->).
  assert (0 < 2 ^ Z.of_nat a) by (apply Z.pow_pos_nonneg; lia).
  assert (0 < 3 ^ Z.of_nat b) by (apply Z.pow_pos_nonneg; lia).
  nia.
Qed.

Lemma smooth23_reduces m : smooth23 m -> reduces_below_2 m.
Proof.
  intros (a & b & ->). exists (S (Nat.max a b)), 1. split; [|lia].
  apply residue_smooth; lia.
Qed.

Lemma reduces_smooth23 m : 1 <= m -> reduces_below_2 m -> smooth23 m.
Proof.
  intros Hm (fuel & r & Hr & Hlt).
  destruct (residue_total (S (Z.to_nat m)) m) as (r' & a & b & Hr' & Hge & Heq);
    try lia.
  assert (r = r') by (eapply residue_det; eassumption). subst r'.
  assert (r = 1) by lia. subst r.
  exists a, b. rewrite Heq at 1. ring.
Qed.

(** *** The outer loop *)

Lemma search_mono fuel : forall n m fuel',
  search fuel n = Some m -> (fuel <= fuel')%nat -> search fuel' n = Some m.
Proof.
  induction fuel as [|f IH]; intros n m fuel' H Hle; [discriminate|].
  destruct fuel' as [|f']; [lia|].
  cbn [search] in *.
  destruct (residue (S f) n) as [r|] eqn:E; [|discriminate].
  rewrite (residue_mono _ (S f') _ _ E) by lia.
  destruct (r <? 2); [assumption|]. apply IH; [assumption | lia].
Qed.

(** Partial correctness: what the loop returns is the first candidate from
    [n] upwards that passes the test. *)
Lemma search_sound fuel : forall n m,
  search fuel n = Some m ->
  n <= m /\ reduces_below_2 m /\ forall k, n <= k < m -> ~ reduces_below_2 k.
Proof.
  induction fuel as [|f IH]; intros n m H; [discriminate|].
  cbn [search] in H.
  destruct (residue (S f) n) as [r|] eqn:E; [|discriminate].
  destruct (r <? 2) eqn:Er.
  - injection H as <-. apply Z.ltb_lt in Er.
    split; [lia|]. split; [exists (S f), r; auto | intros k Hk; lia].
  - apply Z.ltb_ge in Er. apply IH in H as (Hle & Hred & Hmin).
    split; [lia|]. split; [assumption|].
    intros k Hk. destruct (Z.eq_dec k n) as [->|Hne].
    + intros (f' & r' & Hr' & Hlt).
      assert (r = r') by (eapply residue_det; eassumption). lia.
    + apply Hmin. lia.
Qed.

(** Total correctness: below a 3-smooth bound [B] the loop returns, given
    fuel for the candidates up to [B] and for the inner loops on each. *)
Lemma search_total fuel : forall n B,
  1 <= n <= B -> smooth23 B ->
  (Z.to_nat B + Z.to_nat (B - n) < fuel)%nat ->
  exists m, search fuel n = Some m.
Proof.
  induction fuel as [|f IH]; intros n B Hn HB Hf; [lia|].
  cbn [search].
  destruct (residue_total (S f) n) as (r & a & b & Hr & Hge & Heq); try lia.
  rewrite Hr. destruct (r <? 2) eqn:Er; [eauto|].
  apply Z.ltb_ge in Er.
  assert (n <> B).
  { intros ->. destruct (smooth23_reduces _ HB) as (f' & r' & Hr' & Hlt).
    assert (r = r') by (eapply residue_det; eassumption). lia. }
  apply (IH (n + 1) B); [lia | assumption | lia].
Qed.

Lemma pow2_smooth (k : nat) : smooth23 (2 ^ Z.of_nat k).
Proof. exists k, O. change (Z.of_nat 0) with 0. rewrite Z.pow_0_r. ring. Qed.

Lemma pow2_above n : 0 <= n -> n <= 2 ^ Z.of_nat (Z.to_nat n).
Proof.
  intros Hn. rewrite Z2Nat.id by assumption.
  apply Z.lt_le_incl, Z.pow_gt_lin_r; lia.
Qed.

Lemma optimize_fft_size_returns n :
  1 <= n ->
  exists fuel m,
    forall fuel', (fuel <= fuel')%nat -> optimize_fft_size fuel' n = Some m.
Proof.
  intros Hn. set (B := 2 ^ Z.of_nat (Z.to_nat n)).
  destruct (search_total (S (Z.to_nat B + Z.to_nat (B - n))) n B) as [m Hm].
  - split; [assumption | apply pow2_above; lia].
  - apply pow2_smooth.
  - lia.
  - exists (S (Z.to_nat B + Z.to_nat (B - n))), m.
    intros fuel' Hle. eapply search_mono; eassumption.
Qed.

(** The inner loop on 2 never leaves [n = 0]: no amount of fuel is
    enough. *)
Lemma strip_zero fuel d : strip fuel d 0 = None.
Proof.
  induction fuel as [|f IH]; [reflexivity|].
  cbn [strip]. rewrite Zmod_0_l, Zdiv_0_l. exact IH.
Qed.

Lemma optimize_fft_size_zero fuel : optimize_fft_size fuel 0 = None.
Proof.
  destruct fuel as [|f]; [reflexivity|].
  unfold optimize_fft_size. cbn [search]. unfold residue.
  rewrite strip_zero. reflexivity.
Qed.

(** Claim C2.  For every integer [n >= 1], [optimize_fft_size n] returns
    (with enough fuel, and then with any larger amount) the smallest
    integer [m >= n] that the test of the loop accepts: dividing [m] by 2
    while divisible and then by 3 while divisible leaves a value below 2.
    From 1 upwards that test is the same as having no prime factor other
    than 2 and 3, and the result is [n] itself when [n] passes it. *)
Theorem optimize_fft_size_least (n : Z) :
  1 <= n ->
  exists fuel m,
    (forall fuel', (fuel <= fuel')%nat -> optimize_fft_size fuel' n = Some m) /\
    n <= m /\ reduces_below_2 m /\ smooth23 m /\
    (forall k, n <= k < m -> ~ reduces_below_2 k /\ ~ smooth23 k) /\
    (reduces_below_2 n -> m = n) /\ (smooth23 n -> m = n) /\
    (forall k, 1 <= k -> (reduces_below_2 k <-> smooth23 k)).
Proof.
  intros Hn.
  destruct (optimize_fft_size_returns n Hn) as (fuel & m & Hret).
  destruct (search_sound fuel n m (Hret fuel (Nat.le_refl _)))
    as (Hle & Hred & Hmin).
  assert (Hself : reduces_below_2 n -> m = n).
  { intros Hrn. destruct (Z.eq_dec m n) as [|Hne]; [assumption|].
    exfalso. apply (Hmin n); [lia | assumption]. }
  exists fuel, m. repeat split; try assumption.
  - apply reduces_smooth23; [lia | assumption].
  - apply Hmin; assumption.
  - intros Hs. apply (Hmin k); [assumption | apply smooth23_reduces, Hs].
  - intros Hs. apply Hself, smooth23_reduces, Hs.
  - apply reduces_smooth23; assumption.
  - apply smooth23_reduces.
Qed.

Lemma optimize_fft_size_least_witness :
  1 <= 7 /\
  exists fuel m,
    (forall fuel', (fuel <= fuel')%nat -> optimize_fft_size fuel' 7 = Some m) /\
    7 <= m /\ reduces_below_2 m /\ smooth23 m /\
    (forall k, 7 <= k < m -> ~ reduces_below_2 k /\ ~ smooth23 k) /\
    (reduces_below_2 7 -> m = 7) /\ (smooth23 7 -> m = 7) /\
    (forall k, 1 <= k -> (reduces_below_2 k <-> smooth23 k)).
Proof. split; [lia | apply (optimize_fft_size_least 7); lia]. Defined.

(** Claim C10.  For every integer [n >= 1] the search terminates: some
    amount of fuel, and every larger one, makes [optimize_fft_size n]
    return.  Outside the precondition it need not: at [n = 0] the first
    inner loop never exits, so no amount of fuel gives a result. *)
Theorem optimize_fft_size_terminates (n : Z) :
  (1 <= n ->
   exists fuel m,
     forall fuel', (fuel <= fuel')%nat -> optimize_fft_size fuel' n = Some m) /\
  (n = 0 -> forall fuel, optimize_fft_size fuel n = None).
Proof.
  split.
  - apply optimize_fft_size_returns.
  - intros -> fuel. apply optimize_fft_size_zero.
Qed.

Lemma optimize_fft_size_terminates_witness :
  (1 <= 5 /\
   exists fuel m,
     forall fuel', (fuel <= fuel')%nat -> optimize_fft_size fuel' 5 = Some m) /\
  (forall fuel, optimize_fft_size fuel 0 = None).
Proof.
  split.
  - split; [lia | apply (proj1 (optimize_fft_size_terminates 5)); lia].
  - apply (proj2 (optimize_fft_size_terminates 0)). reflexivity.
Defined.

End FftSizeProofs.

(** ** Association-list dictionaries *)

Module DictProofs.
Import Dict.
Open Scope nat_scope.

Section Facts.
Context {K V : Type}.
Variable eqb : K -> K -> bool.
Hypothesis eqb_spec : forall a b, reflect (a = b) (eqb a b).

Lemma lookup_assign_eq k v (d : list (K * V)) :
  lookup eqb k (assign eqb k v d) = Some v.
Proof.
  induction d as [|[k' v'] t IH]; cbn [assign lookup].
  - destruct (eqb_spec k k); [reflexivity | congruence].
  - destruct (eqb_spec k k') as [->|Hne]; cbn [lookup].
    + destruct (eqb_spec k' k'); [reflexivity | congruence].
    + destruct (eqb_spec k k'); [congruence | exact IH].
Qed.

Lemma lookup_assign_ne k k' v (d : list (K * V)) :
  k' <> k -> lookup eqb k' (assign eqb k v d) = lookup eqb k' d.
Proof.
  intros Hne. induction d as [|[k0 v0] t IH]; cbn [assign lookup].
  - destruct (eqb_spec k' k); [congruence | reflexivity].
  - destruct (eqb_spec k k0) as [->|Hk]; cbn [lookup].
    + destruct (eqb_spec k' k0); [congruence | reflexivity].
    + destruct (eqb_spec k' k0); [reflexivity | exact IH].
Qed.

Lemma lookup_None k (d : list (K * V)) :
  lookup eqb k d = None -> ~ In k (keys d).
Proof.
  induction d as [|[k' v'] t IH]; cbn [lookup keys map fst]; [tauto|].
  destruct (eqb_spec k k') as [->|Hne]; [discriminate|].
  intros H [Heq|Hin]; [congruence | exact (IH H Hin)].
Qed.

Lemma lookup_notin k (d : list (K * V)) :
  ~ In k (keys d) -> lookup eqb k d = None.
Proof.
  induction d as [|[k' v'] t IH]; cbn [lookup keys map fst]; [reflexivity|].
  intros Hnin. destruct (eqb_spec k k') as [->|Hne].
  - exfalso. apply Hnin. left. reflexivity.
  - apply IH. intros Hin. apply Hnin. right. exact Hin.
Qed.

Lemma lookup_Some_in k v (d : list (K * V)) :
  lookup eqb k d = Some v -> In (k, v) d.
Proof.
  induction d as [|[k' v'] t IH]; cbn [lookup]; [discriminate|].
  destruct (eqb_spec k k') as [->|Hne].
  - intros [= ->]. left. reflexivity.
  - intros H. right. exact (IH H).
Qed.

(** An assignment keeps the insertion order and puts a new key last. *)
Lemma keys_assign k v (d : list (K * V)) :
  keys (assign eqb k v d) =
  match lookup eqb k d with
  | Some _ => keys d
  | None => keys d ++ [k]
  end.
Proof.
  unfold keys. induction d as [|[k' v'] t IH]; cbn [assign lookup map app fst].
  - reflexivity.
  - destruct (eqb_spec k k') as [->|Hne]; cbn [map fst].
    + reflexivity.
    + rewrite IH. destruct (lookup eqb k t); reflexivity.
Qed.

Lemma NoDup_keys_assign k v (d : list (K * V)) :
  NoDup (keys d) -> NoDup (keys (assign eqb k v d)).
Proof.
  intros Hnd. rewrite keys_assign.
  destruct (lookup eqb k d) eqn:E; [assumption|].
  apply lookup_None in E.
  apply NoDup_rev in Hnd. rewrite <- (rev_involutive (keys d ++ [k])).
  apply NoDup_rev. rewrite rev_app_distr. cbn [rev app].
  constructor; [rewrite <- in_rev; assumption | assumption].
Qed.

(** An assignment changes the weighted sum by the difference between the
    new and the old value. *)
Lemma total_assign (w : V -> nat) k v (d : list (K * V)) :
  total w (assign eqb k v d) +
    match lookup eqb k d with Some v0 => w v0 | None => 0 end =
  total w d + w v.
Proof.
  unfold total. induction d as [|[k' v'] t IH]; cbn [assign lookup].
  - simpl. lia.
  - destruct (eqb_spec k k') as [->|Hne]; simpl in *; lia.
Qed.

End Facts.

(** When the keys are [s, s+1, ...], the [k]-th value is the one stored
    under [s + k]. *)
Lemma nth_values_seq {V : Type} (d : list (nat * V)) : forall s m k,
  keys d = seq s m -> k < m ->
  exists v, nth_error (values d) k = Some v /\
            lookup Nat.eqb (s + k) d = Some v.
Proof.
  induction d as [|[k' v'] t IH]; intros s m k Hk Hlt.
  - destruct m; [lia | discriminate].
  - destruct m as [|m]; [lia|]. cbn [keys map fst seq] in Hk.
    injection Hk as -> Ht. destruct k as [|k].
    + exists v'. cbn. rewrite Nat.add_0_r, Nat.eqb_refl. auto.
    + destruct (IH (S s) m k Ht) as (v & Hn & Hl); [lia|].
      exists v. cbn [values map nth_error snd lookup].
      split; [exact Hn|].
      destruct (Nat.eqb_spec (s + S k) s); [lia|].
      replace (s + S k) with (S s + k) by lia. exact Hl.
Qed.

End DictProofs.

(** ** [get_block_mixes]: group count, contents and multiplicities *)

Module PlannerProofs.
Import Planner.
Open Scope nat_scope.

Example get_block_mixes_3 :
  get_block_mixes 3 =
  [ [((0,0),1)]; [((0,1),2)]; [((0,2),2); ((1,1),1)]; [((1,2),2)]; [((2,2),1)] ].
Proof. reflexivity. Qed.

Example get_block_mixes_0 : get_block_mixes 0 = [].
Proof. reflexivity. Qed.

Lemma pair_eqb_spec (p q : pair) : reflect (p = q) (pair_eqb p q).
Proof.
  destruct p as [a b], q as [c d]. unfold pair_eqb. cbn [fst snd].
  destruct (Nat.eqb_spec a c) as [->|Hac], (Nat.eqb_spec b d) as [->|Hbd];
    constructor; congruence.
Qed.

(** *** The inner dictionary *)

Lemma lookup_bump val v g :
  Dict.lookup pair_eqb v (bump val g) =
  if pair_eqb v val
  then Some (match Dict.lookup pair_eqb val g with
             | Some c => c + 1
             | None => 1
             end)
  else Dict.lookup pair_eqb v g.
Proof.
  unfold bump. destruct (Dict.lookup pair_eqb val g) as [c|] eqn:E.
  - rewrite E. destruct (pair_eqb_spec v val) as [->|Hne].
    + apply (DictProofs.lookup_assign_eq _ pair_eqb_spec).
    + apply (DictProofs.lookup_assign_ne _ pair_eqb_spec); assumption.
  - rewrite (DictProofs.lookup_assign_eq _ pair_eqb_spec).
    destruct (pair_eqb_spec v val) as [->|Hne].
    + apply (DictProofs.lookup_assign_eq _ pair_eqb_spec).
    + rewrite !(DictProofs.lookup_assign_ne _ pair_eqb_spec) by assumption.
      reflexivity.
Qed.

Lemma weight_bump val g : weight (bump val g) = weight g + 1.
Proof.
  unfold bump, weight. destruct (Dict.lookup pair_eqb val g) as [c|] eqn:E.
  - rewrite E.
    pose proof (DictProofs.total_assign _ pair_eqb_spec (fun c => c)
                  val (c + 1) g) as H.
    rewrite E in H. lia.
  - rewrite (DictProofs.lookup_assign_eq _ pair_eqb_spec).
    pose proof (DictProofs.total_assign _ pair_eqb_spec (fun c => c)
                  val 0 g) as H0.
    pose proof (DictProofs.total_assign _ pair_eqb_spec (fun c => c)
                  val (0 + 1) (Dict.assign pair_eqb val 0 g)) as H1.
    rewrite E in H0.
    rewrite (DictProofs.lookup_assign_eq _ pair_eqb_spec) in H1. lia.
Qed.

Lemma NoDup_keys_bump val g :
  NoDup (Dict.keys g) -> NoDup (Dict.keys (bump val g)).
Proof.
  intros Hnd. unfold bump.
  destruct (Dict.lookup pair_eqb val g) as [c|] eqn:E.
  - rewrite E. apply (DictProofs.NoDup_keys_assign _ pair_eqb_spec), Hnd.
  - rewrite (DictProofs.lookup_assign_eq _ pair_eqb_spec).
    do 2 apply (DictProofs.NoDup_keys_assign _ pair_eqb_spec). exact Hnd.
Qed.

(** *** The loop body *)

Lemma lookup_touch k k' pos :
  Dict.lookup Nat.eqb k' (touch k pos) =
  if k' =? k then Some (getitem k pos) else Dict.lookup Nat.eqb k' pos.
Proof.
  unfold touch, getitem.
  destruct (Dict.lookup Nat.eqb k pos) as [g|] eqn:E.
  - destruct (Nat.eqb_spec k' k) as [->|Hne]; [exact E | reflexivity].
  - destruct (Nat.eqb_spec k' k) as [->|Hne].
    + apply (DictProofs.lookup_assign_eq _ Nat.eqb_spec).
    + apply (DictProofs.lookup_assign_ne _ Nat.eqb_spec); assumption.
Qed.

Lemma getitem_touch k pos : getitem k (touch k pos) = getitem k pos.
Proof.
  unfold getitem at 1. rewrite lookup_touch, Nat.eqb_refl. reflexivity.
Qed.

Lemma lookup_step k pos i j :
  Dict.lookup Nat.eqb k (step pos i j) =
  if k =? i + j
  then Some (bump (Nat.min i j, Nat.max i j) (getitem (i + j) pos))
  else Dict.lookup Nat.eqb k pos.
Proof.
  unfold step. rewrite getitem_touch.
  destruct (Nat.eqb_spec k (i + j)) as [->|Hne].
  - apply (DictProofs.lookup_assign_eq _ Nat.eqb_spec).
  - rewrite (DictProofs.lookup_assign_ne _ Nat.eqb_spec) by assumption.
    rewrite lookup_touch. destruct (Nat.eqb_spec k (i + j)); [lia|reflexivity].
Qed.

(** A key that is new to [pos] goes to the end; nothing else moves. *)
Lemma keys_step pos i j :
  Dict.keys (step pos i j) =
  match Dict.lookup Nat.eqb (i + j) pos with
  | Some _ => Dict.keys pos
  | None => Dict.keys pos ++ [i + j]
  end.
Proof.
  unfold step. rewrite (DictProofs.keys_assign _ Nat.eqb_spec).
  rewrite lookup_touch, Nat.eqb_refl. unfold touch.
  destruct (Dict.lookup Nat.eqb (i + j) pos) as [g|] eqn:E; [reflexivity|].
  rewrite (DictProofs.keys_assign _ Nat.eqb_spec), E. reflexivity.
Qed.

Lemma total_step pos i j :
  Dict.total weight (step pos i j) = Dict.total weight pos + 1.
Proof.
  unfold step. rewrite getitem_touch.
  pose proof (DictProofs.total_assign _ Nat.eqb_spec weight (i + j)
    (bump (Nat.min i j, Nat.max i j) (getitem (i + j) pos))
    (touch (i + j) pos)) as H.
  rewrite lookup_touch, Nat.eqb_refl, weight_bump in H.
  assert (Ht : Dict.total weight (touch (i + j) pos) = Dict.total weight pos).
  { unfold touch. destruct (Dict.lookup Nat.eqb (i + j) pos) eqn:E;
      [reflexivity|].
    pose proof (DictProofs.total_assign _ Nat.eqb_spec weight (i + j) []
                  pos) as H0.
    rewrite E in H0. change (weight []) with 0 in H0.
    rewrite !Nat.add_0_r in H0. exact H0. }
  lia.
Qed.

Lemma weight_getitem_step k pos i j :
  weight (getitem k (step pos i j)) =
  weight (getitem k pos) + (if k =? i + j then 1 else 0).
Proof.
  unfold getitem at 1. rewrite lookup_step.
  destruct (Nat.eqb_spec k (i + j)) as [->|Hne].
  - apply weight_bump.
  - fold (getitem k pos). lia.
Qed.

Lemma mult_step pos i j k v :
  mult (step pos i j) k v =
  if (k =? i + j) && pair_eqb v (Nat.min i j, Nat.max i j)
  then Some (match mult pos k v with Some c => c + 1 | None => 1 end)
  else mult pos k v.
Proof.
  unfold mult. rewrite lookup_step.
  destruct (Nat.eqb_spec k (i + j)) as [->|Hne]; cbn [andb]; [|reflexivity].
  rewrite lookup_bump. unfold getitem.
  destruct (pair_eqb_spec v (Nat.min i j, Nat.max i j)) as [->|Hv];
    destruct (Dict.lookup Nat.eqb (i + j) pos); reflexivity.
Qed.

(** *** The loop nest *)

Lemma run_app ps qs pos : run (ps ++ qs) pos = run qs (run ps pos).
Proof. apply fold_left_app. Qed.

Lemma run_row j (l : list nat) : forall pos,
  run (map (fun i => (j, i)) l) pos = fold_left (fun pos i => step pos i j) l pos.
Proof. induction l as [|i l IH]; intros pos; [reflexivity | apply IH]. Qed.

Lemma run_list_prod (l' l : list nat) : forall pos,
  fold_left (fun pos j => fold_left (fun pos i => step pos i j) l' pos) l pos =
  run (list_prod l l') pos.
Proof.
  induction l as [|j l IH]; intros pos; [reflexivity|].
  cbn [fold_left list_prod]. rewrite run_app, run_row. apply IH.
Qed.

Lemma fill_run N : fill N = run (iterations N) [].
Proof. apply run_list_prod. Qed.

(** After any prefix [ps] of the iterations, [pos[k][v]] is present
    exactly when some pair of [ps] was filed there, and counts them. *)
Lemma mult_run ps : forall k v,
  mult (run ps []) k v =
  match length (hits k v ps) with
  | 0 => None
  | S c => Some (S c)
  end.
Proof.
  induction ps as [|p ps IH] using rev_ind; intros k v; [reflexivity|].
  rewrite run_app. cbn [run fold_left]. fold (run ps []).
  rewrite mult_step, IH. unfold hits. rewrite filter_app, length_app.
  cbn [filter].
  destruct ((k =? snd p + fst p) &&
            pair_eqb v (Nat.min (snd p) (fst p), Nat.max (snd p) (fst p))).
  - cbn [length]. destruct (length (filter _ ps)) as [|c].
    + reflexivity.
    + rewrite Nat.add_1_r. reflexivity.
  - cbn [length]. rewrite Nat.add_0_r. reflexivity.
Qed.

Lemma weight_run ps : forall k,
  weight (getitem k (run ps [])) =
  length (filter (fun p => k =? snd p + fst p) ps).
Proof.
  induction ps as [|p ps IH] using rev_ind; intros k; [reflexivity|].
  rewrite run_app. cbn [run fold_left]. fold (run ps []).
  rewrite weight_getitem_step, IH, filter_app, length_app. cbn [filter].
  destruct (k =? snd p + fst p); reflexivity.
Qed.

Lemma total_run ps : Dict.total weight (run ps []) = length ps.
Proof.
  induction ps as [|p ps IH] using rev_ind; [reflexivity|].
  rewrite run_app. cbn [run fold_left]. fold (run ps []).
  rewrite total_step, IH, length_app. reflexivity.
Qed.

Lemma NoDup_keys_run ps : forall k g,
  Dict.lookup Nat.eqb k (run ps []) = Some g -> NoDup (Dict.keys g).
Proof.
  induction ps as [|p ps IH] using rev_ind; intros k g; [discriminate|].
  rewrite run_app. cbn [run fold_left]. fold (run ps []).
  rewrite lookup_step. destruct (k =? snd p + fst p).
  - intros [= <-]. apply NoDup_keys_bump. unfold getitem.
    destruct (Dict.lookup Nat.eqb (snd p + fst p) (run ps [])) as [g'|] eqn:E.
    + exact (IH _ _ E).
    + constructor.
  - apply IH.
Qed.

(** *** Order of the groups

    The first access to [pos[i+j]] decides where group [i + j] sits in
    the result.  Row [j] of the loop nest touches the keys
    [j, j+1, ..., j+N-1] in this order, so keys appear in increasing
    order without gaps. *)

Lemma keys_step_seq pos i j m :
  Dict.keys pos = seq 0 m -> i + j <= m ->
  Dict.keys (step pos i j) = seq 0 (Nat.max m (S (i + j))).
Proof.
  intros Hk Hle. rewrite keys_step.
  destruct (Nat.eq_dec (i + j) m) as [Heq|Hne].
  - rewrite (DictProofs.lookup_notin _ Nat.eqb_spec).
    + rewrite Hk, Heq, Nat.max_r by lia. rewrite seq_S. reflexivity.
    + rewrite Hk, in_seq. lia.
  - destruct (DictProofs.nth_values_seq pos 0 m (i + j) Hk) as (g & _ & Hg);
      [lia|].
    cbn [Nat.add] in Hg. rewrite Hg, Hk, Nat.max_l by lia. reflexivity.
Qed.

Lemma keys_row j (n : nat) : forall pos m,
  Dict.keys pos = seq 0 m -> j <= m ->
  Dict.keys (fold_left (fun pos i => step pos i j) (seq 0 n) pos) =
  seq 0 (Nat.max m (j + n)).
Proof.
  induction n as [|n IH]; intros pos m Hk Hle.
  - cbn [seq fold_left]. rewrite Nat.max_l by lia. exact Hk.
  - rewrite seq_S, fold_left_app. cbn [fold_left Nat.add].
    rewrite (keys_step_seq _ _ _ (Nat.max m (j + n))).
    + f_equal. lia.
    + apply IH; assumption.
    + lia.
Qed.

Lemma keys_rows N (J : nat) :
  1 <= N ->
  Dict.keys
    (fold_left
       (fun pos j => fold_left (fun pos i => step pos i j) (seq 0 N) pos)
       (seq 0 J) []) =
  seq 0 (match J with 0 => 0 | S J' => J' + N end).
Proof.
  intros HN. induction J as [|J IH]; [reflexivity|].
  rewrite seq_S, fold_left_app. cbn [fold_left Nat.add].
  rewrite (keys_row _ _ _ _ IH).
  - f_equal. destruct J; lia.
  - destruct J; lia.
Qed.

Lemma keys_fill N : 1 <= N -> Dict.keys (fill N) = seq 0 (2 * N - 1).
Proof.
  intros HN. unfold fill. rewrite keys_rows by assumption.
  f_equal. destruct N; lia.
Qed.

(** *** Counting the iterations filed under one key *)

Lemma NoDup_list_prod {A B : Type} (l : list A) (l' : list B) :
  NoDup l -> NoDup l' -> NoDup (list_prod l l').
Proof.
  intros Hl Hl'. induction Hl as [|x l Hx Hl IH]; cbn [list_prod].
  - constructor.
  - apply NoDup_app.
    + apply NoDup_map_NoDup_ForallPairs; [|assumption].
      intros a b _ _ [= ->]. reflexivity.
    + exact IH.
    + intros [a b] Hin Hin'. apply in_map_iff in Hin as (y & [= <- <-] & _).
      apply in_prod_iff in Hin' as [Hin' _]. contradiction.
Qed.

Lemma NoDup_iterations N : NoDup (iterations N).
Proof. apply NoDup_list_prod; apply seq_NoDup. Qed.

Lemma in_hits N k a b j i :
  In (j, i) (hits k (a, b) (iterations N)) <->
  j < N /\ i < N /\ k = i + j /\ a = Nat.min i j /\ b = Nat.max i j.
Proof.
  unfold hits, iterations.
  rewrite filter_In, in_prod_iff, !in_seq, andb_true_iff, Nat.eqb_eq.
  cbn [fst snd].
  destruct (pair_eqb_spec (a, b) (Nat.min i j, Nat.max i j)) as [E|E].
  - injection E as -> ->. intuition lia.
  - split; [intros (_ & _ & H); discriminate|].
    intros (_ & _ & _ & -> & ->). contradiction.
Qed.

Lemma length_hits N k a b :
  length (hits k (a, b) (iterations N)) =
  match expected N k (a, b) with
  | Some c => c
  | None => 0
  end.
Proof.
  assert (Hnd : NoDup (hits k (a, b) (iterations N)))
    by apply NoDup_filter, NoDup_iterations.
  unfold expected.
  destruct (Nat.leb_spec a b) as [Hab|Hab];
    [destruct (Nat.ltb_spec b N) as [HbN|HbN];
       [destruct (Nat.eqb_spec (a + b) k) as [Hk|Hk]|]|]; cbn [andb].
  - destruct (Nat.eqb_spec a b) as [->|Hne].
    + rewrite (Permutation_length
                 (l' := [(b, b)])); [reflexivity|].
      apply NoDup_Permutation; [assumption | repeat constructor; tauto|].
      intros [j i]. rewrite in_hits. cbn [In].
      split; [intros H; left; f_equal; lia | intros [[= <- <-]|[]]; lia].
    + rewrite (Permutation_length
                 (l' := [(a, b); (b, a)])); [reflexivity|].
      apply NoDup_Permutation; [assumption| |].
      * constructor; [cbn [In]; intros [[= H1 H2]|[]]; lia|].
        repeat constructor; tauto.
      * intros [j i]. rewrite in_hits. cbn [In]. split.
        -- intros H. destruct (Nat.le_gt_cases i j).
           ++ right; left. f_equal; lia.
           ++ left. f_equal; lia.
        -- intros [[= <- <-]|[[= <- <-]|[]]]; lia.
  - destruct (hits k (a, b) (iterations N)) as [|[j i] t] eqn:E; [reflexivity|].
    assert (H : In (j, i) (hits k (a, b) (iterations N)))
      by (rewrite E; left; reflexivity).
    apply in_hits in H. lia.
  - destruct (hits k (a, b) (iterations N)) as [|[j i] t] eqn:E; [reflexivity|].
    assert (H : In (j, i) (hits k (a, b) (iterations N)))
      by (rewrite E; left; reflexivity).
    apply in_hits in H. lia.
  - destruct (hits k (a, b) (iterations N)) as [|[j i] t] eqn:E; [reflexivity|].
    assert (H : In (j, i) (hits k (a, b) (iterations N)))
      by (rewrite E; left; reflexivity).
    apply in_hits in H. lia.
Qed.

Lemma ordered_pairs_filter N k :
  ordered_pairs N k = filter (fun p => k =? snd p + fst p) (iterations N).
Proof.
  unfold ordered_pairs. apply filter_ext. intros [j i]. cbn [fst snd].
  destruct (Nat.eqb_spec (j + i) k), (Nat.eqb_spec k (i + j)); lia || reflexivity.
Qed.

Lemma length_get_block_mixes N :
  1 <= N -> length (get_block_mixes N) = 2 * N - 1.
Proof.
  intros HN. unfold get_block_mixes, Dict.values. rewrite length_map.
  rewrite <- (length_map fst). fold (Dict.keys (fill N)).
  rewrite keys_fill by assumption. apply length_seq.
Qed.

Lemma nth_get_block_mixes N k :
  1 <= N -> k < 2 * N - 1 ->
  exists g,
    nth_error (get_block_mixes N) k = Some g /\
    NoDup (Dict.keys g) /\
    (forall p, Dict.lookup pair_eqb p g = expected N k p) /\
    weight g = length (ordered_pairs N k).
Proof.
  intros HN Hk.
  destruct (DictProofs.nth_values_seq (fill N) 0 _ k (keys_fill N HN) Hk)
    as (g & Hnth & Hg).
  cbn [Nat.add] in Hg. exists g. split; [exact Hnth|].
  rewrite fill_run in Hg. split; [|split].
  - exact (NoDup_keys_run _ _ _ Hg).
  - intros [a b]. pose proof (mult_run (iterations N) k (a, b)) as Hm.
    unfold mult in Hm. rewrite Hg in Hm. rewrite Hm, length_hits.
    unfold expected.
    destruct ((a <=? b) && (b <? N) && (a + b =? k)); [|reflexivity].
    destruct (a =? b); reflexivity.
  - pose proof (weight_run (iterations N) k) as Hw.
    unfold getitem in Hw. rewrite Hg in Hw.
    rewrite Hw, ordered_pairs_filter. reflexivity.
Qed.

Lemma sum_get_block_mixes N :
  list_sum (map weight (get_block_mixes N)) = N * N.
Proof.
  unfold get_block_mixes, Dict.values. rewrite map_map.
  change (list_sum (map (fun x => weight (snd x)) (fill N)))
    with (Dict.total weight (fill N)).
  rewrite fill_run, total_run. unfold iterations.
  rewrite length_prod, length_seq. reflexivity.
Qed.

(** Claim C1.  For every [N >= 1], [get_block_mixes N] is a list of exactly
    [2N - 1] groups.  Its [k]-th element is a dictionary (no key twice)
    that maps a pair [(a, b)] to a multiplicity exactly when
    [a <= b < N] and [a + b = k], to 1 on the diagonal [a = b] and to 2
    off it.  The multiplicities of group [k] sum to the number of ordered
    pairs [(i, j)] of [0..N-1] with [i + j = k], and those of all groups
    together to [N * N]. *)
Theorem get_block_mixes_spec (N : nat) :
  1 <= N ->
  length (get_block_mixes N) = 2 * N - 1 /\
  (forall k, k < 2 * N - 1 ->
     exists g,
       nth_error (get_block_mixes N) k = Some g /\
       NoDup (Dict.keys g) /\
       (forall p, Dict.lookup pair_eqb p g = expected N k p) /\
       weight g = length (ordered_pairs N k)) /\
  list_sum (map weight (get_block_mixes N)) = N * N.
Proof.
  intros HN. split; [|split].
  - apply length_get_block_mixes, HN.
  - intros k Hk. apply nth_get_block_mixes; assumption.
  - apply sum_get_block_mixes.
Qed.

Lemma get_block_mixes_spec_witness :
  1 <= 3 /\
  length (get_block_mixes 3) = 2 * 3 - 1 /\
  (forall k, k < 2 * 3 - 1 ->
     exists g,
       nth_error (get_block_mixes 3) k = Some g /\
       NoDup (Dict.keys g) /\
       (forall p, Dict.lookup pair_eqb p g = expected 3 k p) /\
       weight g = length (ordered_pairs 3 k)) /\
  list_sum (map weight (get_block_mixes 3)) = 3 * 3.
Proof. split; [lia | apply (get_block_mixes_spec 3); lia]. Defined.

End PlannerProofs.

(** ** Segmentation: block count and the streaming filter *)

Module SegmenterProofs.
Import Planner Segmenter.
Open Scope nat_scope.

Example n_blocks_10_4 : n_blocks 10 4 = 4.
Proof. reflexivity. Qed.

Example read_blocks_5_2 :
  read_blocks (n_blocks 5 2) 2 [[1]; [2]; [3]; [4]; [5]]%Z =
  [[[1]; [2]]; [[3]; [4]]; [[5]]; []]%Z.
Proof. reflexivity. Qed.

(** *** Reading the blocks *)

Lemma length_read_blocks n B : forall f, length (read_blocks n B f) = n.
Proof.
  induction n as [|n IH]; intros f; [reflexivity|].
  cbn [read_blocks readframes length]. rewrite IH. reflexivity.
Qed.

Lemma concat_read_blocks n B : forall f,
  length f <= n * B -> concat (read_blocks n B f) = f.
Proof.
  induction n as [|n IH]; intros f Hlen.
  - destruct f; [reflexivity | cbn in Hlen; lia].
  - cbn [read_blocks readframes concat]. rewrite IH.
    + apply firstn_skipn.
    + rewrite length_skipn. lia.
Qed.

Lemma nth_read_blocks n B : forall f k,
  k < n ->
  nth_error (read_blocks n B f) k = Some (firstn B (skipn (k * B) f)).
Proof.
  induction n as [|n IH]; intros f k Hk; [lia|].
  cbn [read_blocks readframes]. destruct k as [|k].
  - reflexivity.
  - cbn [nth_error]. rewrite IH by lia. rewrite skipn_skipn.
    do 3 f_equal. lia.
Qed.

Lemma n_blocks_covers total B :
  1 <= B -> total < (n_blocks total B - 1) * B.
Proof.
  intros HB. unfold n_blocks.
  pose proof (Nat.div_mod_eq total B) as Hdm.
  pose proof (Nat.mod_upper_bound total B) as Hm. nia.
Qed.

(** *** One delay line across blocks *)

Section Filter.
Variable T : Type.
Variables (add sub mul : T -> T -> T).
Variable to_float : Z -> T.

Local Abbreviation lfilter := (lfilter T add sub mul).
Local Abbreviation filter_block := (filter_block T add sub mul to_float).
Local Abbreviation filter_blocks := (filter_blocks T add sub mul to_float).

Lemma lfilter_app co (x x' : list T) : forall zi,
  lfilter co (x ++ x') zi =
  (fst (lfilter co x zi) ++ fst (lfilter co x' (snd (lfilter co x zi))),
   snd (lfilter co x' (snd (lfilter co x zi)))).
Proof.
  induction x as [|x0 x IH]; intros zi.
  - cbn [app lfilter fst snd]. destruct (lfilter co x' zi). reflexivity.
  - cbn [app Segmenter.lfilter].
    destruct (lfilter_step T add sub mul co zi x0) as [y0 z1].
    rewrite IH. destruct (lfilter co x z1) as [y z2]. reflexivity.
Qed.

Lemma nth_map_seq {A : Type} (g : nat -> A) n c d :
  c < n -> nth c (map g (seq 0 n)) d = g c.
Proof.
  intros Hc. rewrite (nth_indep _ d (g 0)) by (rewrite length_map, length_seq; lia).
  rewrite map_nth, seq_nth by lia. reflexivity.
Qed.

Lemma length_filter_blocks co nch zdef blocks : forall zi20,
  length (filter_blocks co nch zdef zi20 blocks) = length blocks.
Proof.
  induction blocks as [|inbuf rest IH]; intros zi20; [reflexivity|].
  cbn [Segmenter.filter_blocks Segmenter.filter_block length].
  rewrite IH. reflexivity.
Qed.

Lemma filter_blocks_concat co nch zdef c (Hc : c < nch) blocks : forall zi20,
  concat (map (fun smps => nth c smps []) (filter_blocks co nch zdef zi20 blocks)) =
  fst (lfilter co (map to_float (channel c (concat blocks))) (nth c zi20 zdef)).
Proof.
  induction blocks as [|inbuf rest IH]; intros zi20; [reflexivity|].
  cbn [Segmenter.filter_blocks Segmenter.filter_block map concat].
  rewrite IH, !map_map, !nth_map_seq by assumption.
  unfold channel. rewrite !map_app, lfilter_app. reflexivity.
Qed.

(** Claim C7.  For every channel [c], filtering the blocks in index order
    while each block starts from the delay line the previous one left
    in [zi20[c]] gives, block outputs concatenated, exactly the output
    of one [lfilter] call on the concatenation of the channel's blocks
    from the initial [zi20[c]]. *)
Theorem streaming_filter_refines
  (co : coeffs T) (nchannels : nat) (zdef : state T)
  (blocks : list (list frame)) (zi20 : list (state T)) (c : nat) :
  c < nchannels ->
  concat (map (fun smps => nth c smps [])
              (filter_blocks co nchannels zdef zi20 blocks)) =
  fst (lfilter co (map to_float (channel c (concat blocks)))
               (nth c zi20 zdef)).
Proof. intros Hc. apply filter_blocks_concat, Hc. Qed.

End Filter.

Lemma streaming_filter_refines_witness :
  1 < 2 /\
  concat (map (fun smps => nth 1 smps [])
            (filter_blocks Z Z.add Z.sub Z.mul (fun x => x)
               (Coeffs Z 1 2 3 4 5 6 7)%Z 2 (0, 0, 0)%Z
               [(1, 1, 1); (2, 2, 2)]%Z
               [[[1; 2]; [3; 4]]; [[5; 6]]; []]%Z)) =
  fst (lfilter Z Z.add Z.sub Z.mul (Coeffs Z 1 2 3 4 5 6 7)%Z
         (map (fun x => x)
              (channel 1 (concat [[[1; 2]; [3; 4]]; [[5; 6]]; []]%Z)))
         (nth 1 [(1, 1, 1); (2, 2, 2)]%Z (0, 0, 0)%Z)).
Proof.
  split; [lia|].
  apply (streaming_filter_refines Z Z.add Z.sub Z.mul (fun x => x)). lia.
Defined.

(** *** The number of blocks *)

Lemma mixed_blocks n b :
  1 <= n ->
  (b < n <->
   exists k g b' m,
     nth_error (get_block_mixes n) k = Some g /\
     (Dict.lookup pair_eqb (b, b') g = Some m \/
      Dict.lookup pair_eqb (b', b) g = Some m)).
Proof.
  intros Hn. split.
  - intros Hb.
    destruct (PlannerProofs.nth_get_block_mixes n (b + b) Hn)
      as (g & Hnth & _ & Hg & _); [lia|].
    exists (b + b), g, b, 1. split; [exact Hnth|]. left.
    rewrite Hg. unfold expected.
    rewrite Nat.leb_refl, Nat.eqb_refl, Nat.eqb_refl.
    destruct (Nat.ltb_spec b n); [reflexivity | lia].
  - intros (k & g & b' & m & Hnth & Hl).
    assert (Hk : k < 2 * n - 1).
    { rewrite <- (PlannerProofs.length_get_block_mixes n Hn).
      apply nth_error_Some. congruence. }
    destruct (PlannerProofs.nth_get_block_mixes n k Hn Hk)
      as (g' & Hnth' & _ & Hg & _).
    assert (g' = g) by congruence. subst g'.
    rewrite !Hg in Hl. unfold expected in Hl.
    destruct Hl as [Hl|Hl].
    + destruct (Nat.leb_spec b b'), (Nat.ltb_spec b' n);
        cbn [andb] in Hl; try discriminate; lia.
    + destruct (Nat.leb_spec b' b), (Nat.ltb_spec b n);
        cbn [andb] in Hl; try discriminate; lia.
Qed.

(** Claim C6.  For every input of [total_samples] frames and every
    [input_block_size >= 1], [n_blocks] is
    [total_samples / input_block_size + 2]; that many blocks are read
    (together the whole input, the last one empty, to be padded with
    zeros) and filtered, and the block indices that occur in the mix plan
    are exactly those below [n_blocks]. *)
Theorem n_blocks_exact (input_block_size : nat) (f : list frame) :
  1 <= input_block_size ->
  let n := n_blocks (length f) input_block_size in
  n = length f / input_block_size + 2 /\
  length (read_blocks n input_block_size f) = n /\
  concat (read_blocks n input_block_size f) = f /\
  nth_error (read_blocks n input_block_size f) (n - 1) = Some [] /\
  (forall T add sub mul to_float co nchannels zdef zi20,
     length (filter_blocks T add sub mul to_float co nchannels zdef zi20
               (read_blocks n input_block_size f)) = n) /\
  (forall b,
     b < n <->
     exists k g b' m,
       nth_error (get_block_mixes n) k = Some g /\
       (Dict.lookup pair_eqb (b, b') g = Some m \/
        Dict.lookup pair_eqb (b', b) g = Some m)).
Proof.
  intros HB n. pose proof (n_blocks_covers (length f) _ HB) as Hcov.
  fold n in Hcov.
  assert (Hn : n = length f / input_block_size + 2) by (unfold n, n_blocks; lia).
  split; [exact Hn|]. split; [apply length_read_blocks|].
  split; [apply concat_read_blocks; nia|]. split; [|split].
  - rewrite nth_read_blocks by lia.
    rewrite skipn_all2 by lia. destruct input_block_size; reflexivity.
  - intros. rewrite length_filter_blocks. apply length_read_blocks.
  - intros b. apply mixed_blocks. lia.
Qed.

Lemma n_blocks_exact_witness :
  1 <= 2 /\
  let f := [[1]; [2]; [3]; [4]; [5]]%Z in
  let n := n_blocks (length f) 2 in
  n = length f / 2 + 2 /\
  length (read_blocks n 2 f) = n /\
  concat (read_blocks n 2 f) = f /\
  nth_error (read_blocks n 2 f) (n - 1) = Some [] /\
  (forall T add sub mul to_float co nchannels zdef zi20,
     length (filter_blocks T add sub mul to_float co nchannels zdef zi20
               (read_blocks n 2 f)) = n) /\
  (forall b,
     b < n <->
     exists k g b' m,
       nth_error (get_block_mixes n) k = Some g /\
       (Dict.lookup pair_eqb (b, b') g = Some m \/
        Dict.lookup pair_eqb (b', b) g = Some m)).
Proof.
  split; [lia|]. apply (n_blocks_exact 2 [[1]; [2]; [3]; [4]; [5]]%Z). lia.
Defined.

End SegmenterProofs.

(** ** The adjacency limit in the mixer *)

Module MixerProofs.
Import Planner Mixer.
Open Scope nat_scope.

Example skipped_far : skipped 1 0 2 = true.
Proof. reflexivity. Qed.

Example skipped_unlimited : skipped 0 0 2 = false.
Proof. reflexivity. Qed.

(** With integer "spectra" of length 2: only the pair [(1,1)] of group 2
    is accumulated under limit 1. *)
Example sum_freqs_limit_1 :
  sum_freqs Z 0%Z Z.add Z.mul (fun z m => (z * Z.of_nat m)%Z)
    (fun b _ => [Z.of_nat b + 1; 10]%Z) 1 2 0
    [((0, 2), 2); ((1, 1), 1)] = [4; 100]%Z.
Proof. reflexivity. Qed.

Section Facts.
Variable C : Type.
Variable czero : C.
Variables (cadd cmul : C -> C -> C).
Variable cmul_int : C -> nat -> C.

Local Abbreviation mix_step := (mix_step C cadd cmul cmul_int).
Local Abbreviation sum_freqs := (sum_freqs C czero cadd cmul cmul_int).

Lemma skipped_unlimited_false b1 b2 : skipped 0 b1 b2 = false.
Proof. reflexivity. Qed.

Lemma mix_step_skip load L ch acc b1 b2 m :
  skipped L b1 b2 = true -> mix_step load L ch acc ((b1, b2), m) = acc.
Proof. intros E. unfold Mixer.mix_step. rewrite E. reflexivity. Qed.

Lemma mix_step_keep load L ch acc b1 b2 m :
  skipped L b1 b2 = false ->
  mix_step load L ch acc ((b1, b2), m) =
  mix_step load 0%Z ch acc ((b1, b2), m).
Proof. intros E. unfold Mixer.mix_step. rewrite E. reflexivity. Qed.

Lemma fold_kept load L ch (block_mix : group) : forall acc,
  fold_left (mix_step load L ch) block_mix acc =
  fold_left (mix_step load 0%Z ch) (kept L block_mix) acc.
Proof.
  induction block_mix as [|[[b1 b2] m] t IH]; intros acc; [reflexivity|].
  cbn [fold_left kept filter fst snd]. fold (kept L t).
  destruct (skipped L b1 b2) eqn:E; cbn [negb].
  - rewrite (mix_step_skip _ _ _ _ _ _ _ E). apply IH.
  - cbn [fold_left]. rewrite <- (mix_step_keep _ _ _ _ _ _ _ E). apply IH.
Qed.

Lemma fold_all_skipped load L ch (block_mix : group) : forall acc,
  (forall b1 b2 m, In ((b1, b2), m) block_mix -> skipped L b1 b2 = true) ->
  fold_left (mix_step load L ch) block_mix acc = acc.
Proof.
  induction block_mix as [|[[b1 b2] m] t IH]; intros acc Hall; [reflexivity|].
  cbn [fold_left].
  rewrite (mix_step_skip _ _ _ _ _ _ _ (Hall b1 b2 m (or_introl eq_refl))).
  apply IH. intros b1' b2' m' Hin. apply (Hall b1' b2' m'). right. exact Hin.
Qed.

(** The result only reads the spectra of the blocks of pairs that are
    not skipped. *)
Lemma fold_load_ext load load' L ch (block_mix : group) : forall acc,
  (forall b1 b2 m, In ((b1, b2), m) block_mix -> skipped L b1 b2 = false ->
     load b1 ch = load' b1 ch /\ load b2 ch = load' b2 ch) ->
  fold_left (mix_step load L ch) block_mix acc =
  fold_left (mix_step load' L ch) block_mix acc.
Proof.
  induction block_mix as [|[[b1 b2] m] t IH]; intros acc Hext; [reflexivity|].
  cbn [fold_left].
  assert (Hstep : mix_step load L ch acc ((b1, b2), m) =
                  mix_step load' L ch acc ((b1, b2), m)).
  { unfold Mixer.mix_step. destruct (skipped L b1 b2) eqn:E; [reflexivity|].
    destruct (Hext b1 b2 m (or_introl eq_refl) E) as [-> ->]. reflexivity. }
  etransitivity; [apply IH | exact (f_equal _ Hstep)].
  intros b1' b2' m' Hin. apply (Hext b1' b2' m'). right. exact Hin.
Qed.

Lemma skipped_iff L b1 b2 :
  (0 < L)%Z ->
  skipped L b1 b2 = true <-> (L < Z.abs (Z.of_nat b1 - Z.of_nat b2))%Z.
Proof.
  intros HL. unfold skipped. rewrite andb_true_iff, !Z.ltb_lt. tauto.
Qed.

Lemma in_kept L item (block_mix : group) :
  (0 < L)%Z ->
  In item (kept L block_mix) <->
  In item block_mix /\
  (Z.abs (Z.of_nat (fst (fst item)) - Z.of_nat (snd (fst item))) <= L)%Z.
Proof.
  intros HL. unfold kept. rewrite filter_In, negb_true_iff.
  rewrite <- not_true_iff_false, (skipped_iff _ _ _ HL).
  rewrite Z.nlt_ge. reflexivity.
Qed.

(** The planner has no limit: every pair [a <= b < N] is in group
    [a + b], however far apart [a] and [b] are. *)
Lemma plan_contains N k g a b :
  nth_error (get_block_mixes N) k = Some g ->
  a <= b < N -> a + b = k ->
  Dict.lookup pair_eqb (a, b) g = Some (if a =? b then 1 else 2).
Proof.
  intros Hnth Hab Hk. assert (HN : 1 <= N) by lia.
  assert (Hlt : k < 2 * N - 1).
  { rewrite <- (PlannerProofs.length_get_block_mixes N HN).
    apply nth_error_Some. congruence. }
  destruct (PlannerProofs.nth_get_block_mixes N k HN Hlt)
    as (g' & Hnth' & _ & Hg & _).
  assert (g' = g) by congruence. subst g'. rewrite Hg. unfold expected.
  destruct (Nat.leb_spec a b); [|lia].
  destruct (Nat.ltb_spec b N); [|lia].
  destruct (Nat.eqb_spec (a + b) k); [reflexivity|lia].
Qed.

(** Claim C3.  With a limit [L > 0], the spectrum accumulated for a group
    and a channel is the one accumulated, without any limit, over the
    items of the group whose blocks are at most [L] apart; it is the same
    for any two stores that agree on the blocks of those items; and it is
    all zero when every pair of the group is more than [L] apart.  The
    groups of the planner contain the distant pairs all the same. *)
Theorem adjacency_limit_skips
  (load : nat -> nat -> list C) (L : Z)
  (output_block_size_samples nchannel : nat) (block_mix : group) :
  (0 < L)%Z ->
  sum_freqs load L output_block_size_samples nchannel block_mix =
  sum_freqs load 0%Z output_block_size_samples nchannel (kept L block_mix) /\
  (forall item,
     In item (kept L block_mix) <->
     In item block_mix /\
     (Z.abs (Z.of_nat (fst (fst item)) - Z.of_nat (snd (fst item))) <= L)%Z) /\
  (forall load',
     (forall b1 b2 m, In ((b1, b2), m) block_mix ->
        (Z.abs (Z.of_nat b1 - Z.of_nat b2) <= L)%Z ->
        load b1 nchannel = load' b1 nchannel /\
        load b2 nchannel = load' b2 nchannel) ->
     sum_freqs load L output_block_size_samples nchannel block_mix =
     sum_freqs load' L output_block_size_samples nchannel block_mix) /\
  ((forall b1 b2 m, In ((b1, b2), m) block_mix ->
      (L < Z.abs (Z.of_nat b1 - Z.of_nat b2))%Z) ->
   sum_freqs load L output_block_size_samples nchannel block_mix =
   repeat czero (output_block_size_samples / 2 + 1)) /\
  (forall N k g a b,
     nth_error (get_block_mixes N) k = Some g ->
     a <= b < N -> a + b = k ->
     Dict.lookup pair_eqb (a, b) g = Some (if a =? b then 1 else 2)).
Proof.
  intros HL. split; [|split; [|split; [|split]]].
  - apply fold_kept.
  - intros item. apply in_kept, HL.
  - intros load' Hext. apply fold_load_ext. intros b1 b2 m Hin Hs.
    apply (Hext b1 b2 m Hin).
    apply not_true_iff_false in Hs. rewrite (skipped_iff _ _ _ HL) in Hs.
    apply Z.nlt_ge, Hs.
  - intros Hfar. apply fold_all_skipped. intros b1 b2 m Hin.
    apply (skipped_iff _ _ _ HL), (Hfar b1 b2 m Hin).
  - apply plan_contains.
Qed.

End Facts.

Lemma adjacency_limit_skips_witness :
  (0 < 1)%Z /\
  sum_freqs Z 0%Z Z.add Z.mul (fun z m => (z * Z.of_nat m)%Z)
    (fun b _ => [Z.of_nat b + 1; 10]%Z) 1 2 0 [((0, 2), 2); ((1, 1), 1)] =
  sum_freqs Z 0%Z Z.add Z.mul (fun z m => (z * Z.of_nat m)%Z)
    (fun b _ => [Z.of_nat b + 1; 10]%Z) 0 2 0
    (kept 1 [((0, 2), 2); ((1, 1), 1)]).
Proof.
  split; [reflexivity|].
  exact (proj1 (adjacency_limit_skips Z 0%Z Z.add Z.mul
                  (fun z m => (z * Z.of_nat m)%Z)
                  (fun b _ => [Z.of_nat b + 1; 10]%Z) 1 2 0
                  [((0, 2), 2); ((1, 1), 1)] eq_refl)).
Defined.

End MixerProofs.

(** ** Truncation towards zero *)

Module NumericProofs.
Import Numeric.
Open Scope Q_scope.

Lemma Qtrunc_nonneg x : 0 <= x -> Qtrunc x = Qfloor x.
Proof.
  destruct x as [n d]. unfold Qle, Qtrunc, Qfloor. cbn [Qnum Qden].
  intros H. apply Z.quot_div_nonneg; lia.
Qed.

Lemma Qtrunc_opp x : Qtrunc (- x) = (- Qtrunc x)%Z.
Proof.
  destruct x as [n d]. unfold Qtrunc, Qopp. cbn [Qnum Qden].
  apply Z.quot_opp_l. discriminate.
Qed.

Lemma Qtrunc_nonpos x : x <= 0 -> Qtrunc x = (- Qfloor (- x))%Z.
Proof.
  intros H. rewrite <- (Qtrunc_nonneg (- x)) by lra.
  rewrite Qtrunc_opp. lia.
Qed.

Lemma Qfloor_eq (k : Z) x : inject_Z k <= x -> x < inject_Z (k + 1) -> Qfloor x = k.
Proof.
  intros Hlo Hhi.
  pose proof (Qfloor_resp_le _ _ Hlo) as H1. rewrite Qfloor_Z in H1.
  pose proof (Qfloor_le x) as H2.
  assert (H3 : inject_Z (Qfloor x) < inject_Z (k + 1)) by lra.
  rewrite <- Zlt_Qlt in H3. lia.
Qed.


Lemma Qtrunc_comp x y : x == y -> Qtrunc x = Qtrunc y.
Proof.
  intros E. destruct (Qlt_le_dec x 0) as [Hneg|Hpos].
  - rewrite !Qtrunc_nonpos by lra. f_equal. apply Qfloor_comp. lra.
  - rewrite !Qtrunc_nonneg by lra. apply Qfloor_comp. exact E.
Qed.

End NumericProofs.

(** ** Single-precision rounding: what it never crosses *)

Module Float32Proofs.
Import Float32.
Open Scope Q_scope.

Example round_1e9 :
  round_f32 (1 # 1000000000) == 9007199 # 9007199254740992.
Proof. vm_compute. reflexivity. Qed.

Example round_double_1e9 :
  round_f32 (4835703278458517 # 4835703278458516698824704)
  == 9007199 # 9007199254740992.
Proof. vm_compute. reflexivity. Qed.

Example round_tie_even : round_f32 (16777217 # 1) == 16777216 # 1.
Proof. vm_compute. reflexivity. Qed.

Example round_tie_odd : round_f32 (16777219 # 1) == 16777220 # 1.
Proof. vm_compute. reflexivity. Qed.

Example round_third : round_f32 (1 # 3) == 11184811 # 33554432.
Proof. vm_compute. reflexivity. Qed.

Example round_subnormal :
  round_f32 (1 # 1000000000000000000000000000000000000000000000)
  == 1 # 713623846352979940529142984724747568191373312.
Proof. vm_compute. reflexivity. Qed.

Example absorbed : fadd32 (1 # 32) (round_f32 (1 # 1000000000)) == 1 # 32.
Proof. vm_compute. reflexivity. Qed.


(** *** Powers of two *)

Lemma pow2_pos e : 0 < 2 ^ e.
Proof. apply Qpower_0_lt. reflexivity. Qed.

Lemma pow2_plus a b : 2 ^ (a + b) == 2 ^ a * 2 ^ b.
Proof. apply Qpower_plus. discriminate. Qed.

Lemma pow2_lt_inv a b : 2 ^ a < 2 ^ b -> (a < b)%Z.
Proof. intros H. apply (Qpower_lt_compat_l_inv 2); [exact H | reflexivity]. Qed.

Lemma pow2_le a b : (a <= b)%Z -> 2 ^ a <= 2 ^ b.
Proof. intros H. apply Qpower_le_compat_l; [exact H | discriminate]. Qed.

Lemma pow2_Z a : (0 <= a)%Z -> inject_Z (2 ^ a) == 2 ^ a.
Proof. intros H. apply (Zpower_Qpower 2 a H). Qed.

(** *** The binary exponent *)

Lemma ilog2_spec x : 0 < x -> 2 ^ ilog2 x <= x /\ x < 2 ^ (ilog2 x + 1).
Proof.
  intros Hx. unfold ilog2.
  destruct x as [p q]. assert (Hp : (0 < p)%Z).
  { unfold Qlt in Hx. cbn in Hx. lia. }
  cbn [Qnum Qden].
  pose proof (Z.log2_spec p Hp) as [Ha1 Ha2].
  pose proof (Z.log2_spec (Zpos q) (Pos2Z.is_pos q)) as [Hb1 Hb2].
  pose proof (Z.log2_nonneg p) as Ha0.
  pose proof (Z.log2_nonneg (Zpos q)) as Hb0.
  set (a := Z.log2 p) in *. set (b := Z.log2 (Zpos q)) in *.
  assert (Qa1 : 2 ^ a <= inject_Z p)
    by (rewrite <- pow2_Z by lia; rewrite <- Zle_Qle; exact Ha1).
  assert (Qa2 : inject_Z p < 2 ^ (a + 1))
    by (rewrite <- pow2_Z by lia; rewrite <- Zlt_Qlt; exact Ha2).
  assert (Qb1 : 2 ^ b <= inject_Z (Zpos q))
    by (rewrite <- pow2_Z by lia; rewrite <- Zle_Qle; exact Hb1).
  assert (Qb2 : inject_Z (Zpos q) < 2 ^ (b + 1))
    by (rewrite <- pow2_Z by lia; rewrite <- Zlt_Qlt; exact Hb2).
  assert (Hq : 0 < inject_Z (Zpos q)) by reflexivity.
  assert (Ex : (p # q) * inject_Z (Zpos q) == inject_Z p).
  { rewrite (Qmake_Qdiv p q). field. discriminate. }
  pose proof (pow2_pos a) as Pa. pose proof (pow2_pos b) as Pb.
  pose proof (pow2_pos (a - b)) as Pab.
  assert (Eab : 2 ^ (a - b) * 2 ^ b == 2 ^ a).
  { rewrite <- pow2_plus. replace (a - b + b)%Z with a by lia. reflexivity. }
  assert (E1 : 2 ^ (a + 1) == 2 * 2 ^ a)
    by (rewrite pow2_plus; change (2 ^ 1) with 2; ring).
  assert (E2 : 2 ^ (b + 1) == 2 * 2 ^ b)
    by (rewrite pow2_plus; change (2 ^ 1) with 2; ring).
  assert (E3 : 2 ^ (a - b + 1) == 2 * 2 ^ (a - b))
    by (rewrite pow2_plus; change (2 ^ 1) with 2; ring).
  assert (E4 : 2 * 2 ^ (a - b - 1) == 2 ^ (a - b)).
  { replace (a - b)%Z with (a - b - 1 + 1)%Z at 2 by lia.
    rewrite pow2_plus. change (2 ^ 1) with 2. ring. }
  destruct (Qle_bool (2 ^ (a - b)) (p # q)) eqn:Hc.
  - apply Qle_bool_iff in Hc. split; [exact Hc|].
    rewrite E3. nra.
  - assert (Hlt : p # q < 2 ^ (a - b)).
    { apply Qnot_le_lt. intros H. apply Qle_bool_iff in H. congruence. }
    replace (a - b - 1 + 1)%Z with (a - b)%Z by lia.
    split; [|exact Hlt]. nra.
Qed.



Lemma ilog2_mono x y : 0 < x -> x <= y -> (ilog2 x <= ilog2 y)%Z.
Proof.
  intros Hx Hxy. destruct (ilog2_spec x Hx) as [S1 _].
  destruct (ilog2_spec y) as [_ T2]; [lra|].
  assert (A : (ilog2 x < ilog2 y + 1)%Z) by (apply pow2_lt_inv; lra).
  lia.
Qed.


Lemma ulp_pos x : 0 < ulp x.
Proof. apply pow2_pos. Qed.


(** *** Rounding to an integer *)


Lemma rne_floor y : (Qfloor y <= rne y <= Qfloor y + 1)%Z.
Proof.
  unfold rne. destruct (Qcompare _ _); [destruct (Z.even _)| |]; lia.
Qed.

Lemma rne_ge (k : Z) y : inject_Z k <= y -> (k <= rne y)%Z.
Proof.
  intros H. pose proof (Qfloor_resp_le _ _ H) as Hf.
  rewrite Qfloor_Z in Hf. pose proof (rne_floor y). lia.
Qed.

Lemma rne_Z (k : Z) : rne (inject_Z k) = k.
Proof.
  unfold rne. rewrite Qfloor_Z.
  assert (E : Qcompare (inject_Z k - inject_Z k) (1 # 2) = Lt).
  { apply Qlt_alt.
    assert (Hz : inject_Z k - inject_Z k == 0) by ring.
    rewrite Hz. reflexivity. }
  rewrite E. reflexivity.
Qed.

(** *** Rounding a positive number *)

Lemma div_ulp x u : 0 < u -> x / u * u == x.
Proof. intros Hu. field. lra. Qed.

Lemma round_pos_nonneg x : 0 <= x -> 0 <= round_pos x.
Proof.
  intros Hx. unfold round_pos. pose proof (ulp_pos x) as Hu.
  assert (H : (0 <= rne (x / ulp x))%Z).
  { apply (rne_ge 0). apply Qle_shift_div_l; [exact Hu|].
    change (inject_Z 0) with 0. lra. }
  apply Qmult_le_0_compat; [|lra].
  change 0 with (inject_Z 0). rewrite <- Zle_Qle. exact H.
Qed.

(** A normal number is not rounded below the power of two at or under
    it. *)
Lemma round_pos_ge_pow2 x :
  0 < x -> (-126 <= ilog2 x)%Z -> 2 ^ ilog2 x <= round_pos x.
Proof.
  intros Hx He. destruct (ilog2_spec x Hx) as [S1 _].
  unfold round_pos, ulp. rewrite Z.max_l by lia.
  set (e := ilog2 x) in *. pose proof (pow2_pos (e - 23)) as Hu.
  assert (E : 2 ^ e == inject_Z (2 ^ 23) * 2 ^ (e - 23)).
  { rewrite pow2_Z by lia. rewrite <- pow2_plus.
    replace (23 + (e - 23))%Z with e by lia. reflexivity. }
  rewrite E. apply Qmult_le_compat_r; [|lra].
  rewrite <- Zle_Qle. apply rne_ge. apply Qle_shift_div_l; [exact Hu|].
  rewrite <- E. exact S1.
Qed.

(** Rounding never crosses a single-precision number: what lies at or
    above one is rounded to at or above it. *)
Lemma round_pos_above g x :
  0 < g -> round_pos g == g -> g <= x -> g <= round_pos x.
Proof.
  intros Hg Rg Hgx. assert (Hx : 0 < x) by lra.
  pose proof (ilog2_mono g x Hg Hgx) as Hm.
  destruct (Z.eq_dec (Z.max (ilog2 g) (-126)) (Z.max (ilog2 x) (-126)))
    as [Ee|Ne].
  - assert (Eu : ulp g = ulp x) by (unfold ulp; rewrite Ee; reflexivity).
    pose proof (ulp_pos x) as Hu. unfold round_pos in *. rewrite Eu in Rg.
    rewrite <- Rg at 1. apply Qmult_le_compat_r; [|lra].
    rewrite <- Zle_Qle. apply rne_ge. apply Qle_shift_div_l; [exact Hu|].
    rewrite Rg. exact Hgx.
  - assert (He : (-126 <= ilog2 x)%Z) by lia.
    assert (Hlt : (ilog2 g + 1 <= ilog2 x)%Z) by lia.
    destruct (ilog2_spec g Hg) as [_ G2].
    pose proof (pow2_le _ _ Hlt). pose proof (round_pos_ge_pow2 x Hx He). lra.
Qed.

(** *** Rounding *)

Lemma round_f32_pos x : 0 < x -> round_f32 x = round_pos x.
Proof.
  intros H. unfold round_f32.
  destruct (Qcompare 0 x) eqn:C;
    [apply Qeq_alt in C; lra | reflexivity | apply Qgt_alt in C; lra].
Qed.

Lemma round_f32_zero x : x == 0 -> round_f32 x = 0.
Proof.
  intros H. unfold round_f32.
  destruct (Qcompare 0 x) eqn:C;
    [reflexivity | apply Qlt_alt in C; lra | apply Qgt_alt in C; lra].
Qed.

Lemma round_f32_nonneg x : 0 <= x -> 0 <= round_f32 x.
Proof.
  intros H. destruct (Qlt_le_dec 0 x) as [Hp|Hz].
  - rewrite round_f32_pos by exact Hp. apply round_pos_nonneg, H.
  - rewrite round_f32_zero by lra. lra.
Qed.



(** Rounding never crosses a single-precision number that is not
    negative. *)
Lemma round_f32_above g x :
  0 <= g -> round_f32 g == g -> g <= x -> g <= round_f32 x.
Proof.
  intros Hg Rg Hgx. destruct (Qlt_le_dec 0 g) as [Hp|Hz].
  - rewrite round_f32_pos in Rg by exact Hp.
    rewrite round_f32_pos by lra. apply round_pos_above; assumption.
  - assert (g == 0) by lra. pose proof (round_f32_nonneg x). lra.
Qed.

End Float32Proofs.

(** ** Envelope smoothing keeps the divisor positive *)

Module EnvelopeProofs.
Import Numeric Envelope.
Open Scope Q_scope.

Example maximum_filter1d_2 :
  maximum_filter1d [3; 1; 0; 5; 2] 2 = [3; 3; 1; 5; 5].
Proof. reflexivity. Qed.

Example maximum_filter1d_3 :
  maximum_filter1d [3; 1; 0; 5; 2] 3 = [3; 3; 5; 5; 5].
Proof. reflexivity. Qed.

(** The example of the scipy documentation. *)
Example maximum_filter1d_doc :
  maximum_filter1d [2; 8; 0; 4; 1; 9; 9; 0] 3 = [8; 8; 8; 4; 9; 9; 9; 9].
Proof. reflexivity. Qed.

Example filter_size_rounds : filter_size 441 100 = 9%nat.
Proof. reflexivity. Qed.

Example filter_size_floor_2 : filter_size 5 1000 = 2%nat.
Proof. reflexivity. Qed.

(** Single precision absorbs the [1e-9] on a bin of 1/32, and a zero
    bin becomes the single-precision number nearest to [1e-9]. *)
Example smooth_absorbs : Forall2 Qeq (smooth 2 1000 [1 # 32; 0]) [1 # 32; 1 # 32].
Proof. constructor; [|constructor; [|constructor]]; vm_compute; reflexivity. Qed.

Example smooth_zero_bins :
  Forall2 Qeq (smooth 2 1000 [0; 0])
          [9007199 # 9007199254740992; 9007199 # 9007199254740992].
Proof. constructor; [|constructor; [|constructor]]; vm_compute; reflexivity. Qed.

(** *** Non-negative arrays *)


Lemma length_zip_with {A B D : Type} (f : A -> B -> D) x : forall y,
  length (Arrays.zip_with f x y) = Nat.min (length x) (length y).
Proof.
  induction x as [|a x IH]; intros [|b y]; cbn [Arrays.zip_with length Nat.min];
    try reflexivity.
  rewrite IH. reflexivity.
Qed.



Section Accumulate.
Variable C : Type.
Variable cabs : C -> Q.



End Accumulate.



(** *** The sliding maximum *)

Lemma fold_max_ge (f : nat -> Q) l : forall init,
  init <= fold_left (fun m j => Qmax m (f j)) l init.
Proof.
  induction l as [|j l IH]; intros init; cbn [fold_left]; [lra|].
  eapply Qle_trans; [apply (Q.le_max_l init (f j)) | apply IH].
Qed.

Lemma fold_max_elem (f : nat -> Q) l : forall init j,
  In j l -> f j <= fold_left (fun m j => Qmax m (f j)) l init.
Proof.
  induction l as [|a l IH]; intros init j Hin; [destruct Hin|].
  destruct Hin as [->|Hj]; cbn [fold_left].
  - eapply Qle_trans; [apply (Q.le_max_r init (f j))|].
    apply fold_max_ge.
  - apply IH, Hj.
Qed.

Lemma Qmax_cases a b : Qmax a b = a \/ Qmax a b = b.
Proof.
  unfold Qmax, GenericMinMax.gmax. destruct (a ?= b); auto.
Qed.

Lemma fold_max_all (P : Q -> Prop) (f : nat -> Q) l : forall init,
  P init -> (forall j, In j l -> P (f j)) ->
  P (fold_left (fun m j => Qmax m (f j)) l init).
Proof.
  induction l as [|j l IH]; intros init Hi Hf; cbn [fold_left]; [exact Hi|].
  apply IH; [|intros j' Hj'; apply Hf; right; exact Hj'].
  destruct (Qmax_cases init (f j)) as [-> | ->];
    [exact Hi | apply Hf; left; reflexivity].
Qed.

Lemma length_maximum_filter1d x size : length (maximum_filter1d x size) = length x.
Proof. unfold maximum_filter1d. rewrite length_map, length_seq. reflexivity. Qed.


Lemma maximum_filter1d_nth x size i :
  (i < length x)%nat ->
  nth i (maximum_filter1d x size) 0 =
  fold_left (fun m j => Qmax m (window x size i j))
            (seq 1 (size - 1)) (window x size i 0).
Proof.
  intros H. unfold maximum_filter1d.
  apply (SegmenterProofs.nth_map_seq
           (fun i => fold_left (fun m j => Qmax m (window x size i j))
                               (seq 1 (size - 1)) (window x size i 0))).
  exact H.
Qed.

(** Output [i] of the filter is the largest of the [size] elements of
    its window. *)
Lemma maximum_filter1d_window x size i :
  (1 <= size)%nat -> (i < length x)%nat ->
  (forall j, (j < size)%nat ->
     window x size i j <= nth i (maximum_filter1d x size) 0) /\
  (exists j, (j < size)%nat /\
     nth i (maximum_filter1d x size) 0 = window x size i j).
Proof.
  intros Hs Hi. rewrite maximum_filter1d_nth by exact Hi. split.
  - intros [|j] Hj.
    + apply fold_max_ge.
    + apply (fold_max_elem (window x size i)). apply in_seq. lia.
  - apply (fold_max_all (fun q => exists j, (j < size)%nat /\
                                            q = window x size i j)).
    + exists 0%nat. split; [lia | reflexivity].
    + intros j Hj. apply in_seq in Hj. exists j. split; [lia | reflexivity].
Qed.

Lemma smooth_nth fft_size sample_rate envelope i :
  (i < length envelope)%nat ->
  nth i (smooth fft_size sample_rate envelope) 0 =
  Float32.fadd32
    (nth i (maximum_filter1d envelope (filter_size fft_size sample_rate)) 0)
    epsilon32.
Proof.
  intros Hi. unfold smooth.
  rewrite (nth_indep _ 0 (Float32.fadd32 0 epsilon32))
    by (rewrite length_map, length_maximum_filter1d; exact Hi).
  apply (map_nth (fun m => Float32.fadd32 m epsilon32)).
Qed.


(** *** The single-precision [1e-9] *)

Lemma epsilon32_value : epsilon32 == 9007199 # 9007199254740992.
Proof. vm_compute. reflexivity. Qed.

Lemma epsilon32_pos : 0 < epsilon32.
Proof. rewrite epsilon32_value. reflexivity. Qed.


Lemma epsilon32_below : epsilon32 < stated_floor.
Proof. rewrite epsilon32_value. reflexivity. Qed.



(** *** The window size *)



Lemma filter_size_ge_2 fft_size sample_rate :
  (2 <= filter_size fft_size sample_rate)%nat.
Proof. unfold filter_size. lia. Qed.




End EnvelopeProofs.

(** ** The output stage *)

Module AssemblerProofs.
Import Numeric Assembler.
Open Scope Q_scope.

Example target_peak_value : target_peak = 22937%Z.
Proof. reflexivity. Qed.

Example quantize_07 : quantize (7 # 10) = 22936%Z.
Proof. reflexivity. Qed.

Example quantize_neg : quantize (- (7 # 10)) = (-22936)%Z.
Proof. reflexivity. Qed.

Example quantize_clips : quantize (21 # 20) = 32767%Z.
Proof. reflexivity. Qed.

Example max_smp_111 : max_smp mixed_111 = 2.
Proof. reflexivity. Qed.

Example written_111 :
  written 2 mixed_111 =
  [[0]; [0]; [0]; [0]; [11468]; [22936]; [32767]; [22936];
   [11468]; [0]; [0]; [0]; [0]; [0]]%Z.
Proof. vm_compute. reflexivity. Qed.

Example max_smp_223 : max_smp mixed_223 = 12.
Proof. reflexivity. Qed.

Example written_223 :
  written 2 mixed_223 =
  [[0]; [0]; [0]; [0]; [7645]; [15291]; [30582]; [22936];
   [17202]; [0]; [0]; [0]; [0]; [0]]%Z.
Proof. vm_compute. reflexivity. Qed.

(** *** Shapes *)

Lemma length_add_rows x y :
  length (add_rows x y) = Nat.min (length x) (length y).
Proof. apply EnvelopeProofs.length_zip_with. Qed.

Lemma wide_add_rows nch x : forall y,
  wide nch x -> wide nch y -> wide nch (add_rows x y).
Proof.
  unfold wide, add_rows.
  induction x as [|a x IH]; intros [|b y] Hx Hy; cbn [Arrays.zip_with];
    try constructor.
  - apply Forall_cons_iff in Hx as [Ha Hx], Hy as [Hb Hy].
    rewrite EnvelopeProofs.length_zip_with, Ha, Hb. apply Nat.min_id.
  - apply Forall_cons_iff in Hx as [Ha Hx], Hy as [Hb Hy]. apply IH; assumption.
Qed.

Lemma wide_firstn nch n b : wide nch b -> wide nch (firstn n b).
Proof.
  unfold wide. rewrite !Forall_forall. intros H r Hr.
  apply H. rewrite <- (firstn_skipn n b). apply in_or_app. left. exact Hr.
Qed.

Lemma wide_skipn nch n b : wide nch b -> wide nch (skipn n b).
Proof.
  unfold wide. rewrite !Forall_forall. intros H r Hr.
  apply H. rewrite <- (firstn_skipn n b). apply in_or_app. right. exact Hr.
Qed.

Lemma wide_scale nch gain b : wide nch b -> wide nch (scale gain b).
Proof.
  unfold wide, scale. rewrite Forall_map. apply Forall_impl.
  intros r Hr. rewrite length_map. exact Hr.
Qed.

Lemma length_scale gain b : length (scale gain b) = length b.
Proof. apply length_map. Qed.

Lemma wide_dstack rows nch multichannel_smps :
  shaped rows nch multichannel_smps -> wide nch (dstack multichannel_smps).
Proof.
  intros [Hn _]. unfold wide, dstack.
  destruct multichannel_smps as [|smp0 t]; [constructor|].
  rewrite Forall_map. apply Forall_forall. intros r _.
  rewrite length_map. exact Hn.
Qed.

Lemma length_dstack rows nch multichannel_smps :
  (1 <= nch)%nat -> shaped rows nch multichannel_smps ->
  length (dstack multichannel_smps) = rows.
Proof.
  intros Hnch [Hn Hrows]. unfold dstack.
  destruct multichannel_smps as [|smp0 t]; [cbn in Hn; lia|].
  rewrite length_map, length_seq.
  apply Forall_cons_iff in Hrows as [H0 _]. exact H0.
Qed.

(** *** One iteration of the output loop *)









Lemma mixed_rows_ge mode B : (B <= mixed_rows mode B)%nat.
Proof.
  unfold mixed_rows, fft_size, output_block_size_samples.
  destruct mode.
  - pose proof (Nat.div_mod_eq (B * 2) 2).
    pose proof (Nat.mod_upper_bound (B * 2) 2). lia.
  - pose proof (Nat.div_mod_eq (B * 3) 2).
    pose proof (Nat.mod_upper_bound (B * 3) 2). lia.
  - pose proof (Nat.div_mod_eq (B * 3) 2).
    pose proof (Nat.mod_upper_bound (B * 3) 2). lia.
Qed.



(** *** Numerical equality of blocks *)

Lemma row_eq_refl (a : row) : Forall2 Qeq a a.
Proof. induction a; constructor; [reflexivity | assumption]. Qed.

Lemma block_eq_refl x : block_eq x x.
Proof. induction x; constructor; [apply row_eq_refl | assumption]. Qed.

Lemma row_eq_trans (a b c : row) :
  Forall2 Qeq a b -> Forall2 Qeq b c -> Forall2 Qeq a c.
Proof.
  intros Hab. revert c. induction Hab as [|x y a b Hxy Hab IH]; intros c Hbc.
  - inversion Hbc. constructor.
  - inversion Hbc as [|y' z b' c' Hyz Hbc']; subst.
    constructor; [rewrite Hxy; exact Hyz | apply IH, Hbc'].
Qed.

Lemma block_eq_trans x y z : block_eq x y -> block_eq y z -> block_eq x z.
Proof.
  unfold block_eq. intros Hxy. revert z.
  induction Hxy as [|a b x y Hab Hxy IH]; intros z Hyz.
  - inversion Hyz. constructor.
  - inversion Hyz as [|b' c y' z' Hbc Hyz']; subst.
    constructor; [eapply row_eq_trans; eassumption | apply IH, Hyz'].
Qed.

Lemma clip_comp x y : x == y -> clip x == clip y.
Proof. intros E. unfold clip. rewrite E. reflexivity. Qed.

Lemma quantize_comp x y : x == y -> quantize x = quantize y.
Proof.
  intros E. unfold quantize. apply NumericProofs.Qtrunc_comp.
  rewrite (clip_comp x y E). reflexivity.
Qed.

Lemma output_buf_comp x y : block_eq x y -> output_buf x = output_buf y.
Proof.
  unfold output_buf. induction 1 as [|a b x y Hab _ IH]; [reflexivity|].
  cbn [map]. f_equal; [|exact IH].
  induction Hab as [|p q a b Hpq _ IHr]; [reflexivity|].
  cbn [map]. f_equal; [apply quantize_comp, Hpq | exact IHr].
Qed.

(** *** Adding tails that hold only zeros *)

Lemma add_row_zero (a : row) : forall b : row,
  length a = length b -> Forall (fun x => x == 0) b ->
  Forall2 Qeq (Arrays.zip_with Qplus a b) a.
Proof.
  induction a as [|p a IH]; intros [|q b] Hlen Hb; cbn [Arrays.zip_with];
    try discriminate; [constructor|].
  apply Forall_cons_iff in Hb as [Hq Hb]. constructor.
  - rewrite Hq. lra.
  - apply IH; [cbn in Hlen; lia | exact Hb].
Qed.

Lemma add_rows_zero nch (r : block) : forall z : block,
  wide nch r -> wide nch z -> zero_block z ->
  (length r <= length z)%nat ->
  block_eq (add_rows r z) r.
Proof.
  unfold block_eq, add_rows, wide, zero_block.
  induction r as [|a r IH]; intros [|b z] Hr Hz Hzero Hlen;
    cbn [Arrays.zip_with]; try constructor; try (cbn in Hlen; lia).
  - apply Forall_cons_iff in Hr as [Ha Hr], Hz as [Hb Hz], Hzero as [Hb0 Hzero].
    apply add_row_zero; [congruence | exact Hb0].
  - apply Forall_cons_iff in Hr as [Ha Hr], Hz as [Hb Hz], Hzero as [Hb0 Hzero].
    apply IH; try assumption. cbn in Hlen. lia.
Qed.

Lemma zero_block_firstn n z : zero_block z -> zero_block (firstn n z).
Proof.
  unfold zero_block. rewrite !Forall_forall. intros H r Hr.
  apply H. rewrite <- (firstn_skipn n z). apply in_or_app. left. exact Hr.
Qed.

Lemma zero_block_skipn n z : zero_block z -> zero_block (skipn n z).
Proof.
  unfold zero_block. rewrite !Forall_forall. intros H r Hr.
  apply H. rewrite <- (firstn_skipn n z). apply in_or_app. right. exact Hr.
Qed.

Lemma zero_block_scale gain z : zero_block z -> zero_block (scale gain z).
Proof.
  unfold zero_block, scale. rewrite Forall_map. apply Forall_impl.
  intros r Hr. rewrite Forall_map. eapply Forall_impl; [|exact Hr].
  intros x Hx. cbv beta. rewrite Hx. lra.
Qed.

Lemma fold_add_zero B nch (olds : list block) : forall r r0,
  length r = B -> wide nch r -> block_eq r r0 ->
  Forall (fun o => (B <= length o)%nat /\ wide nch o /\ zero_block o) olds ->
  block_eq (fold_left (fun r old => add_rows r (firstn B old)) olds r) r0.
Proof.
  induction olds as [|o olds IH]; intros r r0 Hlen Hw Heq Holds;
    cbn [fold_left]; [exact Heq|].
  apply Forall_cons_iff in Holds as [(Ho & Hwo & Hzo) Holds].
  apply IH; [| | |exact Holds].
  - rewrite length_add_rows, length_firstn, Hlen. lia.
  - apply wide_add_rows; [assumption | apply wide_firstn, Hwo].
  - eapply block_eq_trans; [|exact Heq].
    apply (add_rows_zero nch); [assumption | apply wide_firstn, Hwo
                               | apply zero_block_firstn, Hzo |].
    rewrite length_firstn, Hlen. lia.
Qed.

Lemma hop_zero B nch old_buf current_smps :
  (B <= length current_smps)%nat -> wide nch current_smps ->
  zero_block (skipn B current_smps) ->
  Forall (fun o => wide nch o /\ zero_block o) old_buf ->
  block_eq (fst (hop B old_buf current_smps)) (firstn B current_smps) /\
  Forall (fun o => wide nch o /\ zero_block o)
         (snd (hop B old_buf current_smps)).
Proof.
  intros Hlen Hw Hz Hold. unfold hop. cbn [fst snd].
  assert (Hf : Forall (fun o => (B <= length o)%nat /\ wide nch o /\
                                zero_block o)
                      (filter (fun o => (B <=? length o)%nat) old_buf)).
  { apply Forall_forall. intros o Ho. apply filter_In in Ho as [Hin Hb].
    apply Nat.leb_le in Hb. rewrite Forall_forall in Hold.
    destruct (Hold o Hin). auto. }
  split.
  - apply (fold_add_zero B nch); [| | |exact Hf].
    + rewrite length_firstn. lia.
    + apply wide_firstn, Hw.
    + apply block_eq_refl.
  - apply Forall_app. split.
    + rewrite Forall_map. eapply Forall_impl; [|exact Hf].
      intros o (_ & Ho & Hzo).
      split; [apply wide_skipn, Ho | apply zero_block_skipn, Hzo].
    + constructor; [|constructor].
      split; [apply wide_skipn, Hw | exact Hz].
Qed.

Lemma assemble_from_zero B nch gain blocks : forall old_buf,
  Forall (fun o => wide nch o /\ zero_block o) old_buf ->
  Forall (fun b => (B <= length b)%nat /\ wide nch b /\
                   zero_block (skipn B b)) blocks ->
  Forall2 block_eq (assemble_from B gain old_buf blocks)
          (map (fun b => scale gain (firstn B b)) blocks).
Proof.
  induction blocks as [|b rest IH]; intros old_buf Hold Hb;
    cbn [assemble_from map]; [constructor|].
  apply Forall_cons_iff in Hb as [(Hlen & Hw & Hz) Hrest].
  destruct (hop_zero B nch old_buf (scale gain b)) as [H1 H2].
  - rewrite length_scale. exact Hlen.
  - apply wide_scale, Hw.
  - unfold scale. rewrite skipn_map. apply zero_block_scale, Hz.
  - exact Hold.
  - destruct (hop B old_buf (scale gain b)) as [r old'].
    cbn [fst snd] in H1, H2. constructor.
    + unfold scale in *. rewrite firstn_map in H1. exact H1.
    + apply IH; assumption.
Qed.

Lemma zero_block_dstack B rows nch multichannel_smps :
  shaped rows nch multichannel_smps -> zero_beyond B multichannel_smps ->
  zero_block (skipn B (dstack multichannel_smps)).
Proof.
  intros _ Hz. unfold dstack, zero_block.
  destruct multichannel_smps as [|smp0 t] eqn:E.
  - rewrite skipn_nil. constructor.
  - rewrite <- E in *. rewrite skipn_map, skipn_seq, Forall_map.
    apply Forall_forall. intros r Hr. apply in_seq in Hr.
    rewrite Forall_map. eapply Forall_impl; [|exact Hz].
    intros smp Hsmp. apply Hsmp. lia.
Qed.

(** With zero tails every emitted [result_buf] is the normalised head of
    its own mixed block. *)
Lemma assemble_zero_tails B rows nch mixed :
  (1 <= nch)%nat -> (B <= rows)%nat ->
  Forall (shaped rows nch) mixed -> Forall (zero_beyond B) mixed ->
  Forall2 block_eq (assemble B mixed)
    (map (fun multichannel_smps =>
            scale ((7 # 10) / max_smp mixed)
                  (firstn B (dstack multichannel_smps)))
         mixed).
Proof.
  intros Hnch HB Hshape Hzero. unfold assemble.
  rewrite <- (map_map dstack (fun b => scale _ (firstn B b))).
  apply (assemble_from_zero B nch); [constructor|].
  rewrite Forall_map. apply Forall_forall. intros m Hm.
  rewrite Forall_forall in Hshape, Hzero.
  split; [|split].
  - rewrite (length_dstack rows nch); auto.
  - apply (wide_dstack rows); auto.
  - apply (zero_block_dstack B rows nch); auto.
Qed.

Lemma written_comp (hops hops' : list block) :
  Forall2 block_eq hops hops' ->
  concat (map output_buf hops) = concat (map output_buf hops').
Proof.
  induction 1 as [|x y hops hops' Hxy _ IH]; [reflexivity|].
  cbn [map concat]. rewrite (output_buf_comp x y Hxy), IH. reflexivity.
Qed.

(** Claim C5.  If every mixed block is zero in all samples beyond its
    first [input_block_size] samples, every iteration of the output loop
    emits the head of its own mixed block (its first [input_block_size]
    samples, normalised by [0.7 / max_smp] like every sample), with
    nothing added to it: the assembled output is the concatenation of
    the heads in group order, and so are the frames written. *)
Theorem overlap_add_zero_tails
  (input_block_size rows nchannels : nat) (mixed : list (list (list Q))) :
  (1 <= nchannels)%nat -> (input_block_size <= rows)%nat ->
  Forall (shaped rows nchannels) mixed ->
  Forall (zero_beyond input_block_size) mixed ->
  let head := fun multichannel_smps =>
                scale ((7 # 10) / max_smp mixed)
                      (firstn input_block_size (dstack multichannel_smps)) in
  Forall2 block_eq (assemble input_block_size mixed) (map head mixed) /\
  block_eq (concat (assemble input_block_size mixed))
           (concat (map head mixed)) /\
  written input_block_size mixed =
  concat (map (fun multichannel_smps => output_buf (head multichannel_smps))
              mixed).
Proof.
  intros Hnch HB Hshape Hzero head.
  pose proof (assemble_zero_tails input_block_size rows nchannels mixed
                Hnch HB Hshape Hzero) as H.
  fold head in H. split; [exact H|]. split.
  - unfold block_eq. induction H as [|x y hops hops' Hxy _ IH];
      [constructor|].
    cbn [concat]. apply Forall2_app; assumption.
  - unfold written. rewrite (written_comp _ _ H), map_map. reflexivity.
Qed.

Lemma overlap_add_zero_tails_witness :
  let mixed := [ [[1; 2; 0; 0]]; [[-3; 1; 0; 0]]; [[0; 4; 0; 0]] ] in
  (1 <= 1)%nat /\ (2 <= 4)%nat /\
  Forall (shaped 4 1) mixed /\ Forall (zero_beyond 2) mixed /\
  written 2 mixed =
  concat (map (fun multichannel_smps =>
                 output_buf (scale ((7 # 10) / max_smp mixed)
                               (firstn 2 (dstack multichannel_smps))))
              mixed).
Proof.
  intros mixed.
  assert (Hs : Forall (shaped 4 1) mixed).
  { repeat constructor. }
  assert (Hz : Forall (zero_beyond 2) mixed).
  { repeat constructor;
      intros [|[|[|[|[|r]]]]] Hr; try lia; cbn; try reflexivity;
      destruct r; reflexivity. }
  split; [lia|]. split; [lia|]. split; [exact Hs|]. split; [exact Hz|].
  apply (overlap_add_zero_tails 2 4 1 mixed); try lia; assumption.
Defined.

(** *** The running peak *)


Lemma fold_Qmax_in l : forall init,
  fold_left Qmax l init = init \/ In (fold_left Qmax l init) l.
Proof.
  induction l as [|a l IH]; intros init; cbn [fold_left]; [auto|].
  destruct (IH (Qmax init a)) as [H|H]; [|right; right; exact H].
  rewrite H. destruct (EnvelopeProofs.Qmax_cases init a) as [->| ->]; auto.
  right. left. reflexivity.
Qed.

Lemma Qmin_cases a b : Qmin a b = a \/ Qmin a b = b.
Proof. unfold Qmin, GenericMinMax.gmin. destruct (a ?= b); auto. Qed.

Lemma fold_Qmin_le l : forall init x,
  x = init \/ In x l -> fold_left Qmin l init <= x.
Proof.
  induction l as [|a l IH]; intros init x H; cbn [fold_left].
  - destruct H as [->|[]]. apply Qle_refl.
  - destruct H as [->|[<-|H]].
    + eapply Qle_trans; [apply IH; auto | apply (Q.le_min_l init a)].
    + eapply Qle_trans; [apply IH; auto | apply (Q.le_min_r init a)].
    + apply IH. auto.
Qed.

Lemma fold_Qmin_in l : forall init,
  fold_left Qmin l init = init \/ In (fold_left Qmin l init) l.
Proof.
  induction l as [|a l IH]; intros init; cbn [fold_left]; [auto|].
  destruct (IH (Qmin init a)) as [H|H]; [|right; right; exact H].
  rewrite H. destruct (Qmin_cases init a) as [->| ->]; auto.
  right. left. reflexivity.
Qed.


Lemma amin_le smp x : In x smp -> amin smp <= x.
Proof.
  destruct smp as [|a t]; [intros []|]. intros H. cbn [amin].
  apply fold_Qmin_le. destruct H; auto.
Qed.

Lemma amax_in smp : smp <> [] -> In (amax smp) smp.
Proof.
  destruct smp as [|a t]; [congruence|]. intros _. cbn [amax].
  destruct (fold_Qmax_in t a) as [->|H]; [left; reflexivity | right; exact H].
Qed.

Lemma amin_in smp : smp <> [] -> In (amin smp) smp.
Proof.
  destruct smp as [|a t]; [congruence|]. intros _. cbn [amin].
  destruct (fold_Qmin_in t a) as [->|H]; [left; reflexivity | right; exact H].
Qed.


Lemma max_current_smp_attained smp :
  smp <> [] -> exists x, In x smp /\ Qabs x == max_current_smp smp.
Proof.
  intros Hne. unfold max_current_smp.
  pose proof (amax_in smp Hne) as Hmax. pose proof (amin_in smp Hne) as Hmin.
  pose proof (amin_le _ _ Hmax) as H1.
  pose proof (Q.le_max_l (amax smp) (- amin smp)) as Hl.
  pose proof (Q.le_max_r (amax smp) (- amin smp)) as Hr.
  destruct (EnvelopeProofs.Qmax_cases (amax smp) (- amin smp)) as [E|E];
    rewrite E in *.
  - exists (amax smp). split; [exact Hmax|]. apply Qabs_pos. lra.
  - exists (amin smp). split; [exact Hmin|]. apply Qabs_neg. lra.
Qed.

Lemma track_channels_ge chans : forall m,
  m <= fold_left (fun m smp => Qmax (max_current_smp smp) m) chans m /\
  forall smp, In smp chans ->
    max_current_smp smp <=
    fold_left (fun m smp => Qmax (max_current_smp smp) m) chans m.
Proof.
  induction chans as [|c chans IH]; intros m; cbn [fold_left].
  - split; [apply Qle_refl | intros smp []].
  - destruct (IH (Qmax (max_current_smp c) m)) as [H1 H2].
    pose proof (Q.le_max_l (max_current_smp c) m).
    pose proof (Q.le_max_r (max_current_smp c) m).
    split; [lra|]. intros smp [<-|Hin]; [lra | apply H2, Hin].
Qed.

Lemma track_channels_cases chans : forall m,
  let m' := fold_left (fun m smp => Qmax (max_current_smp smp) m) chans m in
  m' = m \/ exists smp, In smp chans /\ m' = max_current_smp smp.
Proof.
  induction chans as [|c chans IH]; intros m; cbn [fold_left]; [auto|].
  destruct (IH (Qmax (max_current_smp c) m)) as [H|(smp & Hin & H)].
  - cbv zeta in H. rewrite H.
    destruct (EnvelopeProofs.Qmax_cases (max_current_smp c) m) as [->| ->];
      [right; exists c; split; [left|]; reflexivity | left; reflexivity].
  - right. exists smp. split; [right; exact Hin | exact H].
Qed.

Lemma track_groups_ge mixed : forall m,
  let track := fun m chans =>
    fold_left (fun m smp => Qmax (max_current_smp smp) m) chans m in
  m <= fold_left track mixed m /\
  forall chans smp, In chans mixed -> In smp chans ->
    max_current_smp smp <= fold_left track mixed m.
Proof.
  induction mixed as [|g mixed IH]; intros m track; cbn [fold_left].
  - split; [apply Qle_refl | intros chans smp []].
  - destruct (IH (track m g)) as [H1 H2]. fold track in H1, H2.
    destruct (track_channels_ge g m) as [G1 G2]. fold (track m g) in G1, G2.
    split; [lra|]. intros chans smp [<-|Hin] Hsmp.
    + pose proof (G2 smp Hsmp). lra.
    + apply (H2 chans smp Hin Hsmp).
Qed.

Lemma track_groups_cases mixed : forall m,
  let track := fun m chans =>
    fold_left (fun m smp => Qmax (max_current_smp smp) m) chans m in
  fold_left track mixed m = m \/
  exists chans smp, In chans mixed /\ In smp chans /\
    fold_left track mixed m = max_current_smp smp.
Proof.
  induction mixed as [|g mixed IH]; intros m track; cbn [fold_left]; [auto|].
  destruct (IH (track m g)) as [H|(chans & smp & Hc & Hs & H)];
    fold track in H.
  - rewrite H. destruct (track_channels_cases g m) as [E|(smp & Hs & E)];
      fold (track m g) in E.
    + left. exact E.
    + right. exists g, smp. split; [left; reflexivity|]. split; assumption.
  - right. exists chans, smp. split; [right; exact Hc|]. split; assumption.
Qed.

Lemma max_smp_floor mixed : peak_floor <= max_smp mixed.
Proof. apply (track_groups_ge mixed peak_floor). Qed.




(** *** Quantising a normalised sample *)









(** *** The largest written sample *)











End AssemblerProofs.

(** ** [optimize_fft_size]: growth, monotonicity, negative arguments *)

Module FftSizeMore.
Import FftSize FftSizeProofs.
Open Scope Z_scope.

Lemma pow2_between n : 1 <= n -> exists k : nat, n <= 2 ^ Z.of_nat k < 2 * n.
Proof.
  intros Hn. destruct (Z.eq_dec n 1) as [->|Hne].
  - exists O. cbn. lia.
  - assert (H1 : 1 < n) by lia.
    pose proof (Z.log2_up_spec n H1) as [Hlo Hhi].
    pose proof (Z.log2_up_pos n H1) as Hpos.
    exists (Z.to_nat (Z.log2_up n)). rewrite Z2Nat.id by lia.
    split; [exact Hhi|].
    replace (Z.log2_up n) with (Z.succ (Z.pred (Z.log2_up n))) by lia.
    rewrite Z.pow_succ_r by lia. lia.
Qed.

(** The result is below every 3-smooth number from [n] upwards. *)
Lemma search_le_smooth fuel n m B :
  search fuel n = Some m -> n <= B -> smooth23 B -> m <= B.
Proof.
  intros Hs HB Hsm. destruct (search_sound fuel n m Hs) as (_ & _ & Hmin).
  destruct (Z.le_gt_cases m B) as [H|H]; [exact H|].
  exfalso. apply (Hmin B); [lia | apply smooth23_reduces, Hsm].
Qed.

(** The chosen size is less than twice the requested one. *)
Theorem optimize_fft_size_below_double (n : Z) :
  1 <= n ->
  exists fuel m,
    (forall fuel', (fuel <= fuel')%nat -> optimize_fft_size fuel' n = Some m) /\
    n <= m < 2 * n.
Proof.
  intros Hn. destruct (optimize_fft_size_returns n Hn) as (fuel & m & Hret).
  exists fuel, m. split; [exact Hret|].
  pose proof (Hret fuel (Nat.le_refl _)) as Hs.
  destruct (search_sound fuel n m Hs) as (Hle & _ & _).
  destruct (pow2_between n Hn) as (k & Hk1 & Hk2).
  pose proof (search_le_smooth fuel n m _ Hs Hk1 (pow2_smooth k)). lia.
Qed.

Lemma optimize_fft_size_below_double_witness :
  1 <= 1000 /\
  exists fuel m,
    (forall fuel', (fuel <= fuel')%nat ->
       optimize_fft_size fuel' 1000 = Some m) /\
    1000 <= m < 2 * 1000.
Proof. split; [lia | apply (optimize_fft_size_below_double 1000); lia]. Defined.

(** A larger request never gets a smaller size, and a size that was
    chosen is kept when requested again. *)
Theorem optimize_fft_size_monotone (n n' : Z) :
  1 <= n -> n <= n' ->
  exists fuel m m',
    (forall fuel', (fuel <= fuel')%nat ->
       optimize_fft_size fuel' n = Some m /\
       optimize_fft_size fuel' n' = Some m' /\
       optimize_fft_size fuel' m = Some m) /\
    m <= m'.
Proof.
  intros Hn Hle.
  destruct (optimize_fft_size_returns n Hn) as (f1 & m & H1).
  destruct (optimize_fft_size_returns n') as (f2 & m' & H2); [lia|].
  pose proof (H1 f1 (Nat.le_refl _)) as Hs1.
  pose proof (H2 f2 (Nat.le_refl _)) as Hs2.
  destruct (search_sound f1 n m Hs1) as (Hnm & Hred & _).
  destruct (search_sound f2 n' m' Hs2) as (Hnm' & Hred' & _).
  destruct (optimize_fft_size_returns m) as (f3 & m3 & H3); [lia|].
  pose proof (H3 f3 (Nat.le_refl _)) as Hs3.
  assert (Hm3 : m3 = m).
  { destruct (search_sound f3 m m3 Hs3) as (Hmm3 & _ & Hmin3).
    destruct (Z.eq_dec m3 m) as [E|Hne]; [exact E|].
    exfalso. apply (Hmin3 m); [lia | exact Hred]. }
  subst m3.
  exists (Nat.max f1 (Nat.max f2 f3)), m, m'. split.
  - intros fuel' Hf. repeat split; [apply H1 | apply H2 | apply H3]; lia.
  - apply (search_le_smooth f1 n m m' Hs1); [lia|].
    apply reduces_smooth23; [lia | exact Hred'].
Qed.

Lemma optimize_fft_size_monotone_witness :
  1 <= 5 /\ 5 <= 7 /\
  exists fuel m m',
    (forall fuel', (fuel <= fuel')%nat ->
       optimize_fft_size fuel' 5 = Some m /\
       optimize_fft_size fuel' 7 = Some m' /\
       optimize_fft_size fuel' m = Some m) /\
    m <= m'.
Proof.
  split; [lia|]. split; [lia|]. apply (optimize_fft_size_monotone 5 7); lia.
Defined.

(** *** Negative arguments *)

Lemma strip_negative fuel : forall d n,
  2 <= d -> n < 0 -> (Z.to_nat (- n) < fuel)%nat ->
  exists r, strip fuel d n = Some r /\ n <= r < 0.
Proof.
  induction fuel as [|f IH]; intros d n Hd Hn Hf; [lia|].
  cbn [strip]. destruct (n mod d =? 0) eqn:E.
  - apply Z.eqb_eq in E.
    assert (Hdiv : n = d * (n / d)).
    { rewrite (Z.div_mod n d) at 1 by lia. lia. }
    assert (Hq : n < n / d < 0) by nia.
    destruct (IH d (n / d)) as (r & Hr & Hb); try lia.
    exists r. split; [exact Hr | lia].
  - exists n. split; [reflexivity | lia].
Qed.

(** A negative argument passes the test at once and is returned as it
    is. *)
Theorem optimize_fft_size_negative (n : Z) :
  n < 0 ->
  exists fuel,
    forall fuel', (fuel <= fuel')%nat -> optimize_fft_size fuel' n = Some n.
Proof.
  intros Hn. exists (S (Z.to_nat (- n))). intros fuel' Hf.
  apply (search_mono (S (Z.to_nat (- n)))); [|exact Hf].
  cbn [search]. unfold residue.
  destruct (strip_negative (S (Z.to_nat (- n))) 2 n) as (r2 & H2 & Hb2);
    try lia.
  rewrite H2.
  destruct (strip_negative (S (Z.to_nat (- n))) 3 r2) as (r3 & H3 & Hb3);
    try lia.
  rewrite H3. destruct (Z.ltb_spec r3 2); [reflexivity | lia].
Qed.

Lemma optimize_fft_size_negative_witness :
  -6 < 0 /\
  exists fuel,
    forall fuel', (fuel <= fuel')%nat -> optimize_fft_size fuel' (-6) = Some (-6).
Proof. split; [lia | apply (optimize_fft_size_negative (-6)); lia]. Defined.

End FftSizeMore.

(** ** [get_block_mixes]: the groups item by item *)

Module PlannerFormProofs.
Import Planner PlannerProofs PlannerForm.
Open Scope nat_scope.

Example group_form_3_2 : group_form 3 2 = [((0, 2), 2); ((1, 1), 1)].
Proof. reflexivity. Qed.

Example group_form_5 :
  map (group_form 5) (seq 0 9) = get_block_mixes 5.
Proof. reflexivity. Qed.

(** *** Sorted lists *)

Lemma StronglySorted_app_intro {A : Type} (R : A -> A -> Prop) l1 : forall l2,
  StronglySorted R l1 -> StronglySorted R l2 ->
  (forall a b, In a l1 -> In b l2 -> R a b) ->
  StronglySorted R (l1 ++ l2).
Proof.
  induction l1 as [|x l1 IH]; intros l2 H1 H2 H12; [exact H2|].
  apply StronglySorted_inv in H1 as [H1 Hx]. cbn [app]. constructor.
  - apply IH; [exact H1 | exact H2|].
    intros a b Ha Hb. apply H12; [right; exact Ha | exact Hb].
  - apply Forall_app. split; [exact Hx|].
    apply Forall_forall. intros b Hb. apply H12; [left; reflexivity | exact Hb].
Qed.

Lemma StronglySorted_app_cross {A : Type} (R : A -> A -> Prop) l1 : forall l2,
  StronglySorted R (l1 ++ l2) -> forall a b, In a l1 -> In b l2 -> R a b.
Proof.
  induction l1 as [|x l1 IH]; intros l2 H a b Ha Hb; [destruct Ha|].
  cbn [app] in H. apply StronglySorted_inv in H as [H Hx].
  destruct Ha as [<-|Ha].
  - rewrite Forall_forall in Hx. apply Hx, in_or_app. right. exact Hb.
  - apply (IH l2 H a b Ha Hb).
Qed.

Lemma StronglySorted_seq start len : StronglySorted lt (seq start len).
Proof.
  revert start. induction len as [|len IH]; intros start; cbn [seq];
    constructor; [apply IH|].
  apply Forall_forall. intros x Hx. apply in_seq in Hx. lia.
Qed.

Lemma StronglySorted_map {A B : Type} (R : A -> A -> Prop)
  (R' : B -> B -> Prop) (f : A -> B) l :
  (forall a b, R a b -> R' (f a) (f b)) ->
  StronglySorted R l -> StronglySorted R' (map f l).
Proof.
  intros Hf. induction 1 as [|a l Hl IH Ha]; cbn [map]; constructor;
    [exact IH|].
  rewrite Forall_map. eapply Forall_impl; [|exact Ha]. intros b. apply Hf.
Qed.

(** The loop nest visits the pairs in lexicographic order. *)
Lemma list_prod_sorted (l l' : list nat) :
  StronglySorted lt l -> StronglySorted lt l' ->
  StronglySorted visited_before (list_prod l l').
Proof.
  intros Hs Hl. induction l as [|j l IH]; cbn [list_prod]; [constructor|].
  apply StronglySorted_inv in Hs as [Hs Hj].
  apply StronglySorted_app_intro; [| apply IH, Hs |].
  - apply (StronglySorted_map lt); [|exact Hl].
    intros a b Hab. right. cbn [fst snd]. auto.
  - intros [j1 i1] [j2 i2] H1 H2.
    apply in_map_iff in H1 as (x & [= <- <-] & _).
    apply in_prod_iff in H2 as [H2 _]. rewrite Forall_forall in Hj.
    left. cbn [fst]. apply Hj, H2.
Qed.

Lemma iterations_sorted N : StronglySorted visited_before (iterations N).
Proof. apply list_prod_sorted; apply StronglySorted_seq. Qed.

(** Before [p] is visited, exactly the pairs of the square that come
    before it have been. *)
Lemma visited_prefix N prefix p suffix q :
  iterations N = prefix ++ p :: suffix ->
  In q prefix <-> In q (iterations N) /\ visited_before q p.
Proof.
  intros E. pose proof (iterations_sorted N) as Hs. rewrite E in Hs. split.
  - intros Hq. split; [rewrite E; apply in_or_app; left; exact Hq|].
    apply (StronglySorted_app_cross _ _ _ Hs q p Hq). left. reflexivity.
  - intros [Hin Hqp]. rewrite E in Hin.
    apply in_app_or in Hin as [Hin|[<-|Hin]]; [exact Hin | |].
    + unfold visited_before in Hqp. lia.
    + exfalso. change (p :: suffix) with ([p] ++ suffix) in Hs.
      rewrite app_assoc in Hs.
      assert (Hpq : visited_before p q).
      { apply (StronglySorted_app_cross _ _ _ Hs p q); [|exact Hin].
        apply in_or_app. right. left. reflexivity. }
      unfold visited_before in *. lia.
Qed.

(** *** Order of the items of a group *)

Lemma keys_bump val g :
  Dict.keys (bump val g) =
  match Dict.lookup pair_eqb val g with
  | Some _ => Dict.keys g
  | None => Dict.keys g ++ [val]
  end.
Proof.
  unfold bump. destruct (Dict.lookup pair_eqb val g) as [c|] eqn:E.
  - rewrite E, (DictProofs.keys_assign _ pair_eqb_spec), E. reflexivity.
  - rewrite (DictProofs.lookup_assign_eq _ pair_eqb_spec).
    rewrite !(DictProofs.keys_assign _ pair_eqb_spec), E.
    rewrite (DictProofs.lookup_assign_eq _ pair_eqb_spec). reflexivity.
Qed.

Lemma lookup_in_keys (p : pair) (g : group) :
  In p (Dict.keys g) -> exists v, Dict.lookup pair_eqb p g = Some v.
Proof.
  induction g as [|[q v] t IH]; cbn [Dict.keys map fst In Dict.lookup];
    [intros []|].
  destruct (pair_eqb_spec p q) as [->|Hne]; [eauto|].
  intros [E|Hin]; [congruence | apply IH, Hin].
Qed.

(** A key of group [k] comes from a visited pair with index sum [k]. *)
Lemma key_origin ps k g a b :
  Dict.lookup Nat.eqb k (run ps []) = Some g -> In (a, b) (Dict.keys g) ->
  exists j i, In (j, i) ps /\ k = i + j /\ a = Nat.min i j /\ b = Nat.max i j.
Proof.
  intros Hg Hin. destruct (lookup_in_keys _ _ Hin) as [v Hv].
  pose proof (mult_run ps k (a, b)) as Hm. unfold mult in Hm.
  rewrite Hg, Hv in Hm.
  destruct (hits k (a, b) ps) as [|[j i] t] eqn:E; [discriminate|].
  assert (Hh : In (j, i) (hits k (a, b) ps)) by (rewrite E; left; reflexivity).
  unfold hits in Hh. apply filter_In in Hh as [Hps Hb]. cbn [fst snd] in Hb.
  apply andb_true_iff in Hb as [Hk Hp]. apply Nat.eqb_eq in Hk.
  destruct (pair_eqb_spec (a, b) (Nat.min i j, Nat.max i j)) as [[= -> ->]|];
    [|discriminate].
  exists j, i. auto.
Qed.

Lemma visited_key ps k j i :
  In (j, i) ps -> k = i + j ->
  exists g v, Dict.lookup Nat.eqb k (run ps []) = Some g /\
              Dict.lookup pair_eqb (Nat.min i j, Nat.max i j) g = Some v.
Proof.
  intros Hin Hk.
  pose proof (mult_run ps k (Nat.min i j, Nat.max i j)) as Hm.
  assert (Hh : In (j, i) (hits k (Nat.min i j, Nat.max i j) ps)).
  { unfold hits. apply filter_In. split; [exact Hin|]. cbn [fst snd].
    apply andb_true_iff. split; [apply Nat.eqb_eq, Hk|].
    destruct (pair_eqb_spec (Nat.min i j, Nat.max i j)
                            (Nat.min i j, Nat.max i j)); congruence. }
  destruct (hits k (Nat.min i j, Nat.max i j) ps) as [|h t]; [destruct Hh|].
  cbn [length] in Hm. unfold mult in Hm.
  destruct (Dict.lookup Nat.eqb k (run ps [])) as [g|]; [|discriminate].
  exists g, (S (length t)). auto.
Qed.

(** While the loop nest runs, the keys of every group are in increasing
    order of their first index. *)
Lemma keys_sorted_prefix N prefix : forall suffix k g,
  iterations N = prefix ++ suffix ->
  Dict.lookup Nat.eqb k (run prefix []) = Some g ->
  StronglySorted fst_lt (Dict.keys g).
Proof.
  induction prefix as [|[j i] prefix IH] using rev_ind; intros suffix k g E Hg;
    [discriminate|].
  rewrite <- app_assoc in E. cbn [app] in E.
  rewrite run_app in Hg. cbn [run fold_left fst snd] in Hg.
  fold (run prefix []) in Hg. rewrite lookup_step in Hg.
  destruct (Nat.eqb_spec k (i + j)) as [->|Hne];
    [|exact (IH _ _ _ E Hg)].
  injection Hg as <-. rewrite keys_bump. unfold getitem.
  destruct (Dict.lookup Nat.eqb (i + j) (run prefix [])) as [g0|] eqn:Eg.
  - pose proof (IH _ _ _ E Eg) as Hs.
    destruct (Dict.lookup pair_eqb (Nat.min i j, Nat.max i j) g0) eqn:Ev;
      [exact Hs|].
    assert (Hij : In (j, i) (iterations N)).
    { rewrite E. apply in_or_app. right. left. reflexivity. }
    unfold iterations in Hij. apply in_prod_iff in Hij as [Hj Hi].
    apply in_seq in Hj, Hi.
    assert (Hle : j <= i).
    { destruct (Nat.le_gt_cases j i) as [H|H]; [exact H|]. exfalso.
      assert (Hsw : In (i, j) prefix).
      { apply (visited_prefix N prefix (j, i) suffix (i, j) E). split.
        - unfold iterations. apply in_prod_iff. rewrite !in_seq. lia.
        - left. cbn [fst]. exact H. }
      destruct (visited_key prefix (i + j) i j Hsw) as (g1 & v & Hg1 & Hv);
        [lia|].
      rewrite Eg in Hg1. injection Hg1 as <-.
      rewrite Nat.min_comm, Nat.max_comm in Hv. congruence. }
    apply StronglySorted_app_intro; [exact Hs | repeat constructor |].
    intros [a b] q Hab [<-|[]]. unfold fst_lt. cbn [fst].
    destruct (key_origin prefix (i + j) g0 a b Eg Hab)
      as (j' & i' & Hin' & Hk' & -> & _).
    apply (visited_prefix N prefix (j, i) suffix (j', i') E) in Hin'
      as [_ Hbefore].
    unfold visited_before in Hbefore. cbn [fst snd] in Hbefore. lia.
  - cbn [Dict.lookup Dict.keys map app]. repeat constructor.
Qed.

(** Two groups whose keys are in increasing order and which map every
    pair alike are the same list. *)
Lemma sorted_group_ext (g : group) : forall g' : group,
  StronglySorted fst_lt (Dict.keys g) ->
  StronglySorted fst_lt (Dict.keys g') ->
  (forall p, Dict.lookup pair_eqb p g = Dict.lookup pair_eqb p g') ->
  g = g'.
Proof.
  assert (Hhead : forall (p : pair) (v : nat) (t : group),
            StronglySorted fst_lt (Dict.keys ((p, v) :: t)) ->
            Dict.lookup pair_eqb p t = None).
  { intros p v t Hs. apply (DictProofs.lookup_notin _ pair_eqb_spec).
    cbn [Dict.keys map fst] in Hs. apply StronglySorted_inv in Hs as [_ Hp].
    rewrite Forall_forall in Hp. intros Hin. apply Hp in Hin.
    unfold fst_lt in Hin. lia. }
  assert (Hin : forall (p q : pair) (v w : nat) (t : group),
            p <> q -> StronglySorted fst_lt (Dict.keys ((q, w) :: t)) ->
            Dict.lookup pair_eqb p ((q, w) :: t) = Some v -> fst q < fst p).
  { intros p q v w t Hne Hs Hl. cbn [Dict.lookup] in Hl.
    destruct (pair_eqb_spec p q); [congruence|].
    apply (DictProofs.lookup_Some_in _ pair_eqb_spec) in Hl.
    apply (in_map fst) in Hl. cbn [fst] in Hl.
    cbn [Dict.keys map fst] in Hs. apply StronglySorted_inv in Hs as [_ Hq].
    rewrite Forall_forall in Hq. apply (Hq p Hl). }
  induction g as [|[p v] t IH]; intros [|[q w] t'] Hs Hs' Hext.
  - reflexivity.
  - specialize (Hext q). cbn [Dict.lookup] in Hext.
    destruct (pair_eqb_spec q q); congruence.
  - specialize (Hext p). cbn [Dict.lookup] in Hext.
    destruct (pair_eqb_spec p p); congruence.
  - assert (Hpq : p = q).
    { destruct (pair_eqb_spec p q) as [E|Hne]; [exact E|]. exfalso.
      pose proof (Hext p) as H1. pose proof (Hext q) as H2.
      assert (L1 : Dict.lookup pair_eqb p ((p, v) :: t) = Some v)
        by (cbn [Dict.lookup]; destruct (pair_eqb_spec p p); congruence).
      assert (L2 : Dict.lookup pair_eqb q ((q, w) :: t') = Some w)
        by (cbn [Dict.lookup]; destruct (pair_eqb_spec q q); congruence).
      rewrite L1 in H1. rewrite L2 in H2. symmetry in H1.
      pose proof (Hin p q v w t' Hne Hs' H1).
      pose proof (Hin q p w v t (not_eq_sym Hne) Hs H2). lia. }
    subst q.
    assert (Hv : v = w).
    { specialize (Hext p). cbn [Dict.lookup] in Hext.
      destruct (pair_eqb_spec p p); congruence. }
    subst w. f_equal. apply IH.
    + cbn [Dict.keys map fst] in Hs. apply StronglySorted_inv in Hs as [Hs _].
      exact Hs.
    + cbn [Dict.keys map fst] in Hs'.
      apply StronglySorted_inv in Hs' as [Hs' _]. exact Hs'.
    + intros r. destruct (pair_eqb_spec r p) as [->|Hne].
      * rewrite (Hhead p v t Hs), (Hhead p v t' Hs'). reflexivity.
      * specialize (Hext r). cbn [Dict.lookup] in Hext.
        destruct (pair_eqb_spec r p); [congruence | exact Hext].
Qed.

(** *** The closed form *)

Lemma lookup_form k (m : nat -> nat) cnt : forall lo a b,
  Dict.lookup pair_eqb (a, b)
    (map (fun x => ((x, k - x), m x)) (seq lo cnt)) =
  if (lo <=? a) && (a <? lo + cnt) && (b =? k - a) then Some (m a) else None.
Proof.
  induction cnt as [|cnt IH]; intros lo a b; cbn [seq map Dict.lookup].
  - destruct (Nat.leb_spec lo a), (Nat.ltb_spec a (lo + 0)); cbn [andb];
      try reflexivity. lia.
  - rewrite IH. unfold pair_eqb. cbn [fst snd].
    destruct (Nat.eqb_spec a lo) as [->|Hne].
    + rewrite Nat.leb_refl.
      destruct (Nat.eqb_spec b (k - lo)); cbn [andb].
      * destruct (Nat.ltb_spec lo (lo + S cnt)); [reflexivity | lia].
      * destruct (Nat.leb_spec (S lo) lo); [lia|].
        cbn [andb]. rewrite andb_false_r. reflexivity.
    + cbn [andb].
      destruct (Nat.leb_spec (S lo) a), (Nat.leb_spec lo a),
        (Nat.ltb_spec a (S lo + cnt)), (Nat.ltb_spec a (lo + S cnt));
        cbn [andb]; try reflexivity; lia.
Qed.

Lemma lookup_group_form N k p :
  1 <= N -> k < 2 * N - 1 ->
  Dict.lookup pair_eqb p (group_form N k) = expected N k p.
Proof.
  intros HN Hk. destruct p as [a b]. unfold group_form, expected.
  rewrite (lookup_form k (fun x => if x =? k - x then 1 else 2)).
  pose proof (Nat.div_mod_eq k 2) as Hd.
  pose proof (Nat.mod_upper_bound k 2) as Hm.
  destruct (Nat.leb_spec (k - (N - 1)) a),
    (Nat.ltb_spec a (k - (N - 1) + (k / 2 + 1 - (k - (N - 1))))),
    (Nat.eqb_spec b (k - a)), (Nat.leb_spec a b), (Nat.ltb_spec b N),
    (Nat.eqb_spec (a + b) k); cbn [andb]; try reflexivity; try lia.
  subst b. destruct (Nat.eqb_spec a (k - a)); reflexivity.
Qed.

Lemma group_form_sorted N k : StronglySorted fst_lt (Dict.keys (group_form N k)).
Proof.
  unfold group_form, Dict.keys. rewrite map_map. cbn [fst].
  apply (StronglySorted_map lt); [|apply StronglySorted_seq].
  intros a b Hab. exact Hab.
Qed.

Lemma length_group_form N k :
  1 <= N -> k < 2 * N - 1 ->
  length (group_form N k) = Nat.min k (2 * N - 2 - k) / 2 + 1.
Proof.
  intros HN Hk. unfold group_form. rewrite length_map, length_seq.
  pose proof (Nat.div_mod_eq k 2) as Hd.
  pose proof (Nat.mod_upper_bound k 2) as Hm.
  pose proof (Nat.div_mod_eq (Nat.min k (2 * N - 2 - k)) 2) as Hd'.
  pose proof (Nat.mod_upper_bound (Nat.min k (2 * N - 2 - k)) 2) as Hm'.
  destruct (Nat.le_gt_cases k (2 * N - 2 - k)) as [H|H].
  - rewrite Nat.min_l in * by lia. lia.
  - rewrite Nat.min_r in * by lia. lia.
Qed.

(** For [N >= 1], [get_block_mixes N] is, item by item and in the order
    in which [block_mix.items()] yields them, the list of the groups
    [k = 0 .. 2N-2], group [k] holding the pairs [(a, k - a)] in
    increasing order of [a], from [max(0, k - N + 1)] to [k // 2], with
    multiplicity 1 for [a = k - a] and 2 otherwise; group [k] has
    [min(k, 2N - 2 - k) // 2 + 1] items. *)
Theorem get_block_mixes_items (N : nat) :
  1 <= N ->
  get_block_mixes N = map (group_form N) (seq 0 (2 * N - 1)) /\
  forall k, k < 2 * N - 1 ->
    nth_error (get_block_mixes N) k = Some (group_form N k) /\
    length (group_form N k) = Nat.min k (2 * N - 2 - k) / 2 + 1.
Proof.
  intros HN.
  assert (Hnth : forall k, k < 2 * N - 1 ->
            nth_error (get_block_mixes N) k = Some (group_form N k)).
  { intros k Hk.
    destruct (DictProofs.nth_values_seq (fill N) 0 _ k (keys_fill N HN) Hk)
      as (g & Hn & Hg).
    cbn [Nat.add] in Hg. unfold get_block_mixes. rewrite Hn. f_equal.
    destruct (nth_get_block_mixes N k HN Hk) as (g' & Hn' & _ & Hl & _).
    unfold get_block_mixes in Hn'. assert (g' = g) by congruence. subst g'.
    apply sorted_group_ext.
    - rewrite fill_run in Hg.
      apply (keys_sorted_prefix N (iterations N) [] k g);
        [rewrite app_nil_r; reflexivity | exact Hg].
    - apply group_form_sorted.
    - intros p. rewrite Hl, lookup_group_form by assumption. reflexivity. }
  split.
  - apply nth_error_ext. intros k.
    destruct (Nat.lt_ge_cases k (2 * N - 1)) as [Hk|Hk].
    + rewrite (Hnth k Hk), nth_error_map, nth_error_seq.
      destruct (Nat.ltb_spec k (2 * N - 1)); [reflexivity | lia].
    + rewrite (proj2 (nth_error_None _ _)), (proj2 (nth_error_None _ _));
        [reflexivity| |].
      * rewrite length_map, length_seq. exact Hk.
      * rewrite length_get_block_mixes by assumption. exact Hk.
  - intros k Hk. split; [apply Hnth, Hk | apply length_group_form; assumption].
Qed.

Lemma get_block_mixes_items_witness :
  1 <= 4 /\ get_block_mixes 4 = map (group_form 4) (seq 0 (2 * 4 - 1)).
Proof.
  assert (H : 1 <= 4) by lia.
  split; [exact H|]. exact (proj1 (get_block_mixes_items 4 H)).
Defined.

End PlannerFormProofs.

(** ** [ramp_window]: what it changes and when it raises *)

Module WindowProofs.
Import Window.
Open Scope Q_scope.

Example linspace_5 :
  map Qred (linspace 0 1 5) = [0; 1 # 4; 1 # 2; 3 # 4; 1].
Proof. reflexivity. Qed.

Example ramp_window_8_3 :
  option_map (map Qred) (ramp_window [4; 4; 4; 4; 4; 4; 4; 4] 3) =
  Some [0; 2; 4; 4; 4; 4; 2; 0].
Proof. reflexivity. Qed.

Example ramp_window_1 :
  option_map (map Qred) (ramp_window [4; 5; 6] 1) = Some [0; 5; 6].
Proof. reflexivity. Qed.

Example ramp_window_0_raises : ramp_window [4; 5; 6] 0 = None.
Proof. reflexivity. Qed.

Example ramp_window_long_raises : ramp_window [4; 5; 6] 4 = None.
Proof. reflexivity. Qed.

Example roll_1 : roll [1; 2; 3; 4] 1 = [4; 1; 2; 3].
Proof. reflexivity. Qed.

(** *** The two products *)

Lemma length_linspace a b n : length (linspace a b n) = n.
Proof.
  destruct n as [|[|n]]; cbn [linspace length]; try reflexivity.
  rewrite length_map, length_seq. reflexivity.
Qed.

Lemma imul_same target w :
  length w = length target ->
  imul target w = Some (Arrays.zip_with Qmult target w).
Proof. intros E. unfold imul. rewrite E, Nat.eqb_refl. reflexivity. Qed.

Lemma imul_length target w out :
  imul target w = Some out -> length out = length target.
Proof.
  unfold imul. destruct (Nat.eqb_spec (length w) (length target)) as [E|E].
  - intros [= <-]. rewrite EnvelopeProofs.length_zip_with, E. apply Nat.min_id.
  - destruct w as [|w0 [|w1 w]]; try discriminate.
    intros [= <-]. apply length_map.
Qed.

Lemma imul_None target w :
  imul target w = None <->
  length w <> length target /\ length w <> 1%nat.
Proof.
  unfold imul. destruct (Nat.eqb_spec (length w) (length target)) as [E|E].
  - split; [discriminate | tauto].
  - destruct w as [|w0 [|w1 w]]; cbn [length] in *.
    + split; [intros _; split; [exact E | lia] | reflexivity].
    + split; [discriminate | intros [_ H]; lia].
    + split; [intros _; split; [exact E | lia] | reflexivity].
Qed.

(** Whenever it returns, [ramp_window] keeps the length of the array. *)
Lemma ramp_window_length smp r out :
  ramp_window smp r = Some out -> length out = length smp.
Proof.
  unfold ramp_window.
  destruct (imul (firstn r smp) (linspace 0 1 r)) as [head|] eqn:E1;
    [|discriminate].
  apply imul_length in E1.
  set (smp1 := head ++ skipn r smp).
  assert (H1 : length smp1 = length smp).
  { unfold smp1. rewrite length_app, E1, <- length_app, firstn_skipn.
    reflexivity. }
  set (start := if (r =? 0)%nat then 0%nat else (length smp1 - r)%nat).
  destruct (imul (skipn start smp1) (linspace 1 0 r)) as [tail|] eqn:E2;
    [|discriminate].
  apply imul_length in E2. intros [= <-].
  rewrite length_app, E2, <- length_app, firstn_skipn. exact H1.
Qed.

Lemma ramp_window_None_iff (smp : list Q) (ramp_size : nat) :
  ramp_window smp ramp_size = None <->
  (ramp_size = 0%nat /\ smp <> []) \/
  (2 <= ramp_size /\ length smp < ramp_size)%nat.
Proof.
  unfold ramp_window.
  destruct (imul (firstn ramp_size smp) (linspace 0 1 ramp_size))
    as [head|] eqn:E1.
  - pose proof (imul_length _ _ _ E1) as Hh.
    assert (H1 : length (head ++ skipn ramp_size smp) = length smp).
    { rewrite length_app, Hh, <- length_app, firstn_skipn. reflexivity. }
    assert (Hok : (ramp_size <= length smp \/ ramp_size = 1)%nat).
    { destruct (Nat.le_gt_cases ramp_size (length smp)) as [H|H]; [auto|].
      right. destruct (Nat.eq_dec ramp_size 1) as [E|Hne]; [exact E|].
      exfalso.
      assert (Hn : imul (firstn ramp_size smp) (linspace 0 1 ramp_size) = None).
      { apply imul_None. rewrite length_linspace, length_firstn. lia. }
      congruence. }
    destruct (imul _ (linspace 1 0 ramp_size)) as [tail|] eqn:E2.
    + split; [discriminate|]. intros [[-> Hne]|[H2 Hlt]]; [|lia].
      exfalso. cbn [Nat.eqb] in E2. cbn [skipn] in E2.
      assert (Hn : imul (head ++ skipn 0 smp) (linspace 1 0 0) = None).
      { apply imul_None. rewrite H1. cbn [linspace length].
        destruct smp; [congruence | cbn [length]; lia]. }
      cbn [skipn] in Hn. congruence.
    + split; [|reflexivity]. intros _.
      apply imul_None in E2 as [Hl Hl1]. rewrite length_linspace in Hl, Hl1.
      rewrite length_skipn, H1 in Hl.
      destruct (Nat.eqb_spec ramp_size 0) as [->|Hr].
      * left. split; [reflexivity|]. intros ->. cbn in Hl. lia.
      * exfalso. lia.
  - split; [|reflexivity]. intros _.
    apply imul_None in E1 as [Hl Hl1]. rewrite length_linspace in Hl, Hl1.
    rewrite length_firstn in Hl. right. lia.
Qed.

(** [ramp_window] raises exactly for a ramp of length 0 on an array that
    is not empty and for a ramp of two or more samples that is longer
    than the array; in every other case, a ramp of one sample on an empty
    array included, it returns and the array keeps its length. *)
Theorem ramp_window_raises_iff (smp : list Q) (ramp_size : nat) :
  (ramp_window smp ramp_size = None <->
   (ramp_size = 0%nat /\ smp <> []) \/
   (2 <= ramp_size /\ length smp < ramp_size)%nat) /\
  (forall out, ramp_window smp ramp_size = Some out ->
               length out = length smp).
Proof.
  split; [apply ramp_window_None_iff | apply ramp_window_length].
Qed.

(** The call guarded by [0 < 2 * input_ramp_size < len(smp)] never
    raises and keeps the length; shorter blocks pass unchanged. *)
Theorem ramp_input_safe (input_ramp_size : nat) (smp : list Q) :
  exists out,
    ramp_input input_ramp_size smp = Some out /\
    length out = length smp /\
    ((length smp <= input_ramp_size * 2)%nat -> out = smp).
Proof.
  unfold ramp_input.
  destruct (Nat.ltb_spec 0 (input_ramp_size * 2)) as [H0|H0];
    destruct (Nat.ltb_spec (input_ramp_size * 2) (length smp)) as [H1|H1];
    cbn [andb]; try (exists smp; repeat split; reflexivity).
  destruct (ramp_window smp input_ramp_size) as [out|] eqn:E.
  - exists out. split; [reflexivity|].
    split; [apply (ramp_window_length _ _ _ E) | lia].
  - exfalso. apply ramp_window_None_iff in E. lia.
Qed.

Lemma length_roll smp shift : length (roll smp shift) = length smp.
Proof.
  unfold roll. destruct (length smp) as [|n] eqn:E; [exact E|].
  rewrite length_app, Nat.add_comm, <- length_app, firstn_skipn. exact E.
Qed.

(** After the inverse transform the shaping of a mixed block raises in
    exactly one case: a mode with extra output samples and an input block
    of a single sample, where the ramp has length 0.  In every other case
    the block keeps its length. *)
Theorem finish_block_raises_iff
  (mode : Assembler.keep_envelope_mode) (input_block_size : nat)
  (smp : list Q) :
  (1 <= input_block_size)%nat ->
  length smp = Assembler.mixed_rows mode input_block_size ->
  (finish_block (extra_output_samples mode input_block_size) smp = None <->
   mode <> Assembler.NoEnvelope /\ input_block_size = 1%nat) /\
  (forall out,
     finish_block (extra_output_samples mode input_block_size) smp = Some out ->
     length out = length smp).
Proof.
  intros HB Hlen.
  pose proof (AssemblerProofs.mixed_rows_ge mode input_block_size) as Hge.
  assert (Hrows : (2 <= Assembler.mixed_rows mode input_block_size)%nat).
  { unfold Assembler.mixed_rows, Assembler.fft_size,
      Assembler.output_block_size_samples.
    destruct mode.
    - pose proof (Nat.div_mod_eq (input_block_size * 2) 2).
      pose proof (Nat.mod_upper_bound (input_block_size * 2) 2). lia.
    - pose proof (Nat.div_mod_eq (input_block_size * 3) 2).
      pose proof (Nat.mod_upper_bound (input_block_size * 3) 2). lia.
    - pose proof (Nat.div_mod_eq (input_block_size * 3) 2).
      pose proof (Nat.mod_upper_bound (input_block_size * 3) 2). lia. }
  assert (Hextra : extra_output_samples mode input_block_size =
                   match mode with
                   | Assembler.NoEnvelope => 0%nat
                   | _ => input_block_size
                   end).
  { unfold extra_output_samples, Assembler.output_block_size_samples.
    destruct mode; lia. }
  pose proof (Nat.div_mod_eq input_block_size 2) as Hd.
  pose proof (Nat.mod_upper_bound input_block_size 2) as Hm.
  unfold finish_block. rewrite Hextra. split.
  - destruct mode.
    + cbn [Nat.ltb Nat.leb]. split; [discriminate | intros [H _]; congruence].
    + destruct (Nat.ltb_spec 0 input_block_size); [|lia]. cbv zeta.
      rewrite ramp_window_None_iff, length_roll. split.
      * intros [[H0 _]|[H2 Hlt]]; split; try discriminate; lia.
      * intros [_ ->]. left. split; [reflexivity|].
        intros E. apply (f_equal (@length Q)) in E.
        rewrite length_roll in E. cbn [length] in E. lia.
    + destruct (Nat.ltb_spec 0 input_block_size); [|lia]. cbv zeta.
      rewrite ramp_window_None_iff, length_roll. split.
      * intros [[H0 _]|[H2 Hlt]]; split; try discriminate; lia.
      * intros [_ ->]. left. split; [reflexivity|].
        intros E. apply (f_equal (@length Q)) in E.
        rewrite length_roll in E. cbn [length] in E. lia.
  - intros out. destruct (0 <? _)%nat.
    + intros E. apply ramp_window_length in E. rewrite E. apply length_roll.
    + intros [= <-]. reflexivity.
Qed.

Lemma finish_block_raises_iff_witness :
  (1 <= 1)%nat /\
  length [3; 4] = Assembler.mixed_rows Assembler.KeepEnvelope 1 /\
  finish_block (extra_output_samples Assembler.KeepEnvelope 1) [3; 4] = None.
Proof.
  assert (H1 : (1 <= 1)%nat) by lia.
  assert (H2 : length [3; 4] = Assembler.mixed_rows Assembler.KeepEnvelope 1)
    by reflexivity.
  split; [exact H1|]. split; [exact H2|].
  apply (proj1 (finish_block_raises_iff Assembler.KeepEnvelope 1 [3; 4] H1 H2)).
  split; [discriminate | reflexivity].
Defined.

(** *** The ramps *)

Lemma linspace_up_unit n w : In w (linspace 0 1 n) -> 0 <= w <= 1.
Proof.
  destruct n as [|[|n]]; cbn [linspace].
  - intros [].
  - intros [<-|[]]. lra.
  - intros H. apply in_map_iff in H as (i & <- & Hi). apply in_seq in Hi.
    set (d := inject_Z (Z.of_nat (S (S n) - 1))).
    set (q := inject_Z (Z.of_nat i)).
    assert (Hd : 0 < d).
    { unfold d. change 0 with (inject_Z 0). rewrite <- Zlt_Qlt. lia. }
    assert (Hq : 0 <= q <= d).
    { unfold q, d. change 0 with (inject_Z 0). rewrite <- !Zle_Qle. lia. }
    assert (E : 0 + q * ((1 - 0) / d) == q / d) by (field; lra).
    rewrite E. split.
    + apply Qle_shift_div_l; [exact Hd | lra].
    + apply Qle_shift_div_r; [exact Hd | lra].
Qed.

Lemma linspace_down_unit n w : In w (linspace 1 0 n) -> 0 <= w <= 1.
Proof.
  destruct n as [|[|n]]; cbn [linspace].
  - intros [].
  - intros [<-|[]]. lra.
  - intros H. apply in_map_iff in H as (i & <- & Hi). apply in_seq in Hi.
    set (d := inject_Z (Z.of_nat (S (S n) - 1))).
    set (q := inject_Z (Z.of_nat i)).
    assert (Hd : 0 < d).
    { unfold d. change 0 with (inject_Z 0). rewrite <- Zlt_Qlt. lia. }
    assert (Hq : 0 <= q <= d).
    { unfold q, d. change 0 with (inject_Z 0). rewrite <- !Zle_Qle. lia. }
    assert (E : 1 + q * ((0 - 1) / d) == 1 - q / d) by (field; lra).
    assert (H0 : 0 <= q / d) by (apply Qle_shift_div_l; [exact Hd | lra]).
    assert (H1 : q / d <= 1) by (apply Qle_shift_div_r; [exact Hd | lra]).
    rewrite E. split; lra.
Qed.

(** The first weight of the rising ramp is 0. *)
Lemma linspace_up_head n :
  (1 <= n)%nat -> exists w rest, linspace 0 1 n = w :: rest /\ w == 0.
Proof.
  intros Hn. destruct n as [|[|n]]; [lia| |].
  - exists 0, []. split; reflexivity.
  - cbn [linspace seq map]. eexists. eexists. split; [reflexivity|].
    change (inject_Z (Z.of_nat 0)) with 0. lra.
Qed.

(** The last weight of the falling ramp is 0 when the ramp has two or
    more samples. *)
Lemma linspace_down_last n :
  (2 <= n)%nat -> exists front w, linspace 1 0 n = front ++ [w] /\ w == 0.
Proof.
  intros Hn. destruct n as [|[|n]]; try lia.
  unfold linspace. rewrite seq_S, map_app. cbn [map Nat.add].
  eexists. eexists. split; [reflexivity|].
  replace (S (S n) - 1)%nat with (S n) by lia.
  assert (Hd : 0 < inject_Z (Z.of_nat (S n))).
  { change 0 with (inject_Z 0). rewrite <- Zlt_Qlt. lia. }
  field. lra.
Qed.

Lemma mul_unit_abs x w : 0 <= w <= 1 -> Qabs (x * w) <= Qabs x.
Proof.
  intros [H0 H1]. rewrite Qabs_Qmult, (Qabs_pos w H0).
  pose proof (Qabs_nonneg x) as Hx.
  rewrite <- (Qmult_1_r (Qabs x)) at 2.
  rewrite (Qmult_comm (Qabs x) w), (Qmult_comm (Qabs x) 1).
  apply Qmult_le_compat_r; assumption.
Qed.

(** *** A ramp on each side *)

Lemma ramp_window_form smp r :
  (1 <= r)%nat -> (r * 2 <= length smp)%nat ->
  ramp_window smp r =
  Some (Arrays.zip_with Qmult (firstn r smp) (linspace 0 1 r) ++
        firstn (length smp - r - r) (skipn r smp) ++
        Arrays.zip_with Qmult (skipn (length smp - r) smp) (linspace 1 0 r)).
Proof.
  intros H1 H2. unfold ramp_window.
  rewrite imul_same by (rewrite length_linspace, length_firstn; lia).
  set (head := Arrays.zip_with Qmult (firstn r smp) (linspace 0 1 r)).
  assert (Hh : length head = r).
  { unfold head. rewrite EnvelopeProofs.length_zip_with, length_firstn,
      length_linspace. lia. }
  assert (Hl : length (head ++ skipn r smp) = length smp).
  { rewrite length_app, length_skipn, Hh. lia. }
  destruct (Nat.eqb_spec r 0) as [|_]; [lia|]. rewrite Hl.
  assert (Hs : skipn (length smp - r) (head ++ skipn r smp) =
               skipn (length smp - r) smp).
  { rewrite skipn_app, Hh, skipn_all2 by lia. cbn [app].
    rewrite skipn_skipn. f_equal. lia. }
  assert (Hf : firstn (length smp - r) (head ++ skipn r smp) =
               head ++ firstn (length smp - r - r) (skipn r smp)).
  { rewrite firstn_app, Hh, firstn_all2 by lia. reflexivity. }
  rewrite Hs, Hf.
  rewrite imul_same by (rewrite length_linspace, length_skipn; lia).
  rewrite <- app_assoc. reflexivity.
Qed.

Lemma zip_unit_abs (x : list Q) : forall w,
  length w = length x -> Forall (fun v => 0 <= v <= 1) w ->
  Forall2 (fun y a => Qabs y <= Qabs a) (Arrays.zip_with Qmult x w) x.
Proof.
  induction x as [|a x IH]; intros [|v w] Hlen Hw; cbn [Arrays.zip_with];
    try discriminate; [constructor|].
  apply Forall_cons_iff in Hw as [Hv Hw]. constructor.
  - apply mul_unit_abs, Hv.
  - apply IH; [cbn in Hlen; lia | exact Hw].
Qed.

Lemma zip_with_app {A B D : Type} (f : A -> B -> D) a : forall b c d,
  length a = length b ->
  Arrays.zip_with f (a ++ c) (b ++ d) =
  Arrays.zip_with f a b ++ Arrays.zip_with f c d.
Proof.
  induction a as [|x a IH]; intros [|y b] c d Hlen; try discriminate;
    [reflexivity|].
  cbn [app Arrays.zip_with]. f_equal. apply IH. cbn in Hlen. lia.
Qed.

(** For a ramp of [ramp_size >= 1] samples on an array at least twice as
    long, as at both call sites, [ramp_window] returns an array of the
    same length whose samples between the two ramps are unchanged, in
    which no sample has grown in magnitude and the first sample is 0; the
    last sample is 0 as well when the ramp has two or more samples. *)
Theorem ramp_window_effect (smp : list Q) (ramp_size : nat) :
  (1 <= ramp_size)%nat -> (ramp_size * 2 <= length smp)%nat ->
  exists out,
    ramp_window smp ramp_size = Some out /\
    length out = length smp /\
    firstn (length smp - ramp_size - ramp_size) (skipn ramp_size out) =
    firstn (length smp - ramp_size - ramp_size) (skipn ramp_size smp) /\
    Forall2 (fun y x => Qabs y <= Qabs x) out smp /\
    (exists y rest, out = y :: rest /\ y == 0) /\
    ((2 <= ramp_size)%nat -> exists front y, out = front ++ [y] /\ y == 0).
Proof.
  intros H1 H2. pose proof (ramp_window_form smp ramp_size H1 H2) as E.
  set (r := ramp_size) in *. set (n := length smp) in *.
  set (A := Arrays.zip_with Qmult (firstn r smp) (linspace 0 1 r)) in *.
  set (M := firstn (n - r - r) (skipn r smp)) in *.
  set (Z := Arrays.zip_with Qmult (skipn (n - r) smp) (linspace 1 0 r)) in *.
  assert (HA : length A = r).
  { unfold A. rewrite EnvelopeProofs.length_zip_with, length_firstn,
      length_linspace. fold n. lia. }
  assert (HM : length M = (n - r - r)%nat).
  { unfold M. rewrite length_firstn, length_skipn. fold n. lia. }
  exists (A ++ M ++ Z). split; [exact E|].
  split; [apply (ramp_window_length _ _ _ E)|]. split; [|split; [|split]].
  - rewrite skipn_app, HA, skipn_all2, Nat.sub_diag by lia. cbn [app skipn].
    rewrite firstn_app, HM, Nat.sub_diag, firstn_all2 by lia.
    cbn [firstn]. apply app_nil_r.
  - assert (Hsmp : smp = firstn r smp ++ M ++ skipn (n - r) smp).
    { unfold M. rewrite <- (firstn_skipn r smp) at 1. f_equal.
      rewrite <- (firstn_skipn (n - r - r) (skipn r smp)) at 1. f_equal.
      rewrite skipn_skipn. f_equal. lia. }
    enough (HF : Forall2 (fun y x => Qabs y <= Qabs x) (A ++ M ++ Z)
                         (firstn r smp ++ M ++ skipn (n - r) smp))
      by (rewrite Hsmp; exact HF).
    apply Forall2_app; [|apply Forall2_app].
    + apply zip_unit_abs.
      * rewrite length_linspace, length_firstn. fold n. lia.
      * apply Forall_forall. intros w. apply linspace_up_unit.
    + clear. induction M; constructor; [apply Qle_refl | assumption].
    + apply zip_unit_abs.
      * rewrite length_linspace, length_skipn. fold n. lia.
      * apply Forall_forall. intros w. apply linspace_down_unit.
  - destruct (linspace_up_head r H1) as (w & rest & Ew & Hw).
    destruct (firstn r smp) as [|x0 t] eqn:Ef.
    { apply (f_equal (@length Q)) in Ef. rewrite length_firstn in Ef.
      fold n in Ef. cbn in Ef. lia. }
    unfold A. rewrite Ew. cbn [Arrays.zip_with app].
    eexists. eexists. split; [reflexivity|]. rewrite Hw. lra.
  - intros Hr. destruct (linspace_down_last r Hr) as (front & w & Ew & Hw).
    assert (Hlen : length (skipn (n - r) smp) = r)
      by (rewrite length_skipn; fold n; lia).
    destruct (exists_last (l := skipn (n - r) smp)) as (t & x & Et).
    { intros E0. rewrite E0 in Hlen. cbn in Hlen. lia. }
    assert (Hfront : length t = length front).
    { apply (f_equal (@length Q)) in Ew. rewrite Et in Hlen.
      rewrite length_linspace in Ew. rewrite !length_app in *.
      cbn [length] in *. lia. }
    unfold Z. rewrite Et, Ew, (zip_with_app _ _ _ _ _ Hfront).
    cbn [Arrays.zip_with]. exists (A ++ M ++ Arrays.zip_with Qmult t front).
    eexists. split; [rewrite <- !app_assoc; reflexivity|]. rewrite Hw. lra.
Qed.

Lemma ramp_window_effect_witness :
  let smp := [4; 4; 4; 4; 4; 4; 4; 4] in
  (1 <= 3)%nat /\ (3 * 2 <= length smp)%nat /\
  exists out,
    ramp_window smp 3 = Some out /\ length out = length smp.
Proof.
  intros smp.
  assert (H1 : (1 <= 3)%nat) by lia.
  assert (H2 : (3 * 2 <= length smp)%nat) by (cbn; lia).
  split; [exact H1|]. split; [exact H2|].
  destruct (ramp_window_effect smp 3 H1 H2) as (out & E & Hl & _).
  exists out. split; assumption.
Defined.

End WindowProofs.

(** ** Overlap-add: every hop is the sum of the segments under it *)

Module OverlapAddProofs.
Import Assembler OverlapAdd.
Open Scope nat_scope.

Lemma filter_map_comm {A B : Type} (p : B -> bool) (f : A -> B) l :
  filter p (map f l) = map f (filter (fun x => p (f x)) l).
Proof.
  induction l as [|a l IH]; [reflexivity|]. cbn [map filter].
  destruct (p (f a)); cbn [map]; rewrite IH; reflexivity.
Qed.

Lemma filter_filter {A : Type} (p q : A -> bool) l :
  filter q (filter p l) = filter (fun x => p x && q x) l.
Proof.
  induction l as [|a l IH]; [reflexivity|]. cbn [filter].
  destruct (p a); cbn [filter andb]; [destruct (q a)|]; rewrite IH;
    reflexivity.
Qed.

Lemma fold_left_map {A B D : Type} (g : D -> B -> D) (h : A -> B) l : forall a,
  fold_left (fun r x => g r (h x)) l a = fold_left g (map h l) a.
Proof. induction l as [|x l IH]; intros a; [reflexivity | apply IH]. Qed.

(** One iteration of the output loop, started with the tails that the
    earlier iterations leave. *)
Lemma hop_tails B (blocks : list block) k :
  1 <= B -> B <= length (nth k blocks []) ->
  hop B (tails B blocks k) (nth k blocks []) =
  (hop_sum B blocks k, tails B blocks (S k)).
Proof.
  intros HB Hk. unfold hop, tails.
  rewrite filter_map_comm, filter_filter.
  assert (Hcov :
    filter (fun j => ((k - j) * B <=? length (nth j blocks [])) &&
                     (B <=? length (skipn ((k - j) * B) (nth j blocks []))))
           (seq 0 k) = covering B blocks k).
  { unfold covering. apply filter_ext. intros j. rewrite length_skipn.
    destruct (Nat.leb_spec ((k - j) * B) (length (nth j blocks []))),
      (Nat.leb_spec B (length (nth j blocks []) - (k - j) * B)),
      (Nat.leb_spec ((k - j + 1) * B) (length (nth j blocks [])));
      cbn [andb]; try reflexivity; nia. }
  rewrite Hcov. f_equal.
  - unfold hop_sum.
    rewrite (fold_left_map add_rows (firstn B)), map_map. reflexivity.
  - rewrite map_map, seq_S, filter_app, map_app. cbn [filter Nat.add].
    replace (S k - k) with 1 by lia. rewrite Nat.mul_1_l.
    destruct (Nat.leb_spec B (length (nth k blocks []))); [|lia].
    cbn [map]. f_equal.
    + assert (Hf : filter (fun j => (S k - j) * B <=? length (nth j blocks []))
                     (seq 0 k) = covering B blocks k).
      { unfold covering. apply filter_ext_in. intros j Hj.
        apply in_seq in Hj. replace (S k - j) with (k - j + 1) by lia.
        reflexivity. }
      rewrite Hf. apply map_ext_in. intros j Hj.
      unfold covering in Hj. apply filter_In in Hj as [Hj _].
      apply in_seq in Hj. rewrite skipn_skipn. f_equal. nia.
    + replace (S k - k) with 1 by lia. rewrite Nat.mul_1_l. reflexivity.
Qed.

Lemma skipn_nth_cons {A : Type} (d : A) l k :
  k < length l -> skipn k l = nth k l d :: skipn (S k) l.
Proof.
  revert k. induction l as [|a l IH]; intros k Hk; [cbn in Hk; lia|].
  destruct k as [|k]; [reflexivity|]. cbn [skipn nth]. apply IH.
  cbn in Hk. lia.
Qed.

Lemma assemble_from_tails B gain (blocks : list block) :
  1 <= B -> Forall (fun b => B <= length b) blocks ->
  forall n k, k + n = length blocks ->
    assemble_from B gain (tails B (map (scale gain) blocks) k)
                  (skipn k blocks) =
    map (hop_sum B (map (scale gain) blocks)) (seq k n).
Proof.
  intros HB Hlen. induction n as [|n IH]; intros k Hk.
  - rewrite skipn_all2 by lia. reflexivity.
  - rewrite (skipn_nth_cons (A := block) [] blocks k) by lia.
    cbn [assemble_from seq map].
    assert (Hnth : scale gain (nth k blocks []) =
                   nth k (map (scale gain) blocks) []).
    { change (@nil row) with (scale gain []) at 2. rewrite map_nth.
      reflexivity. }
    rewrite Hnth, hop_tails.
    + f_equal. apply IH. lia.
    + exact HB.
    + rewrite <- Hnth, AssemblerProofs.length_scale.
      rewrite Forall_forall in Hlen. apply Hlen, nth_In. lia.
Qed.

Lemma filter_ge_seq lo n : forall s,
  filter (fun j => lo <=? j) (seq s n) =
  seq (Nat.max lo s) (s + n - Nat.max lo s).
Proof.
  induction n as [|n IH]; intros s; cbn [seq filter].
  - replace (s + 0 - Nat.max lo s) with 0 by lia. reflexivity.
  - rewrite IH. destruct (Nat.leb_spec lo s) as [H|H].
    + rewrite !Nat.max_r by lia.
      replace (s + S n - s) with (S (S s + n - S s)) by lia. reflexivity.
    + replace (Nat.max lo (S s)) with (Nat.max lo s) by lia.
      f_equal. lia.
Qed.

(** When all blocks have [rows] rows, the blocks that cover hop [k] are
    the [rows // B - 1] blocks before it. *)
Lemma covering_window B rows (blocks : list block) k :
  1 <= B -> k < length blocks ->
  Forall (fun b => length b = rows) blocks ->
  covering B blocks k = seq (k - (rows / B - 1)) (k - (k - (rows / B - 1))).
Proof.
  intros HB Hk Hrows. unfold covering.
  rewrite (filter_ext_in _ (fun j => k - (rows / B - 1) <=? j)).
  - rewrite filter_ge_seq. f_equal; lia.
  - intros j Hj. apply in_seq in Hj. rewrite Forall_forall in Hrows.
    rewrite (Hrows (nth j blocks [])) by (apply nth_In; lia).
    pose proof (Nat.Div0.mul_div_le rows B) as Hmd.
    destruct (Nat.leb_spec ((k - j + 1) * B) rows) as [H|H],
      (Nat.leb_spec (k - (rows / B - 1)) j) as [H'|H']; try reflexivity.
    + exfalso.
      assert (k - j + 1 <= rows / B)
        by (apply Nat.div_le_lower_bound; lia). lia.
    + exfalso. assert (k - j + 1 <= rows / B) by lia. nia.
Qed.

Lemma assemble_from_hop_window B rows gain (blocks : list block) :
  1 <= B -> B <= rows -> Forall (fun b => length b = rows) blocks ->
  assemble_from B gain [] blocks =
  map (hop_window B rows (map (scale gain) blocks)) (seq 0 (length blocks)).
Proof.
  intros HB Hrows Hlen.
  pose proof (assemble_from_tails B gain blocks HB) as H.
  specialize (H (Forall_impl _ (fun b (E : length b = rows) =>
                   eq_ind_r (fun n => B <= n) Hrows E) Hlen)
                (length blocks) 0 eq_refl).
  cbn [skipn] in H. unfold tails in H. cbn [seq filter map] in H.
  etransitivity; [exact H|].
  apply map_ext_in. intros k Hk. apply in_seq in Hk.
  unfold hop_sum, hop_window. rewrite (covering_window _ rows).
  - reflexivity.
  - exact HB.
  - rewrite length_map. lia.
  - rewrite Forall_map. eapply Forall_impl; [|exact Hlen].
    intros b Hb. rewrite AssemblerProofs.length_scale. exact Hb.
Qed.

(** Every mixed block contributes to exactly [rows // input_block_size]
    consecutive hops: hop [k] is the head of block [k] plus, oldest
    first, the segments of the [rows // input_block_size - 1] blocks
    before it that lie under it. *)
Theorem overlap_add_hops
  (input_block_size rows nchannels : nat) (mixed : list (list (list Q))) :
  1 <= input_block_size -> input_block_size <= rows -> 1 <= nchannels ->
  Forall (shaped rows nchannels) mixed ->
  assemble input_block_size mixed =
  map (hop_window input_block_size rows
         (map (scale ((7 # 10) / max_smp mixed)) (map dstack mixed)))
      (seq 0 (length mixed)).
Proof.
  intros HB Hrows Hnch Hshape. unfold assemble.
  rewrite (assemble_from_hop_window input_block_size rows), length_map.
  - reflexivity.
  - exact HB.
  - exact Hrows.
  - rewrite Forall_map. eapply Forall_impl; [|exact Hshape].
    intros m Hm. apply (AssemblerProofs.length_dstack rows nchannels);
      assumption.
Qed.

Lemma overlap_add_hops_witness :
  let mixed := [ [[1; 2; 3; 4]]; [[5; 6; 7; 8]]; [[9; 10; 11; 12]] ]%Q in
  1 <= 2 /\ 2 <= 4 /\ 1 <= 1 /\ Forall (shaped 4 1) mixed /\
  assemble 2 mixed =
  map (hop_window 2 4
         (map (scale ((7 # 10) / max_smp mixed)) (map dstack mixed)))
      (seq 0 (length mixed)).
Proof.
  intros mixed.
  assert (Hs : Forall (shaped 4 1) mixed) by (repeat constructor).
  assert (H1 : 1 <= 2) by lia. assert (H2 : 2 <= 4) by lia.
  assert (H3 : 1 <= 1) by lia.
  split; [exact H1|]. split; [exact H2|]. split; [exact H3|].
  split; [exact Hs|]. exact (overlap_add_hops 2 4 1 mixed H1 H2 H3 Hs).
Defined.

Lemma firstn_skipn_firstn {A} B m r (x : list A) :
  m + B <= r -> firstn B (skipn m (firstn r x)) = firstn B (skipn m x).
Proof.
  intros H. rewrite skipn_firstn_comm, firstn_firstn.
  f_equal. lia.
Qed.

Lemma nth_map_default {A B} (f : A -> B) d d' l k :
  f d = d' -> nth k (map f l) d' = f (nth k l d).
Proof. intros <-. apply map_nth. Qed.

Lemma nth_scale_firstn gain r (blocks : list block) k :
  nth k (map (scale gain) (map (firstn r) blocks)) [] =
  firstn r (nth k (map (scale gain) blocks) []).
Proof.
  unfold block, row in *.
  assert (E1 : forall l : list (list (list Q)),
             nth k (map (scale gain) l) [] = scale gain (nth k l []))
    by (intros l; apply (nth_map_default (scale gain)); reflexivity).
  assert (E2 : nth k (map (firstn r) blocks) [] = firstn r (nth k blocks []))
    by (apply (nth_map_default (firstn r)), firstn_nil).
  rewrite !E1, E2. unfold scale. symmetry. apply firstn_map.
Qed.

Lemma assemble_from_truncate B rows gain (blocks : list block) :
  1 <= B -> B <= rows -> Forall (fun b => length b = rows) blocks ->
  assemble_from B gain [] blocks =
  assemble_from B gain [] (map (firstn (used_rows B rows)) blocks).
Proof.
  intros HB Hrows Hlen. unfold used_rows.
  pose proof (Nat.Div0.mul_div_le rows B) as Hle.
  assert (Hq : 1 <= rows / B) by (apply Nat.div_le_lower_bound; lia).
  rewrite (assemble_from_hop_window B rows gain blocks HB Hrows Hlen).
  rewrite (assemble_from_hop_window B (rows / B * B) gain
             (map (firstn (rows / B * B)) blocks) HB).
  - rewrite length_map. apply map_ext_in. intros k Hk.
    unfold hop_window. rewrite Nat.div_mul by lia.
    rewrite nth_scale_firstn, firstn_firstn.
    replace (Nat.min B (rows / B * B)) with B by nia.
    f_equal. apply map_ext_in. intros j Hj. apply in_seq in Hj.
    unfold segment. rewrite nth_scale_firstn.
    symmetry. apply firstn_skipn_firstn. nia.
  - nia.
  - rewrite Forall_map. eapply Forall_impl; [|exact Hlen].
    intros b Hb. cbv beta in *. rewrite length_firstn. lia.
Qed.

Lemma mixed_rows_by_mode mode B :
  mixed_rows mode B =
  match mode with
  | NoEnvelope => 2 * B
  | _ => if Nat.odd B then 3 * B - 1 else 3 * B
  end.
Proof.
  unfold mixed_rows, fft_size, output_block_size_samples.
  destruct mode.
  - rewrite Nat.div_mul by lia. lia.
  - destruct (Nat.odd B) eqn:E.
    + apply Nat.odd_spec in E as [m ->].
      replace ((2 * m + 1) * 3) with (1 + (3 * m + 1) * 2) by lia.
      rewrite Nat.div_add by lia. cbn [Nat.div Nat.divmod fst]. lia.
    + rewrite <- Nat.negb_even in E. apply negb_false_iff in E.
      apply Nat.even_spec in E as [m ->].
      replace (2 * m * 3) with ((3 * m) * 2) by lia.
      rewrite Nat.div_mul by lia. lia.
  - destruct (Nat.odd B) eqn:E.
    + apply Nat.odd_spec in E as [m ->].
      replace ((2 * m + 1) * 3) with (1 + (3 * m + 1) * 2) by lia.
      rewrite Nat.div_add by lia. cbn [Nat.div Nat.divmod fst]. lia.
    + rewrite <- Nat.negb_even in E. apply negb_false_iff in E.
      apply Nat.even_spec in E as [m ->].
      replace (2 * m * 3) with ((3 * m) * 2) by lia.
      rewrite Nat.div_mul by lia. lia.
Qed.

(** Only the first [rows // input_block_size * input_block_size] samples
    of a mixed block reach the output.  Without envelope handling a mixed
    block has [2 * input_block_size] samples and all are used.  In the two
    envelope modes a block has [3 * input_block_size] samples, all used,
    when the block size is even; when it is odd the block has
    [3 * input_block_size - 1] samples and the output is the same as if
    each block were cut to its first [2 * input_block_size] samples. *)
Theorem written_part_by_mode
  (mode : keep_envelope_mode) (input_block_size : nat) (gain : Q)
  (blocks : list block) :
  1 <= input_block_size ->
  Forall (fun b => length b = mixed_rows mode input_block_size) blocks ->
  assemble_from input_block_size gain [] blocks =
  assemble_from input_block_size gain []
    (map (firstn (used_rows input_block_size
                    (mixed_rows mode input_block_size))) blocks) /\
  mixed_rows mode input_block_size =
    match mode with
    | NoEnvelope => 2 * input_block_size
    | _ => if Nat.odd input_block_size
           then 3 * input_block_size - 1 else 3 * input_block_size
    end /\
  used_rows input_block_size (mixed_rows mode input_block_size) =
    match mode with
    | NoEnvelope => 2 * input_block_size
    | _ => if Nat.odd input_block_size
           then 2 * input_block_size else 3 * input_block_size
    end.
Proof.
  intros HB Hlen. pose proof (mixed_rows_by_mode mode input_block_size) as HR.
  split; [|split].
  - apply assemble_from_truncate; [exact HB| |exact Hlen].
    rewrite HR. destruct mode; [lia| |]; destruct (Nat.odd _); lia.
  - exact HR.
  - unfold used_rows. rewrite HR.
    assert (H2 : (2 * input_block_size) / input_block_size = 2)
      by (symmetry; apply (Nat.div_unique _ _ 2 0); lia).
    assert (H3 : (3 * input_block_size) / input_block_size = 3)
      by (symmetry; apply (Nat.div_unique _ _ 3 0); lia).
    assert (H3' : (3 * input_block_size - 1) / input_block_size = 2).
    { symmetry. apply (Nat.div_unique _ _ 2 (input_block_size - 1)); lia. }
    destruct mode; [rewrite H2; lia| |];
      (destruct (Nat.odd _); [rewrite H3'|rewrite H3]; lia).
Qed.

Lemma written_part_by_mode_witness :
  let blocks := [ [[1]; [2]; [3]; [4]; [5]; [6]; [7]; [8]];
                  [[8]; [7]; [6]; [5]; [4]; [3]; [2]; [1]] ]%Q in
  1 <= 3 /\
  Forall (fun b : block => length b = mixed_rows KeepEnvelope 3) blocks /\
  assemble_from 3 1 [] blocks =
  assemble_from 3 1 []
    (map (firstn (used_rows 3 (mixed_rows KeepEnvelope 3))) blocks).
Proof.
  intros blocks.
  assert (H1 : 1 <= 3) by lia.
  assert (Hl : Forall (fun b : block => length b = mixed_rows KeepEnvelope 3)
                      blocks) by (repeat constructor).
  split; [exact H1|]. split; [exact Hl|].
  exact (proj1 (written_part_by_mode KeepEnvelope 3 1 blocks H1 Hl)).
Defined.

End OverlapAddProofs.


(** ** The smoothed envelope against the accumulated one *)

Module EnvelopeMore.
Import Numeric Envelope.
Open Scope Q_scope.

Lemma reflect_inside n i : (i < n)%nat -> reflect n (Z.of_nat i) = i.
Proof.
  intros H. unfold reflect. rewrite Z.mod_small by lia.
  destruct (Z.ltb_spec (Z.of_nat i) (Z.of_nat n)); lia.
Qed.

Lemma reflect_lt n i : (0 < n)%nat -> (reflect n i < n)%nat.
Proof.
  intros H. unfold reflect.
  pose proof (Z.mod_pos_bound i (2 * Z.of_nat n)) as Hm.
  destruct (Z.ltb_spec (i mod (2 * Z.of_nat n)) (Z.of_nat n)); lia.
Qed.

Lemma window_centre x size i :
  (i < length x)%nat -> window x size i (size / 2) = nth i x 0.
Proof.
  intros H. unfold window.
  replace (Z.of_nat i + Z.of_nat (size / 2) - Z.of_nat (size / 2))%Z
    with (Z.of_nat i) by lia.
  rewrite reflect_inside by exact H. reflexivity.
Qed.

Lemma maximum_filter1d_ge x size i :
  (1 <= size)%nat -> (i < length x)%nat ->
  nth i x 0 <= nth i (maximum_filter1d x size) 0.
Proof.
  intros Hs Hi. rewrite <- (window_centre x size i Hi).
  apply EnvelopeProofs.maximum_filter1d_window; [exact Hs | exact Hi|].
  apply Nat.div_lt; lia.
Qed.

Lemma maximum_filter1d_attained x size i :
  (1 <= size)%nat -> (i < length x)%nat ->
  exists j, (j < length x)%nat /\
            nth i (maximum_filter1d x size) 0 = nth j x 0.
Proof.
  intros Hs Hi.
  destruct (EnvelopeProofs.maximum_filter1d_window x size i Hs Hi)
    as [_ (j & _ & ->)].
  unfold window. eexists. split; [|reflexivity]. apply reflect_lt. lia.
Qed.

(** The smoothed envelope never falls below the accumulated one.  For an
    envelope of single-precision numbers that are not negative, every
    bin of the result is at least the same bin of the input (the
    single-precision sum may absorb the [1e-9], so the two can be
    equal), and it is the single-precision sum of some bin of the input
    and [1e-9], so the smoothing invents no value. *)
Theorem smooth_dominates (fft_size sample_rate : nat) (envelope : list Q)
  (i : nat) :
  Forall (fun m => 0 <= m /\ Float32.round_f32 m == m) envelope ->
  (i < length envelope)%nat ->
  nth i envelope 0 <= nth i (smooth fft_size sample_rate envelope) 0 /\
  exists j, (j < length envelope)%nat /\
    nth i (smooth fft_size sample_rate envelope) 0 =
    Float32.fadd32 (nth j envelope 0) epsilon32.
Proof.
  intros Henv Hi.
  pose proof (EnvelopeProofs.filter_size_ge_2 fft_size sample_rate) as Hs.
  rewrite EnvelopeProofs.smooth_nth by exact Hi. split.
  - pose proof (maximum_filter1d_ge envelope
                  (filter_size fft_size sample_rate) i ltac:(lia) Hi) as Hge.
    pose proof EnvelopeProofs.epsilon32_pos as Hp.
    rewrite Forall_forall in Henv.
    destruct (Henv (nth i envelope 0) (nth_In _ _ Hi)) as [H0 Hr].
    apply Float32Proofs.round_f32_above; [exact H0 | exact Hr | lra].
  - destruct (maximum_filter1d_attained envelope
                (filter_size fft_size sample_rate) i ltac:(lia) Hi)
      as (j & Hj & ->).
    exists j. split; [exact Hj | reflexivity].
Qed.

Lemma smooth_dominates_witness :
  let envelope := [3; 0; 1 # 32; 1] in
  Forall (fun m => 0 <= m /\ Float32.round_f32 m == m) envelope /\
  (2 < length envelope)%nat /\
  nth 2 envelope 0 <= nth 2 (smooth 4 2 envelope) 0.
Proof.
  intros envelope.
  assert (Hr : Forall (fun m => 0 <= m /\ Float32.round_f32 m == m) envelope).
  { repeat constructor; try discriminate; vm_compute; reflexivity. }
  assert (H : (2 < length envelope)%nat) by (cbn; lia).
  split; [exact Hr|]. split; [exact H|].
  exact (proj1 (smooth_dominates 4 2 envelope 2%nat Hr H)).
Defined.

End EnvelopeMore.


(** ** Normalisation of silent blocks *)

Module NormalisationProofs.
Import Numeric Assembler.
Open Scope Q_scope.

Lemma Forall2_map_same {A B} (R : B -> B -> Prop) (f g : A -> B) l :
  (forall x, In x l -> R (f x) (g x)) -> Forall2 R (map f l) (map g l).
Proof.
  induction l as [|a l IH]; intros H; cbn [map]; constructor.
  - apply H. left. reflexivity.
  - apply IH. intros x Hx. apply H. right. exact Hx.
Qed.

Lemma Forall2_firstn_rel {A} (R : A -> A -> Prop) n : forall l l',
  Forall2 R l l' -> Forall2 R (firstn n l) (firstn n l').
Proof.
  induction n as [|n IH]; intros l l' H; [constructor|].
  destruct H; cbn [firstn]; constructor; auto.
Qed.

Lemma Forall2_skipn_rel {A} (R : A -> A -> Prop) n : forall l l',
  Forall2 R l l' -> Forall2 R (skipn n l) (skipn n l').
Proof.
  induction n as [|n IH]; intros l l' H; [exact H|].
  destruct H; cbn [skipn]; [constructor | auto].
Qed.

Lemma Forall2_left {A B} (P : A -> Prop) (l : list A) (l' : list B) :
  Forall2 (fun x _ => P x) l l' -> Forall P l.
Proof. induction 1; constructor; assumption. Qed.

(** The output loop maps related blocks to related hops, for every
    relation on samples that addition respects. *)
Section Related.
Variable R : Q -> Q -> Prop.
Hypothesis R_plus : forall a a' b b', R a a' -> R b b' -> R (a + b) (a' + b').

Local Abbreviation BR := (Forall2 (Forall2 R)).

Lemma rel_zip_plus (a a' : row) :
  Forall2 R a a' -> forall b b' : row,
  Forall2 R b b' ->
  Forall2 R (Arrays.zip_with Qplus a b) (Arrays.zip_with Qplus a' b').
Proof.
  induction 1 as [|p p' a a' Hp Ha IH]; intros b b' Hb;
    [constructor|].
  destruct Hb as [|q q' b b' Hq Hb]; cbn [Arrays.zip_with]; constructor.
  - apply R_plus; assumption.
  - apply IH, Hb.
Qed.

Lemma rel_add_rows (x x' : block) :
  BR x x' -> forall y y' : block, BR y y' ->
  BR (add_rows x y) (add_rows x' y').
Proof.
  unfold add_rows.
  induction 1 as [|p p' x x' Hp Hx IH]; intros y y' Hy; [constructor|].
  destruct Hy as [|q q' y y' Hq Hy]; cbn [Arrays.zip_with]; constructor.
  - apply rel_zip_plus; assumption.
  - apply IH, Hy.
Qed.

Lemma rel_filter B (olds olds' : list block) :
  Forall2 BR olds olds' ->
  Forall2 BR (filter (fun o => (B <=? length o)%nat) olds)
             (filter (fun o => (B <=? length o)%nat) olds').
Proof.
  unfold block, row in *.
  induction 1 as [|o o' olds olds' Ho _ IH]; [constructor|].
  cbn [filter]. pose proof (Forall2_length Ho) as E.
  destruct (Nat.leb_spec B (length o)), (Nat.leb_spec B (length o'));
    try lia; [constructor|]; assumption.
Qed.

Lemma rel_fold B (olds olds' : list block) :
  Forall2 BR olds olds' -> forall r r' : block, BR r r' ->
  BR (fold_left (fun r old => add_rows r (firstn B old)) olds r)
     (fold_left (fun r old => add_rows r (firstn B old)) olds' r').
Proof.
  induction 1 as [|o o' olds olds' Ho _ IH]; intros r r' Hr;
    cbn [fold_left]; [exact Hr|].
  apply IH, rel_add_rows; [exact Hr | apply Forall2_firstn_rel, Ho].
Qed.

Lemma rel_hop B (olds olds' : list block) (cur cur' : block) :
  Forall2 BR olds olds' -> BR cur cur' ->
  BR (fst (hop B olds cur)) (fst (hop B olds' cur')) /\
  Forall2 BR (snd (hop B olds cur)) (snd (hop B olds' cur')).
Proof.
  intros Ho Hc. unfold hop. cbn [fst snd].
  pose proof (rel_filter B olds olds' Ho) as Hf. split.
  - apply rel_fold; [exact Hf | apply Forall2_firstn_rel, Hc].
  - apply Forall2_app.
    + induction Hf as [|o o' l l' Hoo _ IH]; cbn [map]; constructor;
        [apply Forall2_skipn_rel, Hoo | exact IH].
    + constructor; [apply Forall2_skipn_rel, Hc | constructor].
Qed.

Lemma rel_assemble_from B gain gain' (blocks blocks' : list block) :
  Forall2 (fun b b' => BR (scale gain b) (scale gain' b')) blocks blocks' ->
  forall olds olds', Forall2 BR olds olds' ->
  Forall2 BR (assemble_from B gain olds blocks)
             (assemble_from B gain' olds' blocks').
Proof.
  induction 1 as [|b b' blocks blocks' Hb _ IH]; intros olds olds' Ho;
    cbn [assemble_from]; [constructor|].
  destruct (rel_hop B olds olds' _ _ Ho Hb) as [H1 H2].
  destruct (hop B olds (scale gain b)) as [r o1].
  destruct (hop B olds' (scale gain' b')) as [r' o1'].
  cbn [fst snd] in H1, H2. constructor; [exact H1 | apply IH, H2].
Qed.

End Related.

(** *** Silence *)

Lemma zero_plus a b : a == 0 -> b == 0 -> a + b == 0.
Proof. intros Ha Hb. lra. Qed.

Lemma quantize_zero x : x == 0 -> quantize x = 0%Z.
Proof. intros E. rewrite (AssemblerProofs.quantize_comp x 0 E). reflexivity. Qed.

Lemma nth_zero r (smp : list Q) :
  (forall x, In x smp -> x == 0) -> nth r smp 0 == 0.
Proof.
  revert r. induction smp as [|a smp IH]; intros [|r] H; cbn [nth];
    try reflexivity.
  - apply H. left. reflexivity.
  - apply IH. intros x Hx. apply H. right. exact Hx.
Qed.

Lemma dstack_zero gain chans :
  (forall smp x, In smp chans -> In x smp -> x == 0) ->
  Forall2 (Forall2 (fun x _ : Q => x == 0))
          (scale gain (dstack chans)) (scale gain (dstack chans)).
Proof.
  intros H. unfold scale, dstack. destruct chans as [|smp0 t] eqn:E;
    [constructor|]. rewrite <- E in *. clear E.
  rewrite map_map. apply Forall2_map_same. intros r _.
  rewrite map_map. apply Forall2_map_same. intros smp Hsmp. cbv beta.
  rewrite (nth_zero r smp (fun x => H smp x Hsmp)). lra.
Qed.

(** Silent mixed blocks give a silent file: [max_smp] stays at its initial
    [1e-6], so the normalisation divides by a non-zero number, and every
    sample written is 0.  The blocks may have any shape. *)
Theorem silence_stays_silent (input_block_size : nat)
  (mixed : list (list (list Q))) :
  (forall chans smp x, In chans mixed -> In smp chans -> In x smp -> x == 0) ->
  max_smp mixed == peak_floor /\
  forall fr q, In fr (written input_block_size mixed) -> In q fr -> q = 0%Z.
Proof.
  intros Hzero. split.
  - pose proof (AssemblerProofs.max_smp_floor mixed) as Hfloor.
    destruct (AssemblerProofs.track_groups_cases mixed peak_floor)
      as [E|(chans & smp & Hc & Hs & E)]; fold (max_smp mixed) in E.
    + rewrite E. reflexivity.
    + exfalso. destruct smp as [|a t] eqn:Esmp.
      * rewrite E in Hfloor. revert Hfloor. vm_compute. intros H. apply H.
        reflexivity.
      * destruct (AssemblerProofs.max_current_smp_attained (a :: t))
          as (y & Hy & Ey); [discriminate|].
        rewrite E, <- Ey, (Qabs_wd _ _ (Hzero chans (a :: t) y Hc Hs Hy))
          in Hfloor.
        revert Hfloor. vm_compute. intros H. apply H. reflexivity.
  - intros fr q Hfr Hq. unfold written, assemble in Hfr.
    apply in_concat in Hfr as (frames & Hframes & Hfr).
    apply in_map_iff in Hframes as (hopk & <- & Hhop).
    unfold output_buf in Hfr.
    apply in_map_iff in Hfr as (rw & <- & Hrw).
    apply in_map_iff in Hq as (y & <- & Hy).
    apply quantize_zero.
    pose proof (rel_assemble_from (fun x _ => x == 0)
                  (fun a _ b _ => zero_plus a b)
                  input_block_size ((7 # 10) / max_smp mixed)
                  ((7 # 10) / max_smp mixed)
                  (map dstack mixed) (map dstack mixed)) as H.
    assert (Hb : Forall2 (fun b b' : block =>
                   Forall2 (Forall2 (fun x _ : Q => x == 0))
                     (scale ((7 # 10) / max_smp mixed) b)
                     (scale ((7 # 10) / max_smp mixed) b'))
                   (map dstack mixed) (map dstack mixed)).
    { apply Forall2_map_same. intros chans Hc. apply dstack_zero.
      intros smp x. apply Hzero, Hc. }
    specialize (H Hb [] [] (Forall2_nil _)).
    assert (HF : Forall (Forall (Forall (fun x => x == 0)))
                   (assemble_from input_block_size
                      ((7 # 10) / max_smp mixed) [] (map dstack mixed))).
    { apply (Forall2_left _ _ (assemble_from input_block_size
                      ((7 # 10) / max_smp mixed) [] (map dstack mixed))).
      eapply Forall2_impl; [|exact H]. intros b b' Hbb.
      apply (Forall2_left _ _ b').
      eapply Forall2_impl; [|exact Hbb]. intros rw0 rw0' Hrr.
      apply (Forall2_left _ _ rw0'). exact Hrr. }
    rewrite Forall_forall in HF. specialize (HF hopk Hhop).
    rewrite Forall_forall in HF. specialize (HF rw Hrw).
    rewrite Forall_forall in HF. apply HF, Hy.
Qed.

Lemma silence_stays_silent_witness :
  let mixed := [ [[0; 0; 0; 0]]; [[0; 0 # 3; 0; 0]] ] in
  (forall chans smp x,
     In chans mixed -> In smp chans -> In x smp -> x == 0) /\
  max_smp mixed == peak_floor.
Proof.
  intros mixed.
  assert (H : forall chans smp x,
             In chans mixed -> In smp chans -> In x smp -> x == 0).
  { intros chans smp x Hc Hs Hx. cbn in Hc.
    destruct Hc as [<-|[<-|[]]]; cbn in Hs; destruct Hs as [<-|[]];
      cbn in Hx; intuition (subst; reflexivity). }
  split; [exact H|].
  exact (proj1 (silence_stays_silent 2 mixed H)).
Defined.

End NormalisationProofs.


(** ** The adjacency limit on the groups of the planner *)

Module MixerMore.
Import Planner Mixer.
Open Scope nat_scope.

(** Every item of group [k] of the plan is a pair [a <= b < N] with
    [a + b = k]. *)
Lemma item_bounds N k g a b m :
  nth_error (get_block_mixes N) k = Some g ->
  In ((a, b), m) g -> a <= b < N /\ a + b = k.
Proof.
  intros Hnth Hin.
  assert (Hlen : k < length (get_block_mixes N))
    by (apply nth_error_Some; congruence).
  assert (HN : 1 <= N).
  { destruct N; [|lia]. cbn in Hlen. lia. }
  rewrite (PlannerProofs.length_get_block_mixes N HN) in Hlen.
  destruct (PlannerProofs.nth_get_block_mixes N k HN Hlen)
    as (g' & Hnth' & _ & Hl & _).
  assert (g' = g) by congruence. subst g'.
  destruct (PlannerFormProofs.lookup_in_keys (a, b) g) as [v Hv].
  { unfold Dict.keys. apply (in_map fst g ((a, b), m)), Hin. }
  rewrite Hl in Hv. unfold expected in Hv.
  destruct (Nat.leb_spec a b), (Nat.ltb_spec b N), (Nat.eqb_spec (a + b) k);
    cbn [andb] in Hv; try discriminate. lia.
Qed.

Lemma filter_all {A} (f : A -> bool) l :
  (forall x, In x l -> f x = true) -> filter f l = l.
Proof.
  induction l as [|a l IH]; intros H; [reflexivity|]. cbn [filter].
  rewrite (H a (or_introl eq_refl)), IH; [reflexivity|].
  intros x Hx. apply H. right. exact Hx.
Qed.

Section Facts.
Variable C : Type.
Variable czero : C.
Variables (cadd cmul : C -> C -> C).
Variable cmul_int : C -> nat -> C.
Variable load : nat -> nat -> list C.

Local Abbreviation sum_freqs := (sum_freqs C czero cadd cmul cmul_int load).

(** A limit that is not positive, or that is at least [n_blocks - 1], is
    no limit: no pair of any group of the plan is skipped, and the
    accumulated spectrum is the one of an unlimited run. *)
Theorem wide_limit_is_no_limit
  (n_blocks k : nat) (g : group) (limit_blocks : Z)
  (output_block_size_samples nchannel : nat) :
  nth_error (get_block_mixes n_blocks) k = Some g ->
  (limit_blocks <= 0 \/ Z.of_nat n_blocks - 1 <= limit_blocks)%Z ->
  kept limit_blocks g = g /\
  sum_freqs limit_blocks output_block_size_samples nchannel g =
  sum_freqs 0%Z output_block_size_samples nchannel g.
Proof.
  intros Hnth Hlim.
  assert (Hk : kept limit_blocks g = g).
  { apply filter_all. intros [[a b] m] Hin. cbn [fst snd].
    destruct (item_bounds _ _ _ _ _ _ Hnth Hin) as [Hab _].
    unfold skipped. apply negb_true_iff, andb_false_iff.
    destruct Hlim as [H|H]; [left|right]; apply Z.ltb_ge; lia. }
  split; [exact Hk|]. unfold Mixer.sum_freqs.
  rewrite (MixerProofs.fold_kept C cadd cmul cmul_int load limit_blocks).
  rewrite Hk. reflexivity.
Qed.

(** Under any positive limit every group of the plan keeps its innermost
    pair, [(k // 2, k - k // 2)], whose blocks are at most one apart: no
    group of the plan is skipped as a whole. *)
Theorem limit_keeps_middle_pair
  (n_blocks k : nat) (g : group) (limit_blocks : Z) :
  nth_error (get_block_mixes n_blocks) k = Some g ->
  (0 < limit_blocks)%Z ->
  In ((k / 2, k - k / 2), if k / 2 =? k - k / 2 then 1 else 2)
     (kept limit_blocks g) /\
  skipped limit_blocks (k / 2) (k - k / 2) = false.
Proof.
  intros Hnth HL.
  assert (Hlen : k < length (get_block_mixes n_blocks))
    by (apply nth_error_Some; congruence).
  assert (HN : 1 <= n_blocks).
  { destruct n_blocks; [|lia]. cbn in Hlen. lia. }
  rewrite (PlannerProofs.length_get_block_mixes n_blocks HN) in Hlen.
  pose proof (Nat.div_mod_eq k 2) as Hdm.
  pose proof (Nat.mod_upper_bound k 2) as Hm.
  assert (Hs : skipped limit_blocks (k / 2) (k - k / 2) = false).
  { unfold skipped. apply andb_false_iff. right. apply Z.ltb_ge. lia. }
  split; [|exact Hs].
  unfold kept. apply filter_In. cbn [fst snd]. rewrite Hs.
  split; [|reflexivity].
  apply (DictProofs.lookup_Some_in _ PlannerProofs.pair_eqb_spec).
  apply (MixerProofs.plan_contains n_blocks k); [exact Hnth|lia|lia].
Qed.

End Facts.

Lemma wide_limit_is_no_limit_witness :
  nth_error (get_block_mixes 3) 2 = Some [((0, 2), 2); ((1, 1), 1)] /\
  (2 <= 0 \/ Z.of_nat 3 - 1 <= 2)%Z /\
  kept 2 [((0, 2), 2); ((1, 1), 1)] = [((0, 2), 2); ((1, 1), 1)].
Proof.
  assert (H1 : nth_error (get_block_mixes 3) 2 =
               Some [((0, 2), 2); ((1, 1), 1)]) by reflexivity.
  assert (H2 : (2 <= 0 \/ Z.of_nat 3 - 1 <= 2)%Z) by (right; cbn; lia).
  split; [exact H1|]. split; [exact H2|].
  exact (proj1 (wide_limit_is_no_limit Z 0%Z Z.add Z.mul
                  (fun z m => (z * Z.of_nat m)%Z)
                  (fun b _ => [Z.of_nat b + 1; 10]%Z)
                  3 2 _ 2%Z 2 0 H1 H2)).
Defined.

Lemma limit_keeps_middle_pair_witness :
  nth_error (get_block_mixes 3) 2 = Some [((0, 2), 2); ((1, 1), 1)] /\
  (0 < 1)%Z /\
  In ((1, 1), 1) (kept 1 [((0, 2), 2); ((1, 1), 1)]).
Proof.
  assert (H1 : nth_error (get_block_mixes 3) 2 =
               Some [((0, 2), 2); ((1, 1), 1)]) by reflexivity.
  assert (H2 : (0 < 1)%Z) by lia.
  split; [exact H1|]. split; [exact H2|].
  exact (proj1 (limit_keeps_middle_pair 3 2 _ 1%Z H1 H2)).
Defined.

End MixerMore.


(** ** Temporary files do not collide *)

Module TempFilesProofs.
Import Ascii String TempFiles.
Local Open Scope string_scope.

Example tmpfft_name :
  get_tmpfft_filename "/tmp/work" 12 0 = "/tmp/work/tmpfft_12_0.npy".
Proof. reflexivity. Qed.

Example tmpsmp_name : get_tmpsmp_filename "work/" 7 = "work/tmpsmp_7.npy".
Proof. reflexivity. Qed.

Lemma append_assoc3 (a b c : string) : (a ++ b) ++ c = a ++ b ++ c.
Proof. induction a as [|x a IH]; cbn; [reflexivity | rewrite IH; reflexivity]. Qed.

Lemma append_cancel_l (p a b : string) : p ++ a = p ++ b -> a = b.
Proof.
  induction p as [|x p IH]; cbn; [auto|]. intros [= H]. apply IH, H.
Qed.

(** The directory part that [join] puts before a relative name. *)
Lemma join_relative (a : string) :
  exists p, forall b, startswith_sep b = false -> join a b = p ++ b.
Proof.
  unfold join.
  destruct (match a with EmptyString => true | _ => endswith_sep a end).
  - exists a. intros b ->. reflexivity.
  - exists (a ++ "/"). intros b ->. rewrite append_assoc3. reflexivity.
Qed.

Lemma digits_no_underscore d :
  occurs "_" (DecimalString.NilEmpty.string_of_uint d) = false.
Proof. induction d; cbn; auto. Qed.

Lemma digits_no_dot d :
  occurs "." (DecimalString.NilEmpty.string_of_uint d) = false.
Proof. induction d; cbn; auto. Qed.

(** Two strings cut at the first occurrence of [c] agree part by part. *)
Lemma split_at_first c : forall s1 s2 r1 r2,
  occurs c s1 = false -> occurs c s2 = false ->
  s1 ++ String c r1 = s2 ++ String c r2 -> s1 = s2 /\ r1 = r2.
Proof.
  induction s1 as [|x s1 IH]; intros [|y s2] r1 r2 H1 H2 E; cbn in *.
  - injection E as E. auto.
  - injection E as E1 E2. subst y. rewrite Ascii.eqb_refl in H2. discriminate.
  - injection E as E1 E2. subst x. rewrite Ascii.eqb_refl in H1. discriminate.
  - injection E as E1 E2. subst y.
    apply orb_false_iff in H1 as [_ H1]. apply orb_false_iff in H2 as [_ H2].
    destruct (IH s2 r1 r2 H1 H2 E2) as [-> ->]. auto.
Qed.

Lemma format_d_inj n m : format_d n = format_d m -> n = m.
Proof.
  unfold format_d. intros E.
  apply (f_equal DecimalString.NilEmpty.uint_of_string) in E.
  rewrite !DecimalString.NilEmpty.usu in E. injection E as E.
  apply (f_equal Nat.of_uint) in E.
  rewrite !DecimalNat.Unsigned.of_to in E. exact E.
Qed.

(** In one temporary directory no two blocks share a file: the name of a
    spectrum file determines its block and channel, the name of a mixed
    block file determines its group, and no spectrum file has the name of
    a mixed block file. *)
Theorem tmp_filenames_distinct (tmpdir : string) :
  (forall block_k nchannel block_k' nchannel',
     get_tmpfft_filename tmpdir block_k nchannel =
     get_tmpfft_filename tmpdir block_k' nchannel' ->
     block_k = block_k' /\ nchannel = nchannel') /\
  (forall block_k block_k',
     get_tmpsmp_filename tmpdir block_k = get_tmpsmp_filename tmpdir block_k' ->
     block_k = block_k') /\
  (forall block_k nchannel block_k',
     get_tmpfft_filename tmpdir block_k nchannel <>
     get_tmpsmp_filename tmpdir block_k').
Proof.
  destruct (join_relative tmpdir) as [p Hp].
  unfold get_tmpfft_filename, get_tmpsmp_filename, tmpextension.
  split; [|split].
  - intros k c k' c' E. rewrite !Hp in E by reflexivity.
    apply append_cancel_l in E. rewrite !append_assoc3 in E.
    apply (append_cancel_l "tmpfft_") in E.
    apply split_at_first in E as [E1 E2];
      try apply digits_no_underscore.
    apply (split_at_first ".") in E2 as [E2 _]; try apply digits_no_dot.
    split; apply format_d_inj; assumption.
  - intros k k' E. rewrite !Hp in E by reflexivity.
    apply append_cancel_l in E. rewrite !append_assoc3 in E.
    apply (append_cancel_l "tmpsmp_") in E.
    apply (split_at_first ".") in E as [E _]; try apply digits_no_dot.
    apply format_d_inj, E.
  - intros k c k' E. rewrite !Hp in E by reflexivity.
    apply append_cancel_l in E. discriminate E.
Qed.

End TempFilesProofs.


(** ** Segmentation and output length together *)

Module PipelineProofs.
Import Planner Segmenter Assembler.
Open Scope nat_scope.


(** The blocks read from a file of [nsamples] frames: [nsamples // B]
    full blocks, then one with the remaining [nsamples % B] frames, then
    the forced empty block.  When [nsamples] is a multiple of [B] the last
    two blocks are both empty. *)
Theorem read_blocks_lengths (input_block_size : nat) (f : list frame)
  (k : nat) :
  1 <= input_block_size ->
  k < n_blocks (length f) input_block_size ->
  exists inbuf,
    nth_error (read_blocks (n_blocks (length f) input_block_size)
                           input_block_size f) k = Some inbuf /\
    length inbuf =
      if k <? length f / input_block_size then input_block_size
      else if k =? length f / input_block_size
           then length f mod input_block_size
           else 0.
Proof.
  intros HB Hk. eexists. split.
  - apply SegmenterProofs.nth_read_blocks, Hk.
  - rewrite length_firstn, length_skipn.
    pose proof (Nat.div_mod_eq (length f) input_block_size) as Hdm.
    pose proof (Nat.mod_upper_bound (length f) input_block_size) as Hm.
    unfold n_blocks in Hk.
    destruct (Nat.ltb_spec k (length f / input_block_size)); [nia|].
    destruct (Nat.eqb_spec k (length f / input_block_size)); [subst k; nia|].
    nia.
Qed.

Lemma read_blocks_lengths_witness :
  let f := [[1]; [2]; [3]; [4]]%Z in
  1 <= 2 /\ 2 < n_blocks (length f) 2 /\
  exists inbuf,
    nth_error (read_blocks (n_blocks (length f) 2) 2 f) 2 = Some inbuf /\
    length inbuf = 0.
Proof.
  intros f.
  assert (H1 : 1 <= 2) by lia.
  assert (H2 : 2 < n_blocks (length f) 2) by (cbn; lia).
  split; [exact H1|]. split; [exact H2|].
  exact (read_blocks_lengths 2 f 2 H1 H2).
Defined.



End PipelineProofs.
